(** * Subnet tree calculator: the core address and prefix arithmetic

    A shallow embedding of the core of the calculator (parser.ts,
    calculations.ts, transformations.ts, set-operations.ts, vlsm.ts,
    search.ts and the lookup of service.ts), the properties its
    specification states about it (C1 to C10), and further properties of
    the code (X1 to X30).

    Conventions of the embedding:
    - a JavaScript [bigint] is a [Z]; a [number] that holds a prefix length,
      a count or an index is a [Z] too (host counts and prefix lengths are
      integers), and the places where the code can produce [Infinity] or
      [NaN] from such a number go through [Js.jsnum];
    - a JavaScript string is a [string] whose characters are the code units
      below 256;
    - a function that can throw returns an [option]: [None] is the throw,
      whatever the error;
    - [Array.prototype.sort] is the stable sort the language requires of a
      consistent comparator (see [Vlsm.sortBy] for the others);
    - [Math.log2] is the mathematical logarithm, which the doubles of the
      source give on arguments up to [2 ^ 32] (see [Js.ceilLog2]). *)

From Stdlib Require Import ZArith List String Ascii Bool Lia Permutation Sorted.
Import ListNotations.
Open Scope string_scope.
Open Scope Z_scope.

Notation "x <- e ;; k" := (match e with Some x => k | None => None end)
  (at level 61, e at next level, right associativity, only parsing).
Notation "' p <- e ;; k" := (match e with Some p => k | None => None end)
  (at level 61, p pattern, e at next level, right associativity, only parsing).

(** ** JavaScript primitives used by the sources *)

Module Js.

Definition code (c : ascii) : Z := Z.of_N (N_of_ascii c).

Definition chr (z : Z) : ascii := ascii_of_N (Z.to_N z).

Definition isDigit (c : ascii) : bool := (48 <=? code c) && (code c <=? 57).

Definition isHexDigit (c : ascii) : bool :=
  isDigit c
  || ((97 <=? code c) && (code c <=? 102))
  || ((65 <=? code c) && (code c <=? 70)).

(** White space and line terminators of [String.prototype.trim] among the
    code units below 256. *)
Definition isSpace (c : ascii) : bool :=
  let n := code c in
  (n =? 9) || (n =? 10) || (n =? 11) || (n =? 12) || (n =? 13) || (n =? 32)
  || (n =? 160).

Fixpoint trimStart (s : string) : string :=
  match s with
  | String c r => if isSpace c then trimStart r else s
  | EmptyString => EmptyString
  end.

Fixpoint trimEnd (s : string) : string :=
  match s with
  | String c r =>
      match trimEnd r with
      | EmptyString => if isSpace c then EmptyString else String c EmptyString
      | r' => String c r'
      end
  | EmptyString => EmptyString
  end.

Definition trim (s : string) : string := trimEnd (trimStart s).

(** [s.split(sep)] for a one-character separator. *)
Fixpoint split (sep : ascii) (s : string) : list string :=
  match s with
  | EmptyString => [EmptyString]
  | String c r =>
      if Ascii.eqb c sep then EmptyString :: split sep r
      else match split sep r with
           | h :: t => String c h :: t
           | [] => [String c EmptyString]
           end
  end.

(** [s.split('::')]. *)
Fixpoint splitDoubleColon (s : string) : list string :=
  match s with
  | EmptyString => [EmptyString]
  | String c r =>
      let keep := match splitDoubleColon r with
                  | h :: t => String c h :: t
                  | [] => [String c EmptyString]
                  end in
      match r with
      | String c2 r2 =>
          if Ascii.eqb c ":" && Ascii.eqb c2 ":"
          then EmptyString :: splitDoubleColon r2
          else keep
      | EmptyString => keep
      end
  end.

(** [s.includes(c)] for a one-character needle. *)
Fixpoint includes (c : ascii) (s : string) : bool :=
  match s with
  | EmptyString => false
  | String d r => Ascii.eqb d c || includes c r
  end.

(** [s.indexOf(c)]: [None] stands for -1. *)
Fixpoint indexOf (c : ascii) (s : string) : option nat :=
  match s with
  | EmptyString => None
  | String d r =>
      if Ascii.eqb d c then Some O
      else match indexOf c r with Some i => Some (S i) | None => None end
  end.

(** [s.lastIndexOf(c)]: [None] stands for -1. *)
Fixpoint lastIndexOf (c : ascii) (s : string) : option nat :=
  match s with
  | EmptyString => None
  | String d r =>
      match lastIndexOf c r with
      | Some i => Some (S i)
      | None => if Ascii.eqb d c then Some O else None
      end
  end.

(** [s.slice(0, n)] and [s.slice(n)] for [0 <= n]. *)
Fixpoint sliceTo (n : nat) (s : string) : string :=
  match n, s with
  | S n', String c r => String c (sliceTo n' r)
  | _, _ => EmptyString
  end.

Fixpoint sliceFrom (n : nat) (s : string) : string :=
  match n, s with
  | S n', String _ r => sliceFrom n' r
  | _, _ => s
  end.

(** [s.endsWith(c)] for a one-character suffix. *)
Fixpoint endsWith (c : ascii) (s : string) : bool :=
  match s with
  | EmptyString => false
  | String d EmptyString => Ascii.eqb d c
  | String _ r => endsWith c r
  end.

(** [s.toLowerCase()] on the code units below 256. *)
Definition lowerChar (c : ascii) : ascii :=
  let n := code c in
  if ((65 <=? n) && (n <=? 90))
     || ((192 <=? n) && (n <=? 222) && negb (n =? 215))
  then chr (n + 32) else c.

Fixpoint toLowerCase (s : string) : string :=
  match s with
  | EmptyString => EmptyString
  | String c r => String (lowerChar c) (toLowerCase r)
  end.

Definition isEmpty (s : string) : bool :=
  match s with EmptyString => true | _ => false end.

Fixpoint allChars (f : ascii -> bool) (s : string) : bool :=
  match s with
  | EmptyString => true
  | String c r => f c && allChars f r
  end.

(** [/^\d+$/.test(s)] *)
Definition isDigits (s : string) : bool := negb (isEmpty s) && allChars isDigit s.

(** [/^[0-9a-f]{1,4}$/i.test(s)] *)
Definition isHextet (s : string) : bool :=
  negb (isEmpty s) && (Nat.leb (String.length s) 4) && allChars isHexDigit s.

(** [Number(s)] for a string of decimal digits. *)
Fixpoint decimalValue (acc : Z) (s : string) : Z :=
  match s with
  | EmptyString => acc
  | String c r => decimalValue (acc * 10 + (code c - 48)) r
  end.

Definition Number (s : string) : Z := decimalValue 0 s.

Definition hexDigitValue (c : ascii) : Z :=
  let n := code c in
  if isDigit c then n - 48
  else if (97 <=? n) && (n <=? 102) then n - 87
  else n - 55.

(** [parseInt(s, 16)] for a string of hexadecimal digits. *)
Fixpoint hexValue (acc : Z) (s : string) : Z :=
  match s with
  | EmptyString => acc
  | String c r => hexValue (acc * 16 + hexDigitValue c) r
  end.

Definition parseInt16 (s : string) : Z := hexValue 0 s.

Definition digitChar (d : Z) : ascii :=
  if d <? 10 then chr (48 + d) else chr (87 + d).

(** Digits of [v] in base [base], most significant first: [fuel] bounds the
    number of digits. *)
Fixpoint digitsFuel (fuel : nat) (base v : Z) (acc : string) : string :=
  match fuel with
  | O => acc
  | S f =>
      let acc' := String (digitChar (v mod base)) acc in
      if v <? base then acc' else digitsFuel f base (v / base) acc'
  end.

(** [v.toString(base)] for a non-negative integer [v]. *)
Definition toStringBase (base v : Z) : string :=
  digitsFuel (S (Z.to_nat (Z.log2 v))) base v EmptyString.

Definition toString10 (v : Z) : string := toStringBase 10 v.
Definition toString16 (v : Z) : string := toStringBase 16 v.

(** [parts.join(sep)] *)
Fixpoint join (sep : string) (parts : list string) : string :=
  match parts with
  | [] => EmptyString
  | [p] => p
  | p :: rest => p ++ sep ++ join sep rest
  end.

(** [ToInt32]: the signed 32-bit reading of an integer. *)
Definition toInt32 (z : Z) : Z :=
  let m := z mod 2 ^ 32 in
  if m <? 2 ^ 31 then m else m - 2 ^ 32.

(** [a & b] on numbers. *)
Definition and32 (a b : Z) : Z := toInt32 (Z.land (toInt32 a) (toInt32 b)).

(** [a << k] on numbers: the count is taken modulo 32. *)
Definition shl32 (a k : Z) : Z := toInt32 (Z.shiftl (toInt32 a) (k mod 32)).

(** The values a [number] takes where the sources compute a prefix length
    from a host count: an integer, an infinity or [NaN]. *)
Inductive jsnum : Type :=
  | JInt (z : Z)
  | JPosInf
  | JNegInf
  | JNaN.

Definition jsub (a b : jsnum) : jsnum :=
  match a, b with
  | JNaN, _ | _, JNaN => JNaN
  | JInt x, JInt y => JInt (x - y)
  | JInt _, JPosInf => JNegInf
  | JInt _, JNegInf => JPosInf
  | JPosInf, JPosInf => JNaN
  | JNegInf, JNegInf => JNaN
  | JPosInf, _ => JPosInf
  | JNegInf, _ => JNegInf
  end.

(** [a < b] on numbers with an integer right-hand side. *)
Definition jltInt (a : jsnum) (b : Z) : bool :=
  match a with
  | JInt x => x <? b
  | JNegInf => true
  | JPosInf | JNaN => false
  end.

(** [Math.ceil(Math.log2(x))] for an integer [x], as the mathematical
    value.  [Math.log2] returns the exponent on a power of two, and up to
    [2 ^ 32] the logarithm of any other integer is further from an integer
    than the rounding of a double can move it, so up to there the source
    computes this value.  Far above, it can come out one less: the
    logarithm of [2 ^ 49 + 1] rounds to the double 49, so the source gets
    49 where this definition has 50.  The statements that read the value
    of the logarithm keep its argument at or below [2 ^ 32].  [log2 0] is
    [-Infinity] and the logarithm of a negative number is [NaN]. *)
Definition ceilLog2 (x : Z) : jsnum :=
  if 0 <? x then JInt (Z.log2_up x)
  else if x =? 0 then JNegInf
  else JNaN.

(** [1 << d]: [ToInt32] sends an infinity and [NaN] to 0. *)
Definition oneShl (d : jsnum) : Z :=
  match d with
  | JInt k => shl32 1 k
  | _ => shl32 1 0
  end.

(** [array.push(x)] *)
Definition push {A : Type} (array : list A) (x : A) : list A := (array ++ [x])%list.

(** [String(v)] for an integer [v], negative or not. *)
Definition toStringSigned (v : Z) : string :=
  if v <? 0 then "-" ++ toString10 (- v) else toString10 v.

End Js.

(** ** Bounded loops

    [iterPow k step s] runs [step] from [s] at most [2 ^ k] times and stops
    at the first [inr]: a [while] loop whose number of rounds has no small
    bound. *)

Module Loop.

Section IterPow.
Context {S R : Type}.
Variable step : S -> S + R.

Fixpoint iterPow (k : nat) (s : S) : S + R :=
  match k with
  | O => step s
  | Datatypes.S k' =>
      match iterPow k' s with
      | inl s' => iterPow k' s'
      | inr r => inr r
      end
  end.
End IterPow.

End Loop.

(** ** types.ts and utils.ts *)

Inductive IpVersion : Type := V4 | V6.

Definition IpVersion_eqb (a b : IpVersion) : bool :=
  match a, b with
  | V4, V4 | V6, V6 => true
  | _, _ => false
  end.

Record NormalisedCidr : Type := mkCidr {
  version : IpVersion;
  bits : Z;
  network : Z;
  prefix : Z
}.

Inductive AddressClass : Type :=
  | PRIVATE | PUBLIC | LOOPBACK | LINK_LOCAL | MULTICAST | DOCUMENTATION
  | RESERVED | UNIQUE_LOCAL | GLOBAL_UNICAST | UNSPECIFIED | BROADCAST.

Inductive VlsmStrategy : Type :=
  | LARGEST_FIRST | SMALLEST_FIRST | PACKED_LOW | PACKED_HIGH | BALANCED.

(** The bit width the parsers give a version. *)
Definition bitsOf (v : IpVersion) : Z :=
  match v with V6 => 128 | V4 => 32 end.

(** [assertIntegerInRange]: [true] when the assertion passes. *)
Definition assertIntegerInRange (n min max : Z) : bool :=
  negb ((n <? min) || (n >? max)).

(** [Result<T>] of types.ts: [{ ok: true, value }] or [{ ok: false, error }].
    The error object is not modelled, as the message of a throw is not. *)
Inductive Result (T : Type) : Type :=
| Ok (value : T)
| NotOk.

Arguments Ok {T} value.
Arguments NotOk {T}.

(** ** parser.ts *)

Module Parser.
Import Js.

Definition isLikelyIpv6 (s : string) : bool := includes ":" s.

Definition stripZoneIndex (ip : string) : string :=
  match indexOf "%" ip with
  | None => ip
  | Some i => sliceTo i ip
  end.

(** The loop of [ipv4ToBigInt] over the dot-separated parts. *)
Fixpoint octetsLoop (parts : list string) (n : Z) : option Z :=
  match parts with
  | [] => Some n
  | p :: rest =>
      if negb (isDigits p) then None
      else
        let v := Number p in
        if (v <? 0) || (v >? 255) then None
        else octetsLoop rest (n * 256 + v)
  end.

Definition ipv4ToBigInt (ip : string) : option Z :=
  let parts := split "." (trim ip) in
  if negb (Nat.eqb (List.length parts) 4) then None
  else octetsLoop parts 0.

Definition bigIntToIpv4 (n : Z) : option string :=
  if (n <? 0) || (n >? 0xffffffff) then None
  else
    let a := Z.land (Z.shiftr n 24) 0xff in
    let b := Z.land (Z.shiftr n 16) 0xff in
    let c := Z.land (Z.shiftr n 8) 0xff in
    let d := Z.land n 0xff in
    Some (toString10 a ++ "." ++ toString10 b ++ "." ++ toString10 c ++ "."
          ++ toString10 d).

Definition expandEmbeddedIpv4 (ipv6 : string) : option string :=
  if negb (includes "." ipv6) then Some ipv6
  else
    match lastIndexOf ":" ipv6 with
    | None => None
    | Some lastColon =>
        let head := sliceTo lastColon ipv6 in
        let tail := sliceFrom (S lastColon) ipv6 in
        v4 <- ipv4ToBigInt tail ;;
        let hi := Z.land (Z.shiftr v4 16) 0xffff in
        let lo := Z.land v4 0xffff in
        let sep := if endsWith ":" head then "" else ":" in
        Some (head ++ sep ++ toString16 hi ++ ":" ++ toString16 lo)
    end.

Fixpoint hextetsToBigInt (hextets : list string) (n : Z) : option Z :=
  match hextets with
  | [] => Some n
  | h :: rest =>
      if isEmpty h then None
      else if negb (isHextet h) then None
      else
        let v := parseInt16 h in
        if (v <? 0) || (v >? 0xffff) then None
        else hextetsToBigInt rest (Z.shiftl n 16 + v)
  end.

Definition ipv6ToBigInt (ip : string) : option Z :=
  let s := toLowerCase (stripZoneIndex (trim ip)) in
  if isEmpty s then None
  else
    s <- expandEmbeddedIpv4 s ;;
    let parts := splitDoubleColon s in
    if Nat.ltb 2 (List.length parts) then None
    else
      let leftPart := nth 0 parts "" in
      let rightPart := if Nat.eqb (List.length parts) 2 then nth 1 parts "" else "" in
      let left := if isEmpty leftPart then [] else split ":" leftPart in
      let right := if isEmpty rightPart then [] else split ":" rightPart in
      if Nat.eqb (List.length parts) 1 then
        if negb (Nat.eqb (List.length left) 8) then None
        else hextetsToBigInt left 0
      else
        let total := (List.length left + List.length right)%nat in
        if Nat.ltb 8 total then None
        else
          let missing := (8 - total)%nat in
          let full := (left ++ repeat "0" missing ++ right)%list in
          if negb (Nat.eqb (List.length full) 8) then None
          else hextetsToBigInt full 0.

(** The array of the eight hextets of [x], filled from index 7 down. *)
Fixpoint hextetsOf (count : nat) (x : Z) (acc : list Z) : list Z :=
  match count with
  | O => acc
  | S c => hextetsOf c (Z.shiftr x 16) (Z.land x 0xffff :: acc)
  end.

(** [while (j < 8 && hextets[j] === 0) j++] *)
Fixpoint zeroRunEnd (fuel : nat) (hextets : list Z) (j : nat) : nat :=
  match fuel with
  | O => j
  | S f =>
      if Nat.ltb j 8 && (nth j hextets 1 =? 0)
      then zeroRunEnd f hextets (S j)
      else j
  end.

(** The scan of [bigIntToIpv6] for the run to compress: [bestStart] is -1
    until a run of two or more zero hextets is found. *)
Fixpoint scanRuns (fuel : nat) (hextets : list Z) (i : nat)
    (bestStart bestLen : Z) : Z * Z :=
  match fuel with
  | O => (bestStart, bestLen)
  | S f =>
      if Nat.ltb i 8 then
        if nth i hextets 1 =? 0 then
          let j := zeroRunEnd 8 hextets i in
          let len := Z.of_nat j - Z.of_nat i in
          if (len >=? 2) && (len >? bestLen)
          then scanRuns f hextets j (Z.of_nat i) len
          else scanRuns f hextets j bestStart bestLen
        else scanRuns f hextets (S i) bestStart bestLen
      else (bestStart, bestLen)
  end.

Definition bigIntToIpv6 (n : Z) : option string :=
  if (n <? 0) || (n >? 2 ^ 128 - 1) then None
  else
    let hextets := hextetsOf 8 n [] in
    let '(bestStart, bestLen) := scanRuns 8 hextets 0 (-1) 0 in
    if bestStart =? -1 then Some (join ":" (map toString16 hextets))
    else
      let before := map toString16 (firstn (Z.to_nat bestStart) hextets) in
      let after := map toString16 (skipn (Z.to_nat (bestStart + bestLen)) hextets) in
      if Nat.eqb (List.length before) 0 && Nat.eqb (List.length after) 0 then Some "::"
      else
        let left := join ":" before in
        let right := join ":" after in
        if isEmpty left then Some ("::" ++ right)
        else if isEmpty right then Some (left ++ "::")
        else Some (left ++ "::" ++ right).

Definition maskFromPrefix (prefix bits : Z) : option Z :=
  if negb (assertIntegerInRange prefix 0 bits) then None
  else if prefix =? 0 then Some 0
  else if prefix =? bits then Some (Z.shiftl 1 bits - 1)
  else
    let ones := Z.shiftl 1 prefix - 1 in
    let shift := bits - prefix in
    Some (Z.shiftl ones shift).

Definition wildcardFromPrefix (prefix bits : Z) : option Z :=
  if negb (assertIntegerInRange prefix 0 bits) then None
  else
    let hostBits := bits - prefix in
    if hostBits =? 0 then Some 0
    else Some (Z.shiftl 1 hostBits - 1).

Definition parseAddress (version : IpVersion) (s : string) : option Z :=
  match version with
  | V6 => ipv6ToBigInt s
  | V4 => ipv4ToBigInt s
  end.

Definition versionOf (s : string) : IpVersion :=
  if isLikelyIpv6 s then V6 else V4.

Definition parseCidr (input : string) : option NormalisedCidr :=
  let trimmed := trim input in
  let parts := split "/" trimmed in
  if negb (Nat.eqb (List.length parts) 2) then None
  else
    let addrStr := trim (nth 0 parts "") in
    let prefixStr := trim (nth 1 parts "") in
    if isEmpty addrStr || isEmpty prefixStr then None
    else if negb (isDigits prefixStr) then None
    else
      let prefix := Number prefixStr in
      let version := versionOf addrStr in
      let bits := bitsOf version in
      if negb (assertIntegerInRange prefix 0 bits) then None
      else
        ip <- parseAddress version addrStr ;;
        mask <- maskFromPrefix prefix bits ;;
        let network := Z.land ip mask in
        Some (mkCidr version bits network prefix).

(** The loop of [parseCidrWithNetmask] that counts the leading one bits:
    [count] rounds are left, [i] is the loop index. *)
Fixpoint leadingOnes (count : nat) (i temp maxBit prefix : Z) : Z :=
  match count with
  | O => prefix
  | S c =>
      if negb (Z.land temp (Z.shiftr maxBit i) =? 0)
      then leadingOnes c (i + 1) temp maxBit (prefix + 1)
      else prefix
  end.

Definition parseCidrWithNetmask (address netmask : string) : option NormalisedCidr :=
  let version := versionOf address in
  let bits := bitsOf version in
  ip <- parseAddress version address ;;
  maskValue <- parseAddress version netmask ;;
  let maxBit := Z.shiftl 1 (bits - 1) in
  let prefix := leadingOnes (Z.to_nat bits) 0 maskValue maxBit 0 in
  expectedMask <- maskFromPrefix prefix bits ;;
  if negb (maskValue =? expectedMask) then None
  else
    let network := Z.land ip maskValue in
    Some (mkCidr version bits network prefix).

(** [while (trailingZeros < bits && (temp & 1n) === 0n)] *)
Fixpoint trailingZerosLoop (fuel : nat) (bits trailingZeros temp : Z) : Z :=
  match fuel with
  | O => trailingZeros
  | S f =>
      if (trailingZeros <? bits) && (Z.land temp 1 =? 0)
      then trailingZerosLoop f bits (trailingZeros + 1) (Z.shiftr temp 1)
      else trailingZeros
  end.

(** [for (let p = bits - trailingZeros; p <= bits; p++)]: the first [p]
    whose block ends at or before [endInt], and [bits] when there is none. *)
Fixpoint findPrefix (fuel : nat) (bits current endInt p : Z) : Z :=
  match fuel with
  | O => bits
  | S f =>
      if p <=? bits then
        let blockSize := Z.shiftl 1 (bits - p) in
        let blockEnd := current + blockSize - 1 in
        if blockEnd <=? endInt then p
        else findPrefix f bits current endInt (p + 1)
      else bits
  end.

(** One round of the [while (current <= endInt)] loop. *)
Definition rangeStep (version : IpVersion) (bits endInt : Z)
    (st : Z * list NormalisedCidr) : (Z * list NormalisedCidr) + list NormalisedCidr :=
  let '(current, result) := st in
  if current <=? endInt then
    let trailingZeros := trailingZerosLoop (Z.to_nat bits) bits 0 current in
    let prefix :=
      findPrefix (S (Z.to_nat trailingZeros)) bits current endInt (bits - trailingZeros) in
    let result := (result ++ [mkCidr version bits current prefix])%list in
    let blockSize := Z.shiftl 1 (bits - prefix) in
    let current := current + blockSize in
    if current =? 0 then inr result else inl (current, result)
  else inr result.

(** The loop runs at most [2 ^ 129] rounds, more than any range of
    addresses has. *)
Definition rangeToMinimalPrefixes (start end_ : string) : option (list NormalisedCidr) :=
  let version := versionOf start in
  let bits := bitsOf version in
  startInt <- parseAddress version start ;;
  endInt <- parseAddress version end_ ;;
  if startInt >? endInt then None
  else
    match Loop.iterPow (rangeStep version bits endInt) 129 (startInt, []) with
    | inr result => Some result
    | inl _ => None
    end.

Definition formatAddress (version : IpVersion) (n : Z) : option string :=
  match version with
  | V6 => bigIntToIpv6 n
  | V4 => bigIntToIpv4 n
  end.

Definition formatCidr (version : IpVersion) (network prefix : Z) : option string :=
  a <- formatAddress version network ;;
  Some (a ++ "/" ++ toStringSigned prefix).

Definition classifyIpv6 (ip : Z) : list AddressClass :=
  if ip =? 0 then [UNSPECIFIED]
  else if ip =? 1 then [LOOPBACK]
  else if Z.shiftr ip 120 =? 0xff then [MULTICAST]
  else if Z.shiftr ip 118 =? 0x3fa then [LINK_LOCAL]
  else if (Z.shiftr ip 121 =? 0x7e) || (Z.shiftr ip 121 =? 0x7f) then [UNIQUE_LOCAL; PRIVATE]
  else if Z.shiftr ip 96 =? 0x20010db8 then [DOCUMENTATION]
  else if Z.shiftr ip 125 =? 0x1 then [GLOBAL_UNICAST; PUBLIC]
  else [RESERVED].

Definition classifyIpv4 (ip : Z) : list AddressClass :=
  if ip =? 0 then [UNSPECIFIED]
  else if Z.shiftr ip 24 =? 127 then [LOOPBACK]
  else if Z.shiftr ip 28 =? 0xe then [MULTICAST]
  else if (Z.shiftr ip 28 =? 0xf) && negb (ip =? 0xffffffff) then [RESERVED]
  else if ip =? 0xffffffff then [BROADCAST]
  else if Z.shiftr ip 24 =? 10 then [PRIVATE]
  else if Z.shiftr ip 20 =? 0xac1 then [PRIVATE]
  else if Z.shiftr ip 16 =? 0xc0a8 then [PRIVATE]
  else if Z.shiftr ip 16 =? 0xa9fe then [LINK_LOCAL]
  else if (Z.shiftr ip 8 =? 0xc00002) || (Z.shiftr ip 8 =? 0xc63364)
          || (Z.shiftr ip 8 =? 0xcb0071) then [DOCUMENTATION]
  else [PUBLIC].

(** The body of the [try] block: [None] is a throw inside it. *)
Definition classifyAddressTry (address : string) : option (list AddressClass) :=
  if isLikelyIpv6 address then
    ip <- ipv6ToBigInt address ;; Some (classifyIpv6 ip)
  else
    ip <- ipv4ToBigInt address ;; Some (classifyIpv4 ip).

Definition classifyAddress (address : string) : list AddressClass :=
  match classifyAddressTry address with
  | Some classes => classes
  | None => []
  end.

(** [try { return { ok: true, value: parseCidr(input) } } catch (error)
    { return { ok: false, error } }] *)
Definition parseCidrSafe (input : string) : Result NormalisedCidr :=
  match parseCidr input with
  | Some value => Ok value
  | None => NotOk
  end.

End Parser.

(** ** calculations.ts *)

Module Calculations.
Import Js Parser.

Record SubnetMeta : Type := mkMeta {
  version : IpVersion;
  bits : Z;
  cidr : string;
  network : string;
  prefix : Z;
  netmask : string;
  wildcard : string;
  broadcast : option string;
  lastAddress : string;
  addressCount : Z;
  usableCount : Z;
  firstUsable : option string;
  lastUsable : option string
}.

(** [x == null ? null : formatAddress(version, x)] *)
Definition formatNullable (version : IpVersion) (x : option Z) : option (option string) :=
  match x with
  | None => Some None
  | Some n => s <- formatAddress version n ;; Some (Some s)
  end.

Definition subnetMeta (network prefix : Z) (version : IpVersion) (bits : Z)
    : option SubnetMeta :=
  if negb (assertIntegerInRange prefix 0 bits) then None
  else
    mask <- maskFromPrefix prefix bits ;;
    wildcard <- wildcardFromPrefix prefix bits ;;
    let last := Z.lor network wildcard in
    let addressCount := Z.shiftl 1 (bits - prefix) in
    let '(usableCount, firstUsable, lastUsable) :=
      match version with
      | V4 =>
          if prefix =? 32 then (1, Some network, Some network)
          else if prefix =? 31 then (2, Some network, Some last)
          else (addressCount - 2, Some (network + 1), Some (last - 1))
      | V6 => (addressCount, Some network, Some last)
      end in
    cidrText <- formatCidr version network prefix ;;
    networkText <- formatAddress version network ;;
    netmaskText <- formatAddress version mask ;;
    wildcardText <- formatAddress version wildcard ;;
    broadcastText <-
      match version with
      | V4 => s <- formatAddress version last ;; Some (Some s)
      | V6 => Some None
      end ;;
    lastText <- formatAddress version last ;;
    firstUsableText <- formatNullable version firstUsable ;;
    lastUsableText <- formatNullable version lastUsable ;;
    Some (mkMeta version bits cidrText networkText prefix netmaskText wildcardText
            broadcastText lastText addressCount usableCount
            firstUsableText lastUsableText).

End Calculations.

(** ** transformations.ts *)

Module Transformations.
Import Js Parser.

Definition splitBinary (cidr : NormalisedCidr)
    : option (NormalisedCidr * NormalisedCidr) :=
  if cidr.(prefix) >=? cidr.(bits) then None
  else
    let childPrefix := cidr.(prefix) + 1 in
    let childSize := Z.shiftl 1 (cidr.(bits) - childPrefix) in
    let l := mkCidr cidr.(version) cidr.(bits) cidr.(network) childPrefix in
    let r := mkCidr cidr.(version) cidr.(bits) (cidr.(network) + childSize) childPrefix in
    Some (l, r).

(** [Math.log2(n)] when it is an integer, for [0 < n]. *)
Definition log2Exact (n : Z) : option Z :=
  let k := Z.log2 n in
  if 2 ^ k =? n then Some k else None.

(** [0, 1, ..., n - 1] *)
Definition indices (n : Z) : list Z := map Z.of_nat (seq 0 (Z.to_nat n)).

(** [Math.log2] is exact on the powers of two. A count that passes the
    32-bit power-of-two test without being a power of two (a multiple of
    2^32) has a logarithm that is not an integer, and the conversion of
    [cidr.bits - newPrefix] to a [bigint] throws: no list is returned. *)
Definition splitIntoN (cidr : NormalisedCidr) (n : Z) : option (list NormalisedCidr) :=
  if n <=? 0 then None
  else if negb (and32 n (n - 1) =? 0) then None
  else
    bitsNeeded <- log2Exact n ;;
    let newPrefix := cidr.(prefix) + bitsNeeded in
    if newPrefix >? cidr.(bits) then None
    else
      let subnetSize := Z.shiftl 1 (cidr.(bits) - newPrefix) in
      Some (map (fun i => mkCidr cidr.(version) cidr.(bits)
                            (cidr.(network) + i * subnetSize) newPrefix)
              (indices n)).

(** The host bits a host count needs, as [splitByHostCount], [getSize] and
    [allocateOne] each compute them. *)
Definition hostBitsFor (version : IpVersion) (requiredHosts : Z) : jsnum :=
  match version with
  | V4 =>
      if requiredHosts =? 1 then JInt 0
      else if requiredHosts =? 2 then JInt 1
      else ceilLog2 (requiredHosts + 2)
  | V6 => ceilLog2 requiredHosts
  end.

Definition splitByHostCount (cidr : NormalisedCidr) (requiredHosts : Z)
    : option (Z * list NormalisedCidr) :=
  if requiredHosts <=? 0 then None
  else
    let hostBits := hostBitsFor cidr.(version) requiredHosts in
    let newPrefix := jsub (JInt cidr.(bits)) hostBits in
    if jltInt newPrefix cidr.(prefix) then None
    else
      let numSubnets := oneShl (jsub newPrefix (JInt cidr.(prefix))) in
      subnets <- splitIntoN cidr numSubnets ;;
      match newPrefix with
      | JInt p => Some (p, subnets)
      | _ => None
      end.

Definition mergeSiblings (a b : NormalisedCidr) : option NormalisedCidr :=
  if negb (IpVersion_eqb a.(version) b.(version)) || negb (a.(bits) =? b.(bits)) then None
  else if negb (a.(prefix) =? b.(prefix)) then None
  else if a.(prefix) =? 0 then None
  else
    let parentPrefix := a.(prefix) - 1 in
    parentMask <- maskFromPrefix parentPrefix a.(bits) ;;
    let aParent := Z.land a.(network) parentMask in
    let bParent := Z.land b.(network) parentMask in
    if negb (aParent =? bParent) then None
    else
      '(l, r) <- splitBinary (mkCidr a.(version) a.(bits) aParent parentPrefix) ;;
      let isValid :=
        ((a.(network) =? l.(network)) && (b.(network) =? r.(network)))
        || ((a.(network) =? r.(network)) && (b.(network) =? l.(network))) in
      if negb isValid then None
      else Some (mkCidr a.(version) a.(bits) aParent parentPrefix).

(** [cidrs.every((c) => c.version === version && c.bits === bits)] *)
Definition sameFamily (v : IpVersion) (w : Z) (cidrs : list NormalisedCidr) : bool :=
  forallb (fun c => IpVersion_eqb c.(version) v && (c.(bits) =? w)) cidrs.

(** The stable sort of the array by [network]. *)
Fixpoint insertByNetwork (c : NormalisedCidr) (sorted : list NormalisedCidr)
    : list NormalisedCidr :=
  match sorted with
  | [] => [c]
  | d :: rest =>
      if d.(network) <? c.(network) then d :: insertByNetwork c rest
      else c :: sorted
  end.

Definition sortByNetwork (cidrs : list NormalisedCidr) : list NormalisedCidr :=
  fold_right insertByNetwork [] cidrs.

(** One left-to-right pass of the inner [while]: the next array and the
    [changed] flag. *)
Fixpoint mergePass (current : list NormalisedCidr) : list NormalisedCidr * bool :=
  match current with
  | [] => ([], false)
  | a :: rest =>
      let keep := let '(next, changed) := mergePass rest in (a :: next, changed) in
      match rest with
      | b :: rest' =>
          match mergeSiblings a b with
          | Some merged => let '(next, _) := mergePass rest' in (merged :: next, true)
          | None => keep
          end
      | [] => keep
      end
  end.

(** [while (changed)]: a pass that changes the array shortens it, so
    [length current] further rounds are enough; [None] is fuel that ran
    out. *)
Fixpoint summarizeLoop (fuel : nat) (current : list NormalisedCidr)
    : option (list NormalisedCidr) :=
  match fuel with
  | O => None
  | S f =>
      let '(next, changed) := mergePass current in
      if changed then summarizeLoop f next else Some next
  end.

Definition summarizePrefixes (cidrs : list NormalisedCidr) : option (list NormalisedCidr) :=
  match cidrs with
  | [] => Some []
  | [c] => Some [c]
  | c0 :: _ =>
      if negb (sameFamily c0.(version) c0.(bits) cidrs) then None
      else
        let sorted := sortByNetwork cidrs in
        summarizeLoop (S (List.length sorted)) sorted
  end.

(** The loop over the inputs that tracks the least network and the greatest
    last address. *)
Definition minMaxStep (bits : Z) (acc : Z * Z) (cidr : NormalisedCidr) : Z * Z :=
  let '(minNet, maxNet) := acc in
  let minNet := if cidr.(network) <? minNet then cidr.(network) else minNet in
  let lastAddr := cidr.(network) + Z.shiftl 1 (bits - cidr.(prefix)) - 1 in
  let maxNet := if lastAddr >? maxNet then lastAddr else maxNet in
  (minNet, maxNet).

(** [for (let p = 0; p <= bits; p++)]: the first [p] at which the two
    addresses agree under the mask, and [bits] when there is none. *)
Fixpoint commonPrefixLoop (fuel : nat) (bits minNet maxNet p : Z) : option Z :=
  match fuel with
  | O => Some bits
  | S f =>
      if p <=? bits then
        mask <- maskFromPrefix p bits ;;
        if Z.land minNet mask =? Z.land maxNet mask then Some p
        else commonPrefixLoop f bits minNet maxNet (p + 1)
      else Some bits
  end.

Definition minimalCoveringSupernet (cidrs : list NormalisedCidr) : option NormalisedCidr :=
  match cidrs with
  | [] => None
  | [c] => Some c
  | c0 :: _ =>
      let version := c0.(version) in
      let bits := c0.(bits) in
      if negb (sameFamily version bits cidrs) then None
      else
        let '(minNet, maxNet) :=
          fold_left (minMaxStep bits) cidrs (c0.(network), c0.(network)) in
        prefix <- commonPrefixLoop (S (Z.to_nat bits)) bits minNet maxNet 0 ;;
        mask <- maskFromPrefix prefix bits ;;
        let network := Z.land minNet mask in
        Some (mkCidr version bits network prefix)
  end.

End Transformations.

(** ** set-operations.ts *)

Module SetOperations.
Import Js Parser.

(** The body of the [try] block of [containsIp]. *)
Definition containsIpTry (cidr : NormalisedCidr) (ip : string) : option bool :=
  ipInt <- parseAddress cidr.(version) ip ;;
  let mask := Z.shiftl 1 (cidr.(bits) - cidr.(prefix)) - 1 in
  let lastAddr := cidr.(network) + mask in
  Some ((ipInt >=? cidr.(network)) && (ipInt <=? lastAddr)).

Definition containsIp (cidr : NormalisedCidr) (ip : string) : bool :=
  match containsIpTry cidr ip with
  | Some r => r
  | None => false
  end.

Definition containsPrefix (a b : NormalisedCidr) : bool :=
  if negb (IpVersion_eqb a.(version) b.(version)) || negb (a.(bits) =? b.(bits)) then false
  else if a.(prefix) >? b.(prefix) then false
  else
    let aMask := Z.shiftl 1 (a.(bits) - a.(prefix)) - 1 in
    let aLast := a.(network) + aMask in
    let bMask := Z.shiftl 1 (b.(bits) - b.(prefix)) - 1 in
    let bLast := b.(network) + bMask in
    (b.(network) >=? a.(network)) && (bLast <=? aLast).

Inductive OverlapType : Type := IDENTICAL | A_CONTAINS_B | B_CONTAINS_A | PARTIAL.

Record Overlap : Type := mkOverlap {
  ov_a : NormalisedCidr;
  ov_b : NormalisedCidr;
  ov_type : OverlapType
}.

Record OverlapResult : Type := mkOverlapResult {
  hasOverlap : bool;
  overlaps : list Overlap
}.

(** The body of the inner loop for one pair: the entry it pushes, if any. *)
Definition comparePair (a b : NormalisedCidr) : list Overlap :=
  if negb (IpVersion_eqb a.(version) b.(version)) || negb (a.(bits) =? b.(bits)) then []
  else
    let aMask := Z.shiftl 1 (a.(bits) - a.(prefix)) - 1 in
    let aLast := a.(network) + aMask in
    let bMask := Z.shiftl 1 (b.(bits) - b.(prefix)) - 1 in
    let bLast := b.(network) + bMask in
    let hasOverlap := negb ((aLast <? b.(network)) || (bLast <? a.(network))) in
    if hasOverlap then
      let type :=
        if (a.(network) =? b.(network)) && (a.(prefix) =? b.(prefix)) then IDENTICAL
        else if containsPrefix a b then A_CONTAINS_B
        else if containsPrefix b a then B_CONTAINS_A
        else PARTIAL in
      [mkOverlap a b type]
    else [].

(** The two nested loops, [i] over the array and [j] over what follows. *)
Fixpoint allPairs (cidrs : list NormalisedCidr) : list Overlap :=
  match cidrs with
  | [] => []
  | a :: rest => (flat_map (comparePair a) rest ++ allPairs rest)%list
  end.

Definition detectOverlaps (cidrs : list NormalisedCidr) : OverlapResult :=
  let overlaps := allPairs cidrs in
  mkOverlapResult (Nat.ltb 0 (List.length overlaps)) overlaps.

Definition areAdjacent (a b : NormalisedCidr) : bool :=
  if negb (IpVersion_eqb a.(version) b.(version)) || negb (a.(bits) =? b.(bits)) then false
  else if negb (a.(prefix) =? b.(prefix)) then false
  else
    let size := Z.shiftl 1 (a.(bits) - a.(prefix)) in
    let aLast := a.(network) + size - 1 in
    let bLast := b.(network) + size - 1 in
    (aLast + 1 =? b.(network)) || (bLast + 1 =? a.(network)).

Definition intersectPrefixes (a b : NormalisedCidr) : option NormalisedCidr :=
  if negb (IpVersion_eqb a.(version) b.(version)) || negb (a.(bits) =? b.(bits)) then None
  else
    let aMask := Z.shiftl 1 (a.(bits) - a.(prefix)) - 1 in
    let aLast := a.(network) + aMask in
    let bMask := Z.shiftl 1 (b.(bits) - b.(prefix)) - 1 in
    let bLast := b.(network) + bMask in
    if (aLast <? b.(network)) || (bLast <? a.(network)) then None
    else
      let intStart := if a.(network) >? b.(network) then a.(network) else b.(network) in
      if containsPrefix a b then Some b
      else if containsPrefix b a then Some a
      else
        let longerPrefix := if a.(prefix) >? b.(prefix) then a.(prefix) else b.(prefix) in
        Some (mkCidr a.(version) a.(bits) intStart longerPrefix).

Definition canMerge (a b : NormalisedCidr) : bool :=
  if negb (IpVersion_eqb a.(version) b.(version)) || negb (a.(bits) =? b.(bits)) then false
  else if negb (a.(prefix) =? b.(prefix)) then false
  else if a.(prefix) =? 0 then false
  else
    let parentPrefix := a.(prefix) - 1 in
    let parentMask := Z.shiftl 1 (a.(bits) - parentPrefix) - 1 in
    let parentMaskBits := Z.land (Z.lnot parentMask) (Z.shiftl 1 a.(bits) - 1) in
    let aParent := Z.land a.(network) parentMaskBits in
    let bParent := Z.land b.(network) parentMaskBits in
    aParent =? bParent.

(** The key of [unionPrefixes]: [`${cidr.version}:${cidr.network}/${cidr.prefix}`]. *)
Definition unionKey (cidr : NormalisedCidr) : string :=
  (match cidr.(version) with V4 => "4" | V6 => "6" end)
  ++ ":" ++ toStringSigned cidr.(network) ++ "/" ++ toStringSigned cidr.(prefix).

(** [Map.prototype.set] on a map kept in insertion order: a key that is
    there keeps its place and takes the new value, a new key goes last. *)
Fixpoint mapSet (key : string) (value : NormalisedCidr)
    (entries : list (string * NormalisedCidr)) : list (string * NormalisedCidr) :=
  match entries with
  | [] => [(key, value)]
  | (k, v) :: rest =>
      if String.eqb k key then (k, value) :: rest
      else (k, v) :: mapSet key value rest
  end.

Definition unionPrefixes (a b : list NormalisedCidr) : list NormalisedCidr :=
  let combined := (a ++ b)%list in
  let unique :=
    fold_left (fun unique cidr => mapSet (unionKey cidr) cidr unique) combined [] in
  map snd unique.

Definition differencePrefixes (a b : NormalisedCidr) : list NormalisedCidr :=
  if negb (IpVersion_eqb a.(version) b.(version)) || negb (a.(bits) =? b.(bits)) then [a]
  else if containsPrefix b a then []
  else if negb (containsPrefix a b) then
    let aMask := Z.shiftl 1 (a.(bits) - a.(prefix)) - 1 in
    let aLast := a.(network) + aMask in
    let bMask := Z.shiftl 1 (b.(bits) - b.(prefix)) - 1 in
    let bLast := b.(network) + bMask in
    if (aLast <? b.(network)) || (bLast <? a.(network)) then [a]
    else [a]
  else [a].

End SetOperations.

(** ** vlsm.ts *)

Module Vlsm.
Import Js Parser Transformations SetOperations.

Definition Metadata : Type := list (string * string).

Record VlsmRequest : Type := mkRequest {
  name : string;
  requiredHosts : option Z;
  requiredPrefix : option Z;
  metadata : option Metadata
}.

Record VlsmAllocation : Type := mkAllocation {
  alloc_name : string;
  cidr : NormalisedCidr;
  alloc_metadata : option Metadata;
  allocated : bool
}.

Definition getSize (version : IpVersion) (req : VlsmRequest) : jsnum :=
  match req.(requiredPrefix) with
  | Some p => JInt p
  | None =>
      match req.(requiredHosts) with
      | Some hosts =>
          jsub (JInt (match version with V4 => 32 | V6 => 128 end))
               (hostBitsFor version hosts)
      | None => JInt 0
      end
  end.

(** A comparator result that is greater than zero: [NaN] counts as zero. *)
Definition positive (v : jsnum) : bool :=
  match v with
  | JInt z => z >? 0
  | JPosInf => true
  | JNegInf | JNaN => false
  end.

(** [Array.prototype.sort] is stable: an element is placed before the first
    element of the sorted rest that the comparator does not put before it.
    This is the order the language fixes for a consistent comparator, which
    a difference of integer sizes is.  For a comparator that is not
    consistent (a difference that is [NaN]) the language leaves the order to
    the engine, and the order below is one an engine may give, not the one
    every engine gives; the statements about the order are made for
    requests of integer size. *)
Fixpoint insertBy (cmp : VlsmRequest -> VlsmRequest -> jsnum) (r : VlsmRequest)
    (sorted : list VlsmRequest) : list VlsmRequest :=
  match sorted with
  | [] => [r]
  | s :: rest =>
      if positive (cmp r s) then s :: insertBy cmp r rest
      else r :: sorted
  end.

Definition sortBy (cmp : VlsmRequest -> VlsmRequest -> jsnum)
    (requests : list VlsmRequest) : list VlsmRequest :=
  fold_right (insertBy cmp) [] requests.

Definition sortRequestsByStrategy (requests : list VlsmRequest)
    (strategy : VlsmStrategy) (version : IpVersion) : list VlsmRequest :=
  let getSize := getSize version in
  match strategy with
  | LARGEST_FIRST => sortBy (fun a b => jsub (getSize a) (getSize b)) requests
  | SMALLEST_FIRST => sortBy (fun a b => jsub (getSize b) (getSize a)) requests
  | PACKED_LOW | PACKED_HIGH | BALANCED =>
      sortBy (fun a b => jsub (getSize a) (getSize b)) requests
  end.

(** [allocated.some(...)] for one candidate. *)
Definition conflicts (candidate : NormalisedCidr) (allocated : list NormalisedCidr) : bool :=
  existsb (fun alloc =>
             containsPrefix candidate alloc
             || containsPrefix alloc candidate
             || (candidate.(network) =? alloc.(network)))
          allocated.

(** The outer [option] is the throw, the inner one the [null] result. *)
Definition allocateOne (parent : NormalisedCidr) (request : VlsmRequest)
    (allocated : list NormalisedCidr) (version : IpVersion)
    : option (option NormalisedCidr) :=
  requiredPrefix <-
    match request.(requiredPrefix) with
    | Some p => Some (JInt p)
    | None =>
        match request.(requiredHosts) with
        | Some hosts => Some (jsub (JInt parent.(bits)) (hostBitsFor version hosts))
        | None => None
        end
    end ;;
  if jltInt requiredPrefix parent.(prefix) then Some None
  else
    let prefixDiff := jsub requiredPrefix (JInt parent.(prefix)) in
    let numCandidates := oneShl prefixDiff in
    candidates <- splitIntoN parent numCandidates ;;
    Some (find (fun candidate => negb (conflicts candidate allocated)) candidates).

(** The loop over the sorted requests, with the two arrays it pushes to. *)
Fixpoint allocateLoop (parent : NormalisedCidr) (sortedRequests : list VlsmRequest)
    (allocations : list VlsmAllocation) (allocated : list NormalisedCidr)
    : option (list VlsmAllocation) :=
  match sortedRequests with
  | [] => Some allocations
  | req :: rest =>
      allocation <- allocateOne parent req allocated parent.(version) ;;
      match allocation with
      | Some c =>
          allocateLoop parent rest
            (allocations ++ [mkAllocation req.(name) c req.(metadata) true])%list
            (allocated ++ [c])%list
      | None =>
          allocateLoop parent rest
            (allocations ++ [mkAllocation req.(name) parent req.(metadata) false])%list
            allocated
      end
  end.

Definition allocateVlsm (parent : NormalisedCidr) (requests : list VlsmRequest)
    (strategy : VlsmStrategy) (reserved : list NormalisedCidr)
    : option (list VlsmAllocation) :=
  if negb (forallb (containsPrefix parent) reserved) then None
  else
    let sortedRequests := sortRequestsByStrategy requests strategy parent.(version) in
    allocateLoop parent sortedRequests [] reserved.

Record VlsmPolicy : Type := mkPolicy {
  minPrefix : option Z;
  maxPrefix : option Z;
  allowedPrefixes : option (list Z);
  forbiddenRanges : option (list NormalisedCidr);
  requireAlignment : option bool
}.

(** [validateAllocationPolicy]: the [valid] flag and the error texts;
    [None] is the throw of the remainder by a size of zero. *)
Definition validateAllocationPolicy (allocation : NormalisedCidr) (policy : VlsmPolicy)
    : option (bool * list string) :=
  let errors : list string := [] in
  let errors :=
    match policy.(minPrefix) with
    | Some m =>
        if allocation.(prefix) <? m
        then push errors ("Prefix /" ++ toStringSigned allocation.(prefix)
                         ++ " is smaller than minimum /" ++ toStringSigned m)
        else errors
    | None => errors
    end in
  let errors :=
    match policy.(maxPrefix) with
    | Some m =>
        if allocation.(prefix) >? m
        then push errors ("Prefix /" ++ toStringSigned allocation.(prefix)
                         ++ " is larger than maximum /" ++ toStringSigned m)
        else errors
    | None => errors
    end in
  let errors :=
    match policy.(allowedPrefixes) with
    | Some allowed =>
        if negb (existsb (Z.eqb allocation.(prefix)) allowed)
        then push errors ("Prefix /" ++ toStringSigned allocation.(prefix)
                         ++ " is not in allowed list: "
                         ++ join ", " (map toStringSigned allowed))
        else errors
    | None => errors
    end in
  let errors :=
    match policy.(forbiddenRanges) with
    | Some forbidden =>
        if existsb (fun f => containsPrefix f allocation || containsPrefix allocation f)
             forbidden
        then push errors "Allocation overlaps with forbidden range"
        else errors
    | None => errors
    end in
  errors <-
    match policy.(requireAlignment) with
    | Some true =>
        let size := Z.shiftl 1 (allocation.(bits) - allocation.(prefix)) in
        if size =? 0 then None
        else if negb (Z.rem allocation.(network) size =? 0)
        then Some (push errors "Network address is not aligned to subnet size")
        else Some errors
    | _ => Some errors
    end ;;
  Some (Nat.eqb (List.length errors) 0, errors).

(** The result of [calculateUtilization]. [utilizationHundredths] is the
    [bigint] quotient [(allocatedSpace * 10000n) / totalSpace] the code
    computes; its [utilizationPercent] is that number as a double, divided
    by 100. *)
Record Utilization : Type := mkUtilization {
  totalSpace : Z;
  allocatedSpace : Z;
  freeSpace : Z;
  utilizationHundredths : Z;
  fragmentationScore : nat
}.

(** [None] is the throw of the division by a total of zero. *)
Definition calculateUtilization (parent : NormalisedCidr)
    (allocations : list VlsmAllocation) : option Utilization :=
  let totalSpace := Z.shiftl 1 (parent.(bits) - parent.(prefix)) in
  let allocatedSpace :=
    fold_left (fun allocatedSpace alloc =>
                 if alloc.(allocated)
                 then allocatedSpace
                      + Z.shiftl 1 (alloc.(cidr).(bits) - alloc.(cidr).(prefix))
                 else allocatedSpace)
      allocations 0 in
  let freeSpace := totalSpace - allocatedSpace in
  if totalSpace =? 0 then None
  else
    let hundredths := Z.quot (allocatedSpace * 10000) totalSpace in
    let fragmentationScore := List.length (filter allocated allocations) in
    Some (mkUtilization totalSpace allocatedSpace freeSpace hundredths fragmentationScore).

End Vlsm.

(** ** search.ts *)

Module Search.
Import SetOperations.

(** [for (let prefix = cidr.prefix - 1; prefix >= 0; prefix--)]: [count]
    rounds are left and [p] is the loop variable. *)
Fixpoint parentsLoop (count : nat) (cidr : NormalisedCidr) (p : Z)
    : list NormalisedCidr :=
  match count with
  | O => []
  | S c =>
      let mask := Z.shiftl 1 (cidr.(bits) - p) - 1 in
      let parentNetwork := Z.land cidr.(network) (Z.lnot mask) in
      mkCidr cidr.(version) cidr.(bits) parentNetwork p
      :: parentsLoop c cidr (p - 1)
  end.

Definition getParentPrefixes (cidr : NormalisedCidr) : list NormalisedCidr :=
  parentsLoop (Z.to_nat cidr.(prefix)) cidr (cidr.(prefix) - 1).

Definition getParent (cidr : NormalisedCidr) : option NormalisedCidr :=
  if cidr.(prefix) =? 0 then None
  else
    let p := cidr.(prefix) - 1 in
    let mask := Z.shiftl 1 (cidr.(bits) - p) - 1 in
    let parentNetwork := Z.land cidr.(network) (Z.lnot mask) in
    Some (mkCidr cidr.(version) cidr.(bits) parentNetwork p).

Definition getChildren (cidr : NormalisedCidr)
    : option (NormalisedCidr * NormalisedCidr) :=
  if cidr.(prefix) >=? cidr.(bits) then None
  else
    let childPrefix := cidr.(prefix) + 1 in
    let halfSize := Z.shiftl 1 (cidr.(bits) - childPrefix) in
    let l := mkCidr cidr.(version) cidr.(bits) cidr.(network) childPrefix in
    let r := mkCidr cidr.(version) cidr.(bits) (cidr.(network) + halfSize) childPrefix in
    Some (l, r).

Definition findDescendants (parent : NormalisedCidr) (candidates : list NormalisedCidr)
    : list NormalisedCidr :=
  filter (fun candidate =>
            (candidate.(prefix) >? parent.(prefix)) && containsPrefix parent candidate)
    candidates.

Definition findAncestors (child : NormalisedCidr) (candidates : list NormalisedCidr)
    : list NormalisedCidr :=
  filter (fun candidate =>
            (candidate.(prefix) <? child.(prefix)) && containsPrefix candidate child)
    candidates.

End Search.

(** ** The lookup of the service facade (service.ts) *)

Module Service.
Import SetOperations.

(** The loop of [longestPrefixMatch] with its two variables. *)
Definition matchStep (ip : string) (st : option NormalisedCidr * Z)
    (cidr : NormalisedCidr) : option NormalisedCidr * Z :=
  let '(bestMatch, bestPrefix) := st in
  if containsIp cidr ip && (cidr.(prefix) >? bestPrefix)
  then (Some cidr, cidr.(prefix))
  else (bestMatch, bestPrefix).

Definition longestPrefixMatch (ip : string) (cidrs : list NormalisedCidr)
    : option NormalisedCidr :=
  fst (fold_left (matchStep ip) cidrs (None, -1)).

End Service.

(** * Specification-side definitions *)

Import Js Parser Transformations SetOperations Vlsm.

(** The mask invariant of the data model:
    [network == network & mask(prefix, bits)]. *)
Definition canonical (c : NormalisedCidr) : Prop :=
  exists m, maskFromPrefix c.(prefix) c.(bits) = Some m /\ c.(network) = Z.land c.(network) m.

(** A block of [2 ^ (bits - prefix)] addresses that starts at a multiple of
    its size and lies below [2 ^ bits]. *)
Definition aligned (c : NormalisedCidr) : Prop :=
  0 <= c.(prefix) <= c.(bits)
  /\ 0 <= c.(network) < 2 ^ c.(bits)
  /\ (2 ^ (c.(bits) - c.(prefix)) | c.(network)).

(** The covering supernet as the specification words it: the least
    network and the greatest last address of the inputs, and the longest
    prefix length under whose mask the two agree. *)
Definition agreeUnder (bits minNet maxLast p : Z) : bool :=
  match maskFromPrefix p bits with
  | Some m => Z.land minNet m =? Z.land maxLast m
  | None => false
  end.

(** The lengths [count], [count - 1], ..., 1 are tried in turn, and 0 is
    left when none of them fits. *)
Fixpoint longestAgreeing (count : nat) (bits minNet maxLast : Z) : Z :=
  match count with
  | O => 0
  | S c =>
      if agreeUnder bits minNet maxLast (Z.of_nat count) then Z.of_nat count
      else longestAgreeing c bits minNet maxLast
  end.

Definition lastAddressOf (c : NormalisedCidr) : Z :=
  c.(network) + 2 ^ (c.(bits) - c.(prefix)) - 1.

Definition supernetBySpec (cidrs : list NormalisedCidr) : option NormalisedCidr :=
  match cidrs with
  | [] => None
  | c0 :: rest =>
      if negb (sameFamily c0.(version) c0.(bits) cidrs) then None
      else
        let minNetwork := fold_left Z.min (map network rest) c0.(network) in
        let maxLast := fold_left Z.max (map lastAddressOf rest) (lastAddressOf c0) in
        let p := longestAgreeing (Z.to_nat c0.(bits)) c0.(bits) minNetwork maxLast in
        mask <- maskFromPrefix p c0.(bits) ;;
        Some (mkCidr c0.(version) c0.(bits) (Z.land minNetwork mask) p)
  end.

(** The key of an allocation and of a request: what ties a result to the
    request it answers. *)
Definition allocationKey (a : VlsmAllocation) : string * option Metadata :=
  (a.(alloc_name), a.(alloc_metadata)).

Definition requestKey (r : VlsmRequest) : string * option Metadata :=
  (r.(name), r.(metadata)).

(** The required prefix length of a request whose size is an integer. *)
Definition sizeOf (v : IpVersion) (r : VlsmRequest) : Z :=
  match getSize v r with
  | JInt z => z
  | _ => 0
  end.

Definition integerSize (v : IpVersion) (r : VlsmRequest) : Prop :=
  exists z, getSize v r = JInt z.

(** A request whose size does not depend on how a logarithm is rounded:
    a prefix length, or a host count from 1 to [2 ^ 32 - 2]. *)
Definition plainSize (r : VlsmRequest) : Prop :=
  match r.(requiredPrefix), r.(requiredHosts) with
  | Some _, _ => True
  | None, Some hosts => 0 < hosts <= 2 ^ 32 - 2
  | None, None => True
  end.

(** The order in which a strategy serves two sizes: the shorter prefix
    first, except under [SMALLEST_FIRST]. *)
Definition servedBefore (strategy : VlsmStrategy) (x y : Z) : Prop :=
  match strategy with
  | SMALLEST_FIRST => x >= y
  | _ => x <= y
  end.

(** [served] is the stable sort of [requests] by size: the same requests,
    in the order of their sizes, and those of one size in the order in
    which [requests] lists them. *)
Definition stableSortOf (v : IpVersion) (strategy : VlsmStrategy)
    (requests served : list VlsmRequest) : Prop :=
  Permutation served requests
  /\ Sorted (fun a b => servedBefore strategy (sizeOf v a) (sizeOf v b)) served
  /\ forall size, filter (fun r => sizeOf v r =? size) served
                  = filter (fun r => sizeOf v r =? size) requests.

(** The cidrs of the allocations marked [allocated: true]. *)
Definition allocatedCidrs (allocations : list VlsmAllocation) : list NormalisedCidr :=
  map cidr (filter allocated allocations).

(** What [splitIntoN] makes of an aligned block: aligned blocks of the same
    family inside it. *)
Definition subBlockOf (parent c : NormalisedCidr) : Prop :=
  aligned c /\ c.(version) = parent.(version) /\ c.(bits) = parent.(bits).

(** Two blocks neither of which contains the other. *)
Definition apart (x y : NormalisedCidr) : Prop :=
  containsPrefix x y = false /\ containsPrefix y x = false.

(** What the loop of [allocateVlsm] keeps true of its two arrays. *)
Definition placedApart (parent : NormalisedCidr) (allocations : list VlsmAllocation)
    (allocated : list NormalisedCidr) : Prop :=
  Forall (subBlockOf parent) (allocatedCidrs allocations)
  /\ incl (allocatedCidrs allocations) allocated
  /\ ForallOrdPairs apart (allocatedCidrs allocations).

(** A text field of the metadata shows the address [x]. *)
Definition shows (v : IpVersion) (field : option string) (x : Z) : Prop :=
  exists s, formatAddress v x = Some s /\ field = Some s.

(** ** Zero runs of an IPv6 address *)

(** The hextet of [n] at position [i], counted from the left. *)
Definition hextetAt (n : Z) (i : nat) : Z :=
  Z.land (Z.shiftr n (16 * (7 - Z.of_nat i))) 0xffff.

Definition hextets (n : Z) : list Z := map (hextetAt n) (seq 0 8).

(** The hextet at position [i] exists and is zero. *)
Definition zeroAt (hs : list Z) (i : nat) : Prop := nth i hs 1 = 0.

(** A run of [len] consecutive zero hextets from position [s] that cannot
    be extended on either side. *)
Definition zeroRun (hs : list Z) (s len : nat) : Prop :=
  (1 <= len)%nat
  /\ (s + len <= 8)%nat
  /\ (forall i, (s <= i < s + len)%nat -> zeroAt hs i)
  /\ (s = O \/ ~ zeroAt hs (s - 1))
  /\ ~ zeroAt hs (s + len).

(** The run the specification compresses: two or more hextets long, no run
    is longer, and no run of the same length starts further left. *)
Definition leftmostLongest (hs : list Z) (s len : nat) : Prop :=
  zeroRun hs s len
  /\ (2 <= len)%nat
  /\ forall s' len', zeroRun hs s' len' ->
       (len' <= len)%nat /\ (len' = len -> (s <= s')%nat).

(** No run is two or more hextets long. *)
Definition noLongRun (hs : list Z) : Prop :=
  forall s len, zeroRun hs s len -> len = 1%nat.

(** The number of places at which the text has two colons in a row. *)
Fixpoint countDoubleColon (s : string) : nat :=
  match s with
  | String c r =>
      match r with
      | String d _ =>
          ((if Ascii.eqb c ":" && Ascii.eqb d ":" then 1 else 0)
           + countDoubleColon r)%nat
      | EmptyString => O
      end
  | EmptyString => O
  end.

(** Boolean versions of the run predicates, for lists of eight hextets. *)
Definition zeroAtb (hs : list Z) (i : nat) : bool := nth i hs 1 =? 0.

Definition zeroRunb (hs : list Z) (s len : nat) : bool :=
  Nat.leb 1 len
  && Nat.leb (s + len) 8
  && forallb (zeroAtb hs) (seq s len)
  && (Nat.eqb s 0 || negb (zeroAtb hs (s - 1)))
  && negb (zeroAtb hs (s + len)).

Definition leftmostLongestb (hs : list Z) (s len : nat) : bool :=
  zeroRunb hs s len
  && Nat.leb 2 len
  && forallb (fun s' =>
       forallb (fun len' =>
         implb (zeroRunb hs s' len')
               (Nat.leb len' len && implb (Nat.eqb len' len) (Nat.leb s s')))
         (seq 0 9))
       (seq 0 9).

Definition noLongRunb (hs : list Z) : bool :=
  forallb (fun s =>
    forallb (fun len => implb (zeroRunb hs s len) (Nat.eqb len 1)) (seq 0 9))
    (seq 0 9).

(** What the scan of [bigIntToIpv6] has to find. *)
Definition scanFindsRun (hs : list Z) : bool :=
  let '(bestStart, bestLen) := scanRuns 8 hs 0 (-1) 0 in
  if bestStart =? -1 then noLongRunb hs
  else (0 <=? bestStart) && (0 <=? bestLen)
       && leftmostLongestb hs (Z.to_nat bestStart) (Z.to_nat bestLen).

(** A hextet as the scan sees it: zero or not. *)
Definition zeroOrOne (h : Z) : Z := if h =? 0 then 0 else 1.

Definition startsColon (s : string) : bool :=
  match s with
  | String c _ => Ascii.eqb c ":"
  | EmptyString => false
  end.

Definition notColon (c : ascii) : bool := negb (Ascii.eqb c ":").

(** What the loop of [rangeToMinimalPrefixes] keeps true of its state. *)
Definition rangeInv (b endInt : Z) (st : Z * list NormalisedCidr) : Prop :=
  0 <= fst st <= endInt + 1 /\ Forall aligned (snd st).

(** ** Checks by enumeration *)

(** [f] holds of [z], [z + 1], ..., [z + count - 1]. *)
Fixpoint allFrom (f : Z -> bool) (count : nat) (z : Z) : bool :=
  match count with
  | O => true
  | S k => f z && allFrom f k (z + 1)
  end.

(** [f] holds of 0, 1, ..., [n - 1]. *)
Definition allBelow (f : Z -> bool) (n : nat) : bool := allFrom f n 0.

(** The value [1 << k] has for a count [k] below 32. *)
Definition oneShlTable (k : Z) : bool :=
  shl32 1 k =? (if k =? 31 then - 2 ^ 31 else 2 ^ k).

(** The power-of-two test of [splitIntoN] passes on [2 ^ k]. *)
Definition powerOfTwoPasses (k : Z) : bool := and32 (2 ^ k) (2 ^ k - 1) =? 0.

(** What the loop of [longestPrefixMatch] keeps true of its two variables
    after the prefixes [seen]. *)
Definition bestSoFar (ip : string) (seen : list NormalisedCidr)
    (st : option NormalisedCidr * Z) : Prop :=
  match fst st with
  | Some best =>
      snd st = best.(prefix) /\ In best seen /\ containsIp best ip = true
      /\ forall c, In c seen -> containsIp c ip = true -> c.(prefix) <= best.(prefix)
  | None =>
      snd st = -1 /\ forall c, In c seen -> containsIp c ip = false
  end.

(** The block number [i] among the candidates of [k] more bits. *)
Definition candidateAt (parent : NormalisedCidr) (k i : Z) : NormalisedCidr :=
  mkCidr parent.(version) parent.(bits)
    (parent.(network) + i * 2 ^ (parent.(bits) - (parent.(prefix) + k)))
    (parent.(prefix) + k).

(** What [allocateVlsm] says of one entry of its result: a block marked
    allocated lies in the parent and is apart from every reserved block, and
    an entry that is not marked carries the parent itself. *)
Definition placedIn (parent : NormalisedCidr) (reserved : list NormalisedCidr)
    (a : VlsmAllocation) : Prop :=
  if a.(allocated)
  then containsPrefix parent a.(cidr) = true
       /\ Forall (fun r => apart r a.(cidr)) reserved
  else a.(cidr) = parent.

(** Half-open intervals of integers and the sum of their lengths. *)
Definition totalLength (l : list (Z * Z)) : Z :=
  fold_right (fun I acc => (snd I - fst I) + acc) 0 l.

Definition intervalOf (c : NormalisedCidr) : Z * Z :=
  (c.(network), c.(network) + 2 ^ (c.(bits) - c.(prefix))).

(** What the loop of [unionPrefixes] keeps true of its map after the
    prefixes [seen]: every entry is filed under the key of its value, the
    value is one of the prefixes seen, no key occurs twice, and the key of
    every prefix seen is there. *)
Definition unionInv (seen : list NormalisedCidr)
    (entries : list (string * NormalisedCidr)) : Prop :=
  Forall (fun e => fst e = unionKey (snd e) /\ In (snd e) seen) entries
  /\ NoDup (map fst entries)
  /\ (forall c, In c seen -> In (unionKey c) (map fst entries))
  /\ (List.length entries <= List.length seen)%nat.

(** One list of prefixes summarises another: it is no longer, it has as
    many addresses in all, and every prefix of the other list is inside one
    of its prefixes. *)
Definition summarises (input output : list NormalisedCidr) : Prop :=
  (List.length output <= List.length input)%nat
  /\ totalLength (map intervalOf output) = totalLength (map intervalOf input)
  /\ forall x, In x input -> exists y, In y output /\ containsPrefix y x = true.

(** Ascending order of the networks. *)
Definition byNetwork (l : list NormalisedCidr) : Prop :=
  StronglySorted (fun a b => a.(network) <= b.(network)) l.

(** Every network of [output] is at or above a network of [input]. *)
Definition fromBelow (input output : list NormalisedCidr) : Prop :=
  forall y, In y output -> exists x, In x input /\ x.(network) <= y.(network).

Definition familyOf (v : IpVersion) (w : Z) (c : NormalisedCidr) : Prop :=
  c.(version) = v /\ c.(bits) = w.

(** The blocks follow one another without a gap from the address [from]:
    the result is the address after the last block. *)
Fixpoint tilesFrom (from : Z) (blocks : list NormalisedCidr) : option Z :=
  match blocks with
  | [] => Some from
  | c :: rest =>
      if c.(network) =? from
      then tilesFrom (from + 2 ^ (c.(bits) - c.(prefix))) rest
      else None
  end.

(** What the loop of [rangeToMinimalPrefixes] keeps true of the blocks it
    has emitted. *)
(** The block is the largest one at its network that ends at or before
    [endInt]: the block of twice its size either does not start at a
    multiple of its size or ends after [endInt]. *)
Definition largestFit (endInt : Z) (c : NormalisedCidr) : Prop :=
  c.(prefix) = 0
  \/ ~ ((2 ^ (c.(bits) - c.(prefix) + 1) | c.(network))
        /\ c.(network) + 2 ^ (c.(bits) - c.(prefix) + 1) - 1 <= endInt).

Definition tilingInv (v : IpVersion) (b startInt endInt : Z)
    (st : Z * list NormalisedCidr) : Prop :=
  0 <= fst st <= endInt + 1
  /\ Forall aligned (snd st)
  /\ Forall (familyOf v b) (snd st)
  /\ Forall (largestFit endInt) (snd st)
  /\ tilesFrom startInt (snd st) = Some (fst st).

Definition tiling (v : IpVersion) (b startInt endInt : Z)
    (result : list NormalisedCidr) : Prop :=
  Forall aligned result
  /\ Forall (familyOf v b) result
  /\ Forall (largestFit endInt) result
  /\ tilesFrom startInt result = Some (endInt + 1).

(** The decimal text of [v] reads back as [v]. *)
Definition decimalRoundTrip (v : Z) : bool :=
  isDigits (toString10 v) && (Number (toString10 v) =? v).

(** The digits [toString(16)] writes. *)
Definition isLowerHex (c : ascii) : bool :=
  isDigit c || ((97 <=? code c) && (code c <=? 102)).

(** A hexadecimal digit value is written as a digit that reads back as the
    value. *)
Definition hexDigitRoundTrip (d : Z) : bool :=
  isLowerHex (digitChar d) && (hexDigitValue (digitChar d) =? d).

(** The characters of the text [bigIntToIpv6] writes, and of the text
    [bigIntToIpv4] writes. *)
Definition isV6Char (c : ascii) : bool := isLowerHex c || Ascii.eqb c ":".

Definition isV4Char (c : ascii) : bool := isDigit c || Ascii.eqb c ".".

Definition notSpace (c : ascii) : bool := negb (isSpace c).

Definition isNot (x c : ascii) : bool := negb (Ascii.eqb c x).

(** The number eight hextets stand for. *)
Definition hextetsValue (hs : list Z) : Z :=
  fold_left (fun acc h => acc * 65536 + h) hs 0.

Definition isHextetValue (h : Z) : Prop := 0 <= h < 65536.

(** The special IPv4 ranges, as ranges of numbers. *)
Definition specialIpv4 (ip : Z) : Prop :=
  ip = 0
  \/ 0x7f000000 <= ip <= 0x7fffffff
  \/ 0xe0000000 <= ip <= 0xffffffff
  \/ 0x0a000000 <= ip <= 0x0affffff
  \/ 0xac100000 <= ip <= 0xac1fffff
  \/ 0xc0a80000 <= ip <= 0xc0a8ffff
  \/ 0xa9fe0000 <= ip <= 0xa9feffff
  \/ 0xc0000200 <= ip <= 0xc00002ff
  \/ 0xc6336400 <= ip <= 0xc63364ff
  \/ 0xcb007100 <= ip <= 0xcb0071ff.

(** ** Sample inputs *)

Definition net_10_0_0_0_8 : NormalisedCidr := mkCidr V4 32 167772160 8.
Definition net_10_1_0_0_16 : NormalisedCidr := mkCidr V4 32 167837696 16.
Definition net_10_0_0_0_16 : NormalisedCidr := mkCidr V4 32 167772160 16.
Definition net_192_168_0_0_24 : NormalisedCidr := mkCidr V4 32 3232235520 24.
Definition host_192_168_1_1_32 : NormalisedCidr := mkCidr V4 32 3232235777 32.

(** A /26 request listed before a /25 request. *)
Definition sampleRequests : list VlsmRequest :=
  [mkRequest "small" None (Some 26) None; mkRequest "big" None (Some 25) None].

Definition sampleAllocations : list VlsmAllocation :=
  Eval vm_compute in
    match allocateVlsm net_192_168_0_0_24 sampleRequests LARGEST_FIRST [] with
    | Some allocations => allocations
    | None => []
    end.

(** Two /26 requests around a request for 100 hosts, which takes a /25. *)
Definition tiedRequests : list VlsmRequest :=
  [mkRequest "first" None (Some 26) None;
   mkRequest "big" (Some 100) None None;
   mkRequest "second" None (Some 26) None].

Definition tiedAllocations : list VlsmAllocation :=
  Eval vm_compute in
    match allocateVlsm net_192_168_0_0_24 tiedRequests LARGEST_FIRST [] with
    | Some allocations => allocations
    | None => []
    end.

(** * Bit arithmetic *)

Lemma shiftl_1 (k : Z) : Z.shiftl 1 k = 2 ^ k.
Proof. apply Z.shiftl_1_l. Qed.

Lemma assertIntegerInRange_true (n lo hi : Z) :
  assertIntegerInRange n lo hi = true <-> lo <= n <= hi.
Proof. unfold assertIntegerInRange. lia. Qed.

Lemma maskFromPrefix_Some (p b m : Z) :
  maskFromPrefix p b = Some m -> 0 <= p <= b.
Proof.
  unfold maskFromPrefix.
  destruct (assertIntegerInRange p 0 b) eqn:E; [|discriminate].
  intros _. now apply assertIntegerInRange_true.
Qed.

Lemma maskFromPrefix_value (p b : Z) :
  0 <= p <= b -> maskFromPrefix p b = Some (2 ^ b - 2 ^ (b - p)).
Proof.
  intros H. unfold maskFromPrefix.
  replace (assertIntegerInRange p 0 b) with true
    by (symmetry; now apply assertIntegerInRange_true).
  cbn [negb].
  destruct (Z.eqb_spec p 0) as [->|Hp].
  - now rewrite Z.sub_0_r, Z.sub_diag.
  - destruct (Z.eqb_spec p b) as [->|Hb].
    + now rewrite shiftl_1, Z.sub_diag.
    + rewrite shiftl_1, Z.shiftl_mul_pow2 by lia.
      rewrite Z.mul_sub_distr_r, <- Z.pow_add_r by lia.
      f_equal. f_equal; [f_equal; lia | lia].
Qed.

Lemma mask_as_shifted_ones (p b : Z) :
  0 <= p <= b -> 2 ^ b - 2 ^ (b - p) = Z.shiftl (Z.ones p) (b - p).
Proof.
  intros H. rewrite Z.ones_equiv, Z.shiftl_mul_pow2 by lia.
  unfold Z.pred. rewrite Z.mul_add_distr_r, <- Z.pow_add_r by lia.
  replace (p + (b - p)) with b by lia. lia.
Qed.

Lemma land_shifted_ones (n k s : Z) :
  0 <= k -> 0 <= s ->
  Z.land n (Z.shiftl (Z.ones k) s) = (Z.shiftr n s mod 2 ^ k) * 2 ^ s.
Proof.
  intros Hk Hs.
  rewrite <- Z.land_ones, <- Z.shiftl_mul_pow2, Z.shiftl_land by lia.
  apply Z.bits_inj'. intros i Hi.
  rewrite !Z.land_spec.
  destruct (Z.ltb_spec i s).
  - rewrite (Z.shiftl_spec_low (Z.ones k)) by lia. now rewrite !andb_false_r.
  - rewrite (Z.shiftl_spec (Z.shiftr n s)), Z.shiftr_spec by lia.
    now replace (i - s + s) with i by lia.
Qed.

Lemma land_mask_fixed (n p b : Z) :
  0 <= p <= b ->
  (n = Z.land n (2 ^ b - 2 ^ (b - p))
   <-> 0 <= n < 2 ^ b /\ (2 ^ (b - p) | n)).
Proof.
  intros H.
  rewrite mask_as_shifted_ones, land_shifted_ones by lia.
  assert (Hs : 0 < 2 ^ (b - p)) by (apply Z.pow_pos_nonneg; lia).
  assert (Hk : 0 < 2 ^ p) by (apply Z.pow_pos_nonneg; lia).
  assert (Hb : 2 ^ b = 2 ^ p * 2 ^ (b - p))
    by (rewrite <- Z.pow_add_r by lia; f_equal; lia).
  split.
  - intros E.
    pose proof (Z.mod_pos_bound (Z.shiftr n (b - p)) (2 ^ p) Hk) as Hm.
    split; [|exists (Z.shiftr n (b - p) mod 2 ^ p); exact E].
    rewrite E, Hb. nia.
  - intros [Hr [q Hq]].
    rewrite Z.shiftr_div_pow2 by lia.
    subst n. rewrite Z.div_mul by lia.
    rewrite Z.mod_small; [reflexivity|]. nia.
Qed.

Lemma canonical_aligned (c : NormalisedCidr) : canonical c <-> aligned c.
Proof.
  unfold canonical, aligned. split.
  - intros [m [Hm E]].
    pose proof (maskFromPrefix_Some _ _ _ Hm) as Hp.
    rewrite maskFromPrefix_value in Hm by exact Hp.
    injection Hm as <-.
    apply land_mask_fixed in E; [tauto | exact Hp].
  - intros [Hp [Hr Hd]].
    exists (2 ^ bits c - 2 ^ (bits c - prefix c)). split.
    + now apply maskFromPrefix_value.
    + apply land_mask_fixed; tauto.
Qed.

(** Masking an address with a mask makes it canonical. *)
Lemma canonical_land (v : IpVersion) (b ip p m : Z) :
  maskFromPrefix p b = Some m -> canonical (mkCidr v b (Z.land ip m) p).
Proof.
  intros Hm. exists m. cbn. split; [exact Hm|].
  now rewrite <- Z.land_assoc, Z.land_diag.
Qed.

(** * Blocks of addresses *)

Lemma IpVersion_eqb_eq (v w : IpVersion) : IpVersion_eqb v w = true <-> v = w.
Proof. destruct v, w; cbn; split; congruence. Qed.

Lemma family_test (a b : NormalisedCidr) :
  negb (IpVersion_eqb a.(version) b.(version)) || negb (a.(bits) =? b.(bits)) = false
  <-> a.(version) = b.(version) /\ a.(bits) = b.(bits).
Proof.
  rewrite orb_false_iff, !negb_false_iff, IpVersion_eqb_eq, Z.eqb_eq. tauto.
Qed.

Lemma containsPrefix_true (a b : NormalisedCidr) :
  containsPrefix a b = true
  <-> a.(version) = b.(version) /\ a.(bits) = b.(bits)
      /\ a.(prefix) <= b.(prefix)
      /\ a.(network) <= b.(network)
      /\ b.(network) + 2 ^ (b.(bits) - b.(prefix))
         <= a.(network) + 2 ^ (a.(bits) - a.(prefix)).
Proof.
  unfold containsPrefix. rewrite !shiftl_1.
  destruct (negb (IpVersion_eqb _ _) || negb (_ =? _)) eqn:F.
  - split; [discriminate|]. intros (Hv & Hb & _).
    assert (F' : negb (IpVersion_eqb (version a) (version b))
                 || negb (bits a =? bits b) = false)
      by (apply family_test; tauto).
    congruence.
  - apply family_test in F. destruct F as [Hv Hb].
    destruct (Z.gtb_spec (prefix a) (prefix b)).
    + split; [discriminate|lia].
    + rewrite andb_true_iff. split.
      * intros [H1 H2]. repeat split; try assumption; lia.
      * intros (_ & _ & _ & H1 & H2). split; lia.
Qed.

(** Two blocks whose sizes are powers of two and that start at multiples of
    their sizes are nested as soon as they meet. *)
Lemma block_nesting (m t qa qb : Z) :
  0 < m -> 0 < t ->
  qa * t * m <= qb * m + m - 1 ->
  qb * m <= qa * t * m + t * m - 1 ->
  qa * t * m <= qb * m /\ qb * m + m <= qa * t * m + t * m.
Proof.
  intros Hm Ht H1 H2.
  assert (qa * t < qb + 1) by nia.
  assert (qb < qa * t + t) by nia.
  nia.
Qed.

Lemma aligned_overlap_contains (a b : NormalisedCidr) :
  aligned a -> aligned b ->
  a.(version) = b.(version) -> a.(bits) = b.(bits) ->
  a.(prefix) <= b.(prefix) ->
  a.(network) <= b.(network) + 2 ^ (b.(bits) - b.(prefix)) - 1 ->
  b.(network) <= a.(network) + 2 ^ (a.(bits) - a.(prefix)) - 1 ->
  containsPrefix a b = true.
Proof.
  intros (Hpa & Hra & [qa Ha]) (Hpb & Hrb & [qb Hb]) Hv Hw Hp H1 H2.
  apply containsPrefix_true.
  rewrite Hw in *.
  set (sb := bits b - prefix b) in *.
  assert (Hsa : 2 ^ (bits b - prefix a) = 2 ^ (prefix b - prefix a) * 2 ^ sb).
  { rewrite <- Z.pow_add_r by (unfold sb; lia). f_equal. unfold sb. lia. }
  assert (Hm : 0 < 2 ^ sb) by (apply Z.pow_pos_nonneg; unfold sb; lia).
  assert (Ht : 0 < 2 ^ (prefix b - prefix a)) by (apply Z.pow_pos_nonneg; lia).
  rewrite Hsa in *. rewrite Ha, Hb in *.
  destruct (block_nesting (2 ^ sb) (2 ^ (prefix b - prefix a)) qa qb Hm Ht) as [G1 G2];
    [lia | lia |].
  repeat split; try assumption; lia.
Qed.

(** * Overlap detection *)

Lemma comparePair_type (a b : NormalisedCidr) (o : Overlap) :
  aligned a -> aligned b -> In o (comparePair a b) ->
  o.(ov_type) = IDENTICAL \/ o.(ov_type) = A_CONTAINS_B \/ o.(ov_type) = B_CONTAINS_A.
Proof.
  intros Ha Hb. unfold comparePair. rewrite !shiftl_1.
  destruct (negb (IpVersion_eqb _ _) || negb (_ =? _)) eqn:F; [intros []|].
  apply family_test in F. destruct F as [Hv Hw].
  destruct (negb _) eqn:Ov; [|intros []].
  apply negb_true_iff, orb_false_iff in Ov. destruct Ov as [O1 O2].
  apply Z.ltb_ge in O1, O2.
  intros [<-|[]]. cbn [ov_type].
  destruct (_ && _); [now left|].
  destruct (containsPrefix a b) eqn:Cab; [now right; left|].
  destruct (containsPrefix b a) eqn:Cba; [now right; right|].
  exfalso.
  destruct (Z.le_gt_cases (prefix a) (prefix b)).
  - rewrite aligned_overlap_contains in Cab; try assumption; [discriminate|lia|lia].
  - rewrite aligned_overlap_contains in Cba; try assumption;
      [discriminate|congruence|congruence|lia|lia|lia].
Qed.

Lemma allPairs_In (cidrs : list NormalisedCidr) (o : Overlap) :
  In o (allPairs cidrs) ->
  exists a b, In a cidrs /\ In b cidrs /\ In o (comparePair a b).
Proof.
  induction cidrs as [|a rest IH]; cbn; [intros []|].
  rewrite in_app_iff, in_flat_map. intros [[b [Hb Ho]]|H].
  - exists a, b. auto.
  - destruct (IH H) as (x & y & Hx & Hy & Ho). exists x, y. auto.
Qed.

(** C9. Among prefixes that satisfy the mask invariant, [detectOverlaps]
    classifies every overlapping pair as [IDENTICAL], [A_CONTAINS_B] or
    [B_CONTAINS_A]: the [PARTIAL] branch is never taken. *)
Theorem detectOverlaps_never_partial (cidrs : list NormalisedCidr) :
  Forall canonical cidrs ->
  forall o, In o (detectOverlaps cidrs).(overlaps) ->
    o.(ov_type) <> PARTIAL
    /\ (o.(ov_type) = IDENTICAL \/ o.(ov_type) = A_CONTAINS_B
        \/ o.(ov_type) = B_CONTAINS_A).
Proof.
  intros Hc o Ho. cbn in Ho.
  destruct (allPairs_In _ _ Ho) as (a & b & Ha & Hb & Hab).
  rewrite Forall_forall in Hc.
  assert (H : ov_type o = IDENTICAL \/ ov_type o = A_CONTAINS_B
              \/ ov_type o = B_CONTAINS_A).
  { apply (comparePair_type a b); [apply canonical_aligned| apply canonical_aligned|]; auto. }
  split; [|exact H].
  destruct H as [H|[H|H]]; rewrite H; discriminate.
Qed.

(** * Split and merge *)

Lemma IpVersion_eqb_refl (v : IpVersion) : IpVersion_eqb v v = true.
Proof. now destruct v. Qed.

(** The mask of a block sends every address of the block to its start. *)
Lemma land_mask_block (n h p b : Z) :
  0 <= p <= b -> 0 <= n < 2 ^ b -> (2 ^ (b - p) | n) -> 0 <= h < 2 ^ (b - p) ->
  Z.land (n + h) (2 ^ b - 2 ^ (b - p)) = n.
Proof.
  intros Hp Hn [q Hq] Hh.
  rewrite mask_as_shifted_ones, land_shifted_ones by lia.
  assert (Hs : 0 < 2 ^ (b - p)) by (apply Z.pow_pos_nonneg; lia).
  assert (Hb : 2 ^ b = 2 ^ p * 2 ^ (b - p))
    by (rewrite <- Z.pow_add_r by lia; f_equal; lia).
  rewrite Z.shiftr_div_pow2 by lia.
  subst n. rewrite Z.div_add_l by lia.
  rewrite (Z.div_small h) by lia. rewrite Z.add_0_r.
  rewrite Z.mod_small; [reflexivity|]. nia.
Qed.

Lemma splitBinary_Some (c : NormalisedCidr) :
  c.(prefix) < c.(bits) ->
  splitBinary c =
    Some (mkCidr c.(version) c.(bits) c.(network) (c.(prefix) + 1),
          mkCidr c.(version) c.(bits)
            (c.(network) + 2 ^ (c.(bits) - (c.(prefix) + 1))) (c.(prefix) + 1)).
Proof.
  intros H. unfold splitBinary.
  destruct (Z.geb_spec (prefix c) (bits c)); [lia|].
  now rewrite shiftl_1.
Qed.

Lemma splitBinary_None (c : NormalisedCidr) :
  c.(prefix) >= c.(bits) -> splitBinary c = None.
Proof.
  intros H. unfold splitBinary.
  destruct (Z.geb_spec (prefix c) (bits c)); [reflexivity|lia].
Qed.

Lemma mergeSiblings_of_split (v : IpVersion) (b n p : Z) :
  aligned (mkCidr v b n p) -> p < b ->
  mergeSiblings (mkCidr v b n (p + 1)) (mkCidr v b (n + 2 ^ (b - (p + 1))) (p + 1))
  = Some (mkCidr v b n p).
Proof.
  intros (Hp & Hn & Hd) Hlt. cbn in Hp, Hn, Hd.
  assert (Hhalf : 0 < 2 ^ (b - (p + 1))) by (apply Z.pow_pos_nonneg; lia).
  assert (Hfull : 2 ^ (b - p) = 2 * 2 ^ (b - (p + 1))).
  { replace (b - p) with (Z.succ (b - (p + 1))) by lia. apply Z.pow_succ_r. lia. }
  unfold mergeSiblings. cbn [version bits prefix network].
  rewrite IpVersion_eqb_refl, !Z.eqb_refl. cbn [negb orb].
  destruct (Z.eqb_spec (p + 1) 0); [lia|].
  replace (p + 1 - 1) with p by lia.
  rewrite maskFromPrefix_value by lia.
  rewrite (land_mask_block n (2 ^ (b - (p + 1))) p b) by (try assumption; lia).
  replace (Z.land n (2 ^ b - 2 ^ (b - p))) with n
    by (rewrite <- (Z.add_0_r n) at 2; symmetry; apply land_mask_block;
        try assumption; lia).
  rewrite Z.eqb_refl. cbn [negb].
  rewrite splitBinary_Some by (cbn; lia).
  cbn [version bits prefix network].
  now rewrite !Z.eqb_refl.
Qed.

(** C5. Merging the two halves [splitBinary] returns for a prefix that is
    not maximal gives the prefix back, and [splitBinary] fails on a maximal
    prefix. *)
Theorem mergeSiblings_splitBinary (c : NormalisedCidr) :
  (canonical c -> c.(prefix) < c.(bits) ->
   exists l r, splitBinary c = Some (l, r) /\ mergeSiblings l r = Some c)
  /\ (c.(prefix) >= c.(bits) -> splitBinary c = None).
Proof.
  split; [|apply splitBinary_None].
  intros Hc Hlt. apply canonical_aligned in Hc.
  rewrite splitBinary_Some by assumption.
  eexists _, _. split; [reflexivity|].
  destruct c as [v b n p]. now apply mergeSiblings_of_split.
Qed.

(** * Covering supernet *)

(** The search of [minimalCoveringSupernet] starts at length 0, under whose
    mask any two addresses agree: with two or more inputs of one family the
    result is always the whole address space. *)
Lemma minimalCoveringSupernet_whole_space (c0 c1 : NormalisedCidr)
    (rest : list NormalisedCidr) :
  0 <= c0.(bits) ->
  sameFamily c0.(version) c0.(bits) (c0 :: c1 :: rest) = true ->
  minimalCoveringSupernet (c0 :: c1 :: rest)
  = Some (mkCidr c0.(version) c0.(bits) 0 0).
Proof.
  intros Hb Hf. unfold minimalCoveringSupernet. rewrite Hf. cbn [negb].
  destruct (fold_left _ _ _) as [minNet maxNet].
  cbn [commonPrefixLoop].
  destruct (Z.leb_spec 0 (bits c0)); [|lia].
  rewrite maskFromPrefix_value by lia.
  rewrite Z.sub_0_r, Z.sub_diag, !Z.land_0_r. cbn.
  rewrite maskFromPrefix_value by lia.
  now rewrite Z.sub_0_r, Z.sub_diag, Z.land_0_r.
Qed.

Lemma minimalCoveringSupernet_empty : minimalCoveringSupernet [] = None.
Proof. reflexivity. Qed.

Lemma minimalCoveringSupernet_mixed (c0 c1 : NormalisedCidr)
    (rest : list NormalisedCidr) :
  sameFamily c0.(version) c0.(bits) (c0 :: c1 :: rest) = false ->
  minimalCoveringSupernet (c0 :: c1 :: rest) = None.
Proof. intros Hf. unfold minimalCoveringSupernet. now rewrite Hf. Qed.

(** C1. On 192.168.1.0/24 and 192.168.2.0/24 the least network is
    192.168.1.0 and the greatest last address 192.168.2.255; the longest
    prefix under which they agree is 22, so the specification gives
    192.168.0.0/22, and [minimalCoveringSupernet] returns 0.0.0.0/0. *)
Theorem minimalCoveringSupernet_not_longest :
  let inputs := [mkCidr V4 32 3232235776 24; mkCidr V4 32 3232236032 24] in
  Forall canonical inputs
  /\ minimalCoveringSupernet inputs = Some (mkCidr V4 32 0 0)
  /\ supernetBySpec inputs = Some (mkCidr V4 32 3232235520 22).
Proof.
  cbv zeta. split; [|split; vm_compute; reflexivity].
  repeat constructor; (eexists; split; [vm_compute; reflexivity|reflexivity]).
Qed.

(** * VLSM allocation: order of the results *)

Lemma insertBy_perm (cmp : VlsmRequest -> VlsmRequest -> jsnum) (r : VlsmRequest)
    (sorted : list VlsmRequest) :
  Permutation (insertBy cmp r sorted) (r :: sorted).
Proof.
  induction sorted as [|s rest IH]; cbn; [reflexivity|].
  destruct (positive (cmp r s)); [|reflexivity].
  rewrite IH. apply perm_swap.
Qed.

Lemma sortBy_perm (cmp : VlsmRequest -> VlsmRequest -> jsnum)
    (requests : list VlsmRequest) :
  Permutation (sortBy cmp requests) requests.
Proof.
  induction requests as [|r rest IH]; cbn; [reflexivity|].
  rewrite insertBy_perm. now constructor.
Qed.

Lemma sortRequestsByStrategy_perm (requests : list VlsmRequest)
    (strategy : VlsmStrategy) (v : IpVersion) :
  Permutation (sortRequestsByStrategy requests strategy v) requests.
Proof. destruct strategy; apply sortBy_perm. Qed.

(** The order of the sort: the bigger block, which has the shorter prefix,
    comes first under [LARGEST_FIRST] and the strategies that share its
    order, and last under [SMALLEST_FIRST]. *)
Lemma insertBy_sorted (v : IpVersion) (R : Z -> Z -> Prop)
    (cmp : VlsmRequest -> VlsmRequest -> jsnum) (r : VlsmRequest)
    (sorted : list VlsmRequest) :
  (forall a b, integerSize v a -> integerSize v b ->
     if positive (cmp a b) then R (sizeOf v b) (sizeOf v a)
     else R (sizeOf v a) (sizeOf v b)) ->
  integerSize v r -> Forall (integerSize v) sorted ->
  Sorted (fun a b => R (sizeOf v a) (sizeOf v b)) sorted ->
  Sorted (fun a b => R (sizeOf v a) (sizeOf v b)) (insertBy cmp r sorted).
Proof.
  intros Hcmp Hr Hall Hs.
  induction Hs as [|s rest Hrest IH Hhd]; cbn; [repeat constructor|].
  inversion Hall as [|? ? Hsi Hri]; subst.
  pose proof (Hcmp r s Hr Hsi) as C.
  destruct (positive (cmp r s)).
  - constructor; [now apply IH|].
    destruct rest as [|t rest]; cbn; [now constructor|].
    destruct (positive (cmp r t)); constructor; [now inversion Hhd|exact C].
  - constructor; [now constructor|now constructor].
Qed.

Lemma insertBy_Forall (P : VlsmRequest -> Prop)
    (cmp : VlsmRequest -> VlsmRequest -> jsnum) (r : VlsmRequest)
    (sorted : list VlsmRequest) :
  P r -> Forall P sorted -> Forall P (insertBy cmp r sorted).
Proof.
  intros Hr Hs. eapply Permutation_Forall; [symmetry; apply insertBy_perm|].
  now constructor.
Qed.

Lemma sortBy_sorted (v : IpVersion) (R : Z -> Z -> Prop)
    (cmp : VlsmRequest -> VlsmRequest -> jsnum) (requests : list VlsmRequest) :
  (forall a b, integerSize v a -> integerSize v b ->
     if positive (cmp a b) then R (sizeOf v b) (sizeOf v a)
     else R (sizeOf v a) (sizeOf v b)) ->
  Forall (integerSize v) requests ->
  Sorted (fun a b => R (sizeOf v a) (sizeOf v b)) (sortBy cmp requests).
Proof.
  intros Hcmp Hall.
  induction Hall as [|r rest Hr Hrest IH]; cbn; [constructor|].
  apply (insertBy_sorted v); try assumption.
  eapply Permutation_Forall; [symmetry; apply sortBy_perm|assumption].
Qed.

Lemma sortRequestsByStrategy_sorted (requests : list VlsmRequest)
    (strategy : VlsmStrategy) (v : IpVersion) :
  Forall (integerSize v) requests ->
  match strategy with
  | SMALLEST_FIRST =>
      Sorted (fun a b => sizeOf v a >= sizeOf v b)
        (sortRequestsByStrategy requests strategy v)
  | _ =>
      Sorted (fun a b => sizeOf v a <= sizeOf v b)
        (sortRequestsByStrategy requests strategy v)
  end.
Proof.
  intros Hall.
  assert (Hup : forall a b, integerSize v a -> integerSize v b ->
            if positive (jsub (getSize v a) (getSize v b))
            then sizeOf v b <= sizeOf v a else sizeOf v a <= sizeOf v b).
  { intros a b [x Hx] [y Hy]. unfold sizeOf. rewrite Hx, Hy. cbn.
    destruct (Z.gtb_spec (x - y) 0); lia. }
  assert (Hdown : forall a b, integerSize v a -> integerSize v b ->
            if positive (jsub (getSize v b) (getSize v a))
            then sizeOf v b >= sizeOf v a else sizeOf v a >= sizeOf v b).
  { intros a b [x Hx] [y Hy]. unfold sizeOf. rewrite Hx, Hy. cbn.
    destruct (Z.gtb_spec (y - x) 0); lia. }
  destruct strategy; unfold sortRequestsByStrategy;
    (apply (sortBy_sorted v Z.le); assumption)
    || (apply (sortBy_sorted v Z.ge); assumption).
Qed.

Lemma allocateLoop_keys (parent : NormalisedCidr) (sortedRequests : list VlsmRequest) :
  forall allocations allocated result,
    allocateLoop parent sortedRequests allocations allocated = Some result ->
    map allocationKey result
    = (map allocationKey allocations ++ map requestKey sortedRequests)%list.
Proof.
  induction sortedRequests as [|req rest IH]; intros allocations allocated result; cbn.
  - intros [= <-]. now rewrite app_nil_r.
  - destruct (allocateOne parent req allocated (version parent)) as [[c|]|];
      [| |discriminate]; intros H; apply IH in H; rewrite H, map_app, <- app_assoc;
      reflexivity.
Qed.

(** Requests of one size keep the order of the list: the sort passes an
    element only over elements of another size. *)
Lemma insertBy_filter (v : IpVersion) (cmp : VlsmRequest -> VlsmRequest -> jsnum)
    (r : VlsmRequest) (sorted : list VlsmRequest) (size : Z) :
  (forall a b, integerSize v a -> integerSize v b ->
     positive (cmp a b) = true -> sizeOf v a <> sizeOf v b) ->
  integerSize v r -> Forall (integerSize v) sorted ->
  filter (fun x => sizeOf v x =? size) (insertBy cmp r sorted)
  = filter (fun x => sizeOf v x =? size) (r :: sorted).
Proof.
  intros Hcmp Hr Hall. induction Hall as [|s rest Hs Hrest IH]; [reflexivity|].
  cbn [insertBy]. destruct (positive (cmp r s)) eqn:E; [|reflexivity].
  pose proof (Hcmp r s Hr Hs E) as Hne.
  cbn [filter] in IH |- *. rewrite IH.
  destruct (Z.eqb_spec (sizeOf v r) size), (Z.eqb_spec (sizeOf v s) size);
    try reflexivity.
  lia.
Qed.

Lemma sortBy_filter (v : IpVersion) (cmp : VlsmRequest -> VlsmRequest -> jsnum)
    (requests : list VlsmRequest) (size : Z) :
  (forall a b, integerSize v a -> integerSize v b ->
     positive (cmp a b) = true -> sizeOf v a <> sizeOf v b) ->
  Forall (integerSize v) requests ->
  filter (fun x => sizeOf v x =? size) (sortBy cmp requests)
  = filter (fun x => sizeOf v x =? size) requests.
Proof.
  intros Hcmp Hall. induction Hall as [|r rest Hr Hrest IH]; [reflexivity|].
  change (sortBy cmp (r :: rest)) with (insertBy cmp r (sortBy cmp rest)).
  assert (Hsorted : Forall (integerSize v) (sortBy cmp rest))
    by (eapply Permutation_Forall; [symmetry; apply sortBy_perm|assumption]).
  rewrite (insertBy_filter v cmp r _ size Hcmp Hr Hsorted).
  cbn [filter]. now rewrite IH.
Qed.

Lemma sortRequestsByStrategy_stable (requests : list VlsmRequest)
    (strategy : VlsmStrategy) (v : IpVersion) (size : Z) :
  Forall (integerSize v) requests ->
  filter (fun r => sizeOf v r =? size) (sortRequestsByStrategy requests strategy v)
  = filter (fun r => sizeOf v r =? size) requests.
Proof.
  intros Hall.
  assert (Hup : forall a b, integerSize v a -> integerSize v b ->
            positive (jsub (getSize v a) (getSize v b)) = true ->
            sizeOf v a <> sizeOf v b).
  { intros a b [x Hx] [y Hy]. unfold sizeOf. rewrite Hx, Hy. cbn.
    destruct (Z.gtb_spec (x - y) 0); [lia|discriminate]. }
  assert (Hdown : forall a b, integerSize v a -> integerSize v b ->
            positive (jsub (getSize v b) (getSize v a)) = true ->
            sizeOf v a <> sizeOf v b).
  { intros a b [x Hx] [y Hy]. unfold sizeOf. rewrite Hx, Hy. cbn.
    destruct (Z.gtb_spec (y - x) 0); [lia|discriminate]. }
  destruct strategy; unfold sortRequestsByStrategy;
    apply (sortBy_filter v); assumption.
Qed.

Lemma plainSize_integerSize (v : IpVersion) (r : VlsmRequest) :
  plainSize r -> integerSize v r.
Proof.
  unfold plainSize, integerSize, getSize.
  destruct (requiredPrefix r) as [p|]; [eauto|].
  destruct (requiredHosts r) as [hosts|]; [|eauto].
  intros H. unfold hostBitsFor, ceilLog2. destruct v.
  - destruct (hosts =? 1); [cbn; eauto|]. destruct (hosts =? 2); [cbn; eauto|].
    destruct (Z.ltb_spec 0 (hosts + 2)); [cbn; eauto|lia].
  - destruct (Z.ltb_spec 0 hosts); [cbn; eauto|lia].
Qed.

(** A list in the order of its keys is fixed by its runs of equal keys. *)
Lemma sorted_runs_unique (key : VlsmRequest -> Z) :
  forall l1 l2 : list VlsmRequest,
    Sorted (fun a b => key a <= key b) l1 ->
    Sorted (fun a b => key a <= key b) l2 ->
    (forall size, filter (fun r => key r =? size) l1
                  = filter (fun r => key r =? size) l2) ->
    l1 = l2.
Proof.
  assert (T : Relations_1.Transitive (fun a b : VlsmRequest => key a <= key b))
    by (intros x y z; lia).
  assert (Least : forall a l x,
            Sorted (fun a b => key a <= key b) (a :: l) -> In x (a :: l) ->
            key a <= key x).
  { intros a l x S [<-|Hin]; [lia|].
    apply (Sorted_StronglySorted T) in S. inversion S as [|? ? _ Hfa]; subst.
    rewrite Forall_forall in Hfa. now apply Hfa. }
  assert (Head : forall a l1 b l2,
            (forall size, filter (fun r => key r =? size) (a :: l1)
                          = filter (fun r => key r =? size) (b :: l2)) ->
            In a (b :: l2)).
  { intros a l1 b l2 F.
    apply (proj1 (filter_In (fun r => key r =? key a) a (b :: l2))).
    rewrite <- F. apply filter_In. split; [now left|apply Z.eqb_refl]. }
  induction l1 as [|a l1 IH]; intros l2 S1 S2 F.
  - destruct l2 as [|b l2]; [reflexivity|].
    specialize (F (key b)). cbn in F. rewrite Z.eqb_refl in F. discriminate.
  - destruct l2 as [|b l2].
    { specialize (F (key a)). cbn in F. rewrite Z.eqb_refl in F. discriminate. }
    assert (Hab : key a = key b).
    { apply Z.le_antisymm.
      - apply (Least a l1 b S1). apply (Head b l2 a l1). intros size. now rewrite F.
      - apply (Least b l2 a S2). apply (Head a l1 b l2 F). }
    pose proof (F (key a)) as Fa. cbn [filter] in Fa.
    rewrite Z.eqb_refl, <- Hab, Z.eqb_refl in Fa. injection Fa as -> _.
    f_equal. apply IH; [now inversion S1|now inversion S2|].
    intros size. specialize (F size). cbn [filter] in F.
    destruct (key b =? size); [now injection F|exact F].
Qed.

Lemma Sorted_weaken (R R' : VlsmRequest -> VlsmRequest -> Prop)
    (l : list VlsmRequest) :
  (forall a b, R a b -> R' a b) -> Sorted R l -> Sorted R' l.
Proof.
  intros HR S. induction S as [|a l S IH Hhd]; constructor; [exact IH|].
  destruct Hhd; constructor. now apply HR.
Qed.

(** There is one stable sort of a list. *)
Lemma stableSortOf_unique (v : IpVersion) (strategy : VlsmStrategy)
    (requests l1 l2 : list VlsmRequest) :
  stableSortOf v strategy requests l1 -> stableSortOf v strategy requests l2 ->
  l1 = l2.
Proof.
  intros (_ & S1 & F1) (_ & S2 & F2).
  assert (Up : servedBefore strategy = Z.le -> l1 = l2).
  { intros E. rewrite E in S1, S2.
    apply (sorted_runs_unique (sizeOf v)); try assumption.
    intros size. now rewrite F1, F2. }
  destruct strategy; try (apply Up; reflexivity).
  apply (sorted_runs_unique (fun r => - sizeOf v r)).
  - eapply Sorted_weaken; [|exact S1]. cbn. intros a b. lia.
  - eapply Sorted_weaken; [|exact S2]. cbn. intros a b. lia.
  - intros size.
    rewrite (filter_ext _ (fun r => sizeOf v r =? - size)), F1, <- F2.
    + apply filter_ext. intros r.
      destruct (Z.eqb_spec (sizeOf v r) (- size)), (Z.eqb_spec (- sizeOf v r) size);
        (reflexivity || lia).
    + intros r.
      destruct (Z.eqb_spec (sizeOf v r) (- size)), (Z.eqb_spec (- sizeOf v r) size);
        (reflexivity || lia).
Qed.

Lemma sortRequestsByStrategy_stableSortOf (requests : list VlsmRequest)
    (strategy : VlsmStrategy) (v : IpVersion) :
  Forall (integerSize v) requests ->
  stableSortOf v strategy requests (sortRequestsByStrategy requests strategy v).
Proof.
  intros Hall. split; [apply sortRequestsByStrategy_perm|]. split.
  - pose proof (sortRequestsByStrategy_sorted requests strategy v Hall) as S.
    destruct strategy; exact S.
  - intros size. now apply sortRequestsByStrategy_stable.
Qed.

(** C2, as the code has it. [allocateVlsm] answers every request once, and
    the results come in the order in which the requests are served, not in
    the order of the input: for requests that give a prefix length or a
    host count up to [2 ^ 32 - 2], the served order is the stable sort of
    the input by size, shorter prefixes first except under
    [SMALLEST_FIRST], requests of one size in input order; there is one
    such order, so it is the order of any engine's stable sort. *)
Theorem allocateVlsm_sorted_order (parent : NormalisedCidr)
    (requests : list VlsmRequest) (strategy : VlsmStrategy)
    (reserved : list NormalisedCidr) (allocations : list VlsmAllocation) :
  allocateVlsm parent requests strategy reserved = Some allocations ->
  List.length allocations = List.length requests
  /\ Permutation (map allocationKey allocations) (map requestKey requests)
  /\ (Forall plainSize requests ->
      exists served,
        map allocationKey allocations = map requestKey served
        /\ stableSortOf parent.(version) strategy requests served
        /\ forall other,
             stableSortOf parent.(version) strategy requests other ->
             other = served).
Proof.
  unfold allocateVlsm.
  destruct (negb (forallb (containsPrefix parent) reserved)); [discriminate|].
  intros H. apply allocateLoop_keys in H. cbn [map app] in H.
  pose proof (sortRequestsByStrategy_perm requests strategy (version parent)) as P.
  split; [|split].
  - rewrite <- (length_map allocationKey), H, length_map.
    now apply Permutation_length.
  - rewrite H. now apply Permutation_map.
  - intros Hplain.
    assert (Hall : Forall (integerSize (version parent)) requests).
    { eapply Forall_impl; [|exact Hplain].
      intros r. apply plainSize_integerSize. }
    pose proof (sortRequestsByStrategy_stableSortOf requests strategy
                  (version parent) Hall) as St.
    exists (sortRequestsByStrategy requests strategy (version parent)).
    split; [exact H|]. split; [exact St|].
    intros other Ho. exact (stableSortOf_unique _ _ _ _ _ Ho St).
Qed.

(** C2, as the specification states it, fails: under [LARGEST_FIRST] a /26
    request listed before a /25 request is answered after it. *)
Lemma allocateVlsm_input_order_counterexample :
  ~ (forall parent requests strategy reserved allocations,
       allocateVlsm parent requests strategy reserved = Some allocations ->
       map alloc_name allocations = map name requests).
Proof.
  intros H.
  specialize (H (mkCidr V4 32 3232235520 24)
                [mkRequest "small" None (Some 26) None;
                 mkRequest "big" None (Some 25) None]
                LARGEST_FIRST [] _ eq_refl).
  vm_compute in H. discriminate H.
Qed.

(** * VLSM allocation: the allocated blocks do not overlap *)

Lemma indices_In (n i : Z) : In i (indices n) -> 0 <= i < n.
Proof.
  unfold indices. rewrite in_map_iff. intros [k [<- Hk]].
  apply in_seq in Hk. lia.
Qed.

Lemma log2Exact_Some (n k : Z) : log2Exact n = Some k -> 0 <= k /\ 2 ^ k = n.
Proof.
  unfold log2Exact. destruct (Z.eqb_spec (2 ^ Z.log2 n) n); [|discriminate].
  intros [= <-]. split; [apply Z.log2_nonneg|assumption].
Qed.

Lemma splitIntoN_subBlocks (parent : NormalisedCidr) (n : Z)
    (subnets : list NormalisedCidr) :
  aligned parent -> splitIntoN parent n = Some subnets ->
  Forall (subBlockOf parent) subnets.
Proof.
  intros (Hp & Hn & [q Hq]). unfold splitIntoN.
  destruct (n <=? 0); [discriminate|].
  destruct (negb _); [discriminate|].
  destruct (log2Exact n) as [k|] eqn:Hk; [|discriminate].
  apply log2Exact_Some in Hk. destruct Hk as [Hk0 Hk].
  destruct (Z.gtb_spec (prefix parent + k) (bits parent)); [discriminate|].
  intros [= <-]. rewrite shiftl_1.
  apply Forall_forall. intros c Hc.
  apply in_map_iff in Hc. destruct Hc as [i [<- Hi]].
  apply indices_In in Hi.
  set (s := bits parent - (prefix parent + k)) in *.
  assert (Hs : 0 < 2 ^ s) by (apply Z.pow_pos_nonneg; unfold s; lia).
  assert (Hps : 2 ^ (bits parent - prefix parent) = n * 2 ^ s).
  { rewrite <- Hk, <- Z.pow_add_r by (unfold s; lia). f_equal. unfold s. lia. }
  assert (Hb : 2 ^ bits parent = 2 ^ prefix parent * (n * 2 ^ s)).
  { rewrite <- Hps, <- Z.pow_add_r by lia. f_equal. lia. }
  assert (Hpp : 0 < 2 ^ prefix parent) by (apply Z.pow_pos_nonneg; lia).
  rewrite Hps in Hq.
  repeat split; cbn [version bits network prefix]; try lia.
  - rewrite Hb, Hq.
    assert (0 < n * 2 ^ s) by nia.
    assert (q < 2 ^ prefix parent) by nia.
    assert ((q + 1) * (n * 2 ^ s) <= 2 ^ prefix parent * (n * 2 ^ s)) by nia.
    assert (i * 2 ^ s < n * 2 ^ s) by nia.
    lia.
  - fold s. exists (q * n + i). rewrite Hq. ring.
Qed.

Lemma conflicts_false (candidate : NormalisedCidr) (allocated : list NormalisedCidr) :
  conflicts candidate allocated = false ->
  forall x, In x allocated -> apart x candidate.
Proof.
  unfold conflicts. intros H x Hx.
  assert (E : (containsPrefix candidate x || containsPrefix x candidate
               || (network candidate =? network x)) = false).
  { destruct (_ || _ || _) eqn:E; [|reflexivity].
    assert (existsb (fun alloc => containsPrefix candidate alloc
                                  || containsPrefix alloc candidate
                                  || (network candidate =? network alloc))
              allocated = true)
      by (apply existsb_exists; exists x; auto).
    congruence. }
  apply orb_false_iff in E. destruct E as [E _].
  apply orb_false_iff in E. unfold apart. tauto.
Qed.

Lemma allocateOne_Some (parent : NormalisedCidr) (req : VlsmRequest)
    (allocated : list NormalisedCidr) (v : IpVersion) (c : NormalisedCidr) :
  aligned parent ->
  allocateOne parent req allocated v = Some (Some c) ->
  subBlockOf parent c /\ forall x, In x allocated -> apart x c.
Proof.
  intros Hp. unfold allocateOne.
  destruct req as [nm [hosts|] [rp|] md]; cbn [requiredPrefix requiredHosts];
    try discriminate.
  all: destruct (jltInt _ (prefix parent)); [discriminate|].
  all: destruct (splitIntoN parent _) as [candidates|] eqn:Hs; [|discriminate].
  all: intros [= Hf]; apply find_some in Hf; destruct Hf as [Hin Hc].
  all: apply negb_true_iff in Hc.
  all: split; [|now apply conflicts_false].
  all: pose proof (splitIntoN_subBlocks _ _ _ Hp Hs) as Hall.
  all: rewrite Forall_forall in Hall; auto.
Qed.

Lemma allocatedCidrs_snoc (allocations : list VlsmAllocation) (a : VlsmAllocation) :
  allocatedCidrs (allocations ++ [a])
  = (allocatedCidrs allocations ++ (if a.(allocated) then [a.(cidr)] else []))%list.
Proof.
  unfold allocatedCidrs. rewrite filter_app, map_app. cbn.
  now destruct (allocated a).
Qed.

Lemma ForallOrdPairs_snoc {A : Type} (R : A -> A -> Prop) (l : list A) (x : A) :
  ForallOrdPairs R l -> Forall (fun y => R y x) l -> ForallOrdPairs R (l ++ [x]).
Proof.
  induction 1 as [|y l Hy Hl IH]; cbn; intros Hx.
  - repeat constructor.
  - inversion Hx; subst. constructor; [|auto].
    apply Forall_app. split; [assumption|]. now constructor.
Qed.

Lemma allocateLoop_placedApart (parent : NormalisedCidr)
    (sortedRequests : list VlsmRequest) :
  aligned parent ->
  forall allocations allocated result,
    placedApart parent allocations allocated ->
    allocateLoop parent sortedRequests allocations allocated = Some result ->
    exists allocated', placedApart parent result allocated'.
Proof.
  intros Hp.
  induction sortedRequests as [|req rest IH]; intros allocations allocated result Inv; cbn.
  - intros [= <-]. now exists allocated.
  - destruct (allocateOne parent req allocated (version parent)) as [[c|]|] eqn:Ho;
      [| |discriminate]; apply IH.
    + destruct (allocateOne_Some _ _ _ _ _ Hp Ho) as [Hc Hfree].
      destruct Inv as (I1 & I2 & I3).
      unfold placedApart. rewrite allocatedCidrs_snoc. cbn [Vlsm.allocated Vlsm.cidr].
      split; [|split].
      * apply Forall_app. split; [assumption|]. now constructor.
      * apply incl_app; [now apply incl_appl|].
        apply incl_appr, incl_refl.
      * apply ForallOrdPairs_snoc; [assumption|].
        apply Forall_forall. intros y Hy. apply Hfree, I2, Hy.
    + destruct Inv as (I1 & I2 & I3).
      unfold placedApart. rewrite allocatedCidrs_snoc. cbn [Vlsm.allocated].
      rewrite app_nil_r. repeat split; assumption.
Qed.

Lemma comparePair_apart (parent a b : NormalisedCidr) :
  subBlockOf parent a -> subBlockOf parent b -> apart a b -> comparePair a b = [].
Proof.
  intros (Ha & Hva & Hba) (Hb & Hvb & Hbb) [Hab Hba'].
  unfold comparePair. rewrite !shiftl_1.
  destruct (negb (IpVersion_eqb _ _) || negb (_ =? _)); [reflexivity|].
  destruct (negb _) eqn:Ov; [|reflexivity].
  apply negb_true_iff, orb_false_iff in Ov. destruct Ov as [O1 O2].
  apply Z.ltb_ge in O1, O2. exfalso.
  destruct (Z.le_gt_cases (prefix a) (prefix b)).
  - rewrite aligned_overlap_contains in Hab; try assumption;
      [discriminate|congruence|congruence|lia|lia].
  - rewrite aligned_overlap_contains in Hba'; try assumption;
      [discriminate|congruence|congruence|lia|lia|lia].
Qed.

Lemma allPairs_apart (parent : NormalisedCidr) (cidrs : list NormalisedCidr) :
  Forall (subBlockOf parent) cidrs -> ForallOrdPairs apart cidrs ->
  allPairs cidrs = [].
Proof.
  intros Hs Hp. induction Hp as [|a rest Ha Hrest IH]; [reflexivity|].
  inversion Hs as [|? ? Hsa Hsr]; subst. cbn.
  rewrite (IH Hsr), app_nil_r.
  clear IH Hrest. induction rest as [|b rest IH]; [reflexivity|].
  inversion Ha; subst. inversion Hsr; subst. cbn.
  rewrite (comparePair_apart parent a b) by assumption.
  cbn. auto.
Qed.

(** C6. The cidrs of the allocations of a batch that are marked
    [allocated: true] do not overlap: [detectOverlaps] finds nothing in
    them. *)
Theorem allocateVlsm_no_overlap (parent : NormalisedCidr)
    (requests : list VlsmRequest) (strategy : VlsmStrategy)
    (reserved : list NormalisedCidr) (allocations : list VlsmAllocation) :
  canonical parent ->
  allocateVlsm parent requests strategy reserved = Some allocations ->
  (detectOverlaps (allocatedCidrs allocations)).(hasOverlap) = false.
Proof.
  intros Hc. apply canonical_aligned in Hc. unfold allocateVlsm.
  destruct (negb (forallb (containsPrefix parent) reserved)); [discriminate|].
  intros H.
  destruct (allocateLoop_placedApart parent _ Hc [] reserved allocations
              ltac:(repeat split; cbn; [constructor|intros ? []|constructor]) H)
    as [al (I1 & _ & I3)].
  unfold detectOverlaps. now rewrite (allPairs_apart parent).
Qed.

(** * Subnet metadata *)

Lemma bigIntToIpv4_Some (n : Z) :
  0 <= n < 2 ^ 32 -> exists s, bigIntToIpv4 n = Some s.
Proof.
  intros H. unfold bigIntToIpv4.
  destruct (Z.ltb_spec n 0); [lia|].
  destruct (Z.gtb_spec n 4294967295); [lia|].
  cbn [orb]. eauto.
Qed.

Lemma bigIntToIpv4_None (n : Z) : 2 ^ 32 <= n -> bigIntToIpv4 n = None.
Proof.
  intros H. unfold bigIntToIpv4.
  destruct (Z.gtb_spec n 4294967295); [|lia].
  now rewrite orb_true_r.
Qed.

Lemma bigIntToIpv6_Some (n : Z) :
  0 <= n < 2 ^ 128 -> exists s, bigIntToIpv6 n = Some s.
Proof.
  intros H. unfold bigIntToIpv6.
  destruct (Z.ltb_spec n 0); [lia|].
  destruct (Z.gtb_spec n (2 ^ 128 - 1)); [lia|].
  cbn [orb]. destruct (scanRuns _ _ _ _ _) as [bestStart bestLen].
  destruct (_ =? _); [eauto|].
  destruct (_ && _); [eauto|].
  destruct (isEmpty _); [eauto|].
  destruct (isEmpty _); eauto.
Qed.

Lemma formatAddress_Some (v : IpVersion) (n : Z) :
  0 <= n < 2 ^ bitsOf v -> exists s, formatAddress v n = Some s.
Proof. destruct v; [apply bigIntToIpv4_Some|apply bigIntToIpv6_Some]. Qed.

Lemma wildcardFromPrefix_value (p b : Z) :
  0 <= p <= b -> wildcardFromPrefix p b = Some (2 ^ (b - p) - 1).
Proof.
  intros H. unfold wildcardFromPrefix.
  replace (assertIntegerInRange p 0 b) with true
    by (symmetry; now apply assertIntegerInRange_true).
  cbn [negb]. destruct (Z.eqb_spec (b - p) 0) as [->|]; [reflexivity|].
  now rewrite shiftl_1.
Qed.

Lemma lor_below_pow2 (a b n : Z) :
  0 <= a < 2 ^ n -> 0 <= b < 2 ^ n -> 0 <= Z.lor a b < 2 ^ n.
Proof.
  intros Ha Hb.
  assert (H0 : 0 <= Z.lor a b) by (apply Z.lor_nonneg; lia).
  split; [exact H0|].
  destruct (Z.eq_dec (Z.lor a b) 0) as [->|Hne]; [lia|].
  assert (Hn : 0 < n).
  { destruct (Z.le_gt_cases n 0) as [Hn|]; [exfalso|lia].
    assert (2 ^ n <= 1).
    { destruct (Z.eq_dec n 0) as [->|]; [cbn; lia|].
      rewrite Z.pow_neg_r by lia. lia. }
    apply Hne. replace a with 0 by lia. replace b with 0 by lia. reflexivity. }
  apply Z.log2_lt_pow2; [lia|].
  rewrite Z.log2_lor by lia.
  apply Z.max_lub_lt.
  - destruct (Z.eq_dec a 0) as [->|]; [cbn; lia|apply Z.log2_lt_pow2; lia].
  - destruct (Z.eq_dec b 0) as [->|]; [cbn; lia|apply Z.log2_lt_pow2; lia].
Qed.

Lemma lor_positive (a b : Z) : 0 <= a -> 0 < b -> 0 < Z.lor a b.
Proof.
  intros Ha Hb.
  assert (0 <= Z.lor a b) by (apply Z.lor_nonneg; lia).
  assert (Z.lor a b <> 0) by (rewrite Z.lor_eq_0_iff; lia).
  lia.
Qed.

(** The facts about the numbers [subnetMeta] formats. *)
Lemma meta_numbers (n p b : Z) :
  0 <= p <= b -> 0 <= n < 2 ^ b ->
  0 <= 2 ^ b - 2 ^ (b - p) < 2 ^ b
  /\ 0 <= 2 ^ (b - p) - 1 < 2 ^ b
  /\ 0 <= Z.lor n (2 ^ (b - p) - 1) < 2 ^ b.
Proof.
  intros Hp Hn.
  assert (Hs : 0 < 2 ^ (b - p)) by (apply Z.pow_pos_nonneg; lia).
  assert (Hle : 2 ^ (b - p) <= 2 ^ b) by (apply Z.pow_le_mono_r; lia).
  split; [lia|]. split; [lia|].
  apply lor_below_pow2; lia.
Qed.

(** The address [x] of version [v] has a text. *)
Ltac format_ok v x s H :=
  destruct (formatAddress_Some v x) as [s H]; [cbn [bitsOf] in *; lia|].

Lemma subnetMeta_V4 (n p : Z) :
  0 <= p <= 32 -> 0 <= n < 2 ^ 32 -> (p <= 30 -> n <> 2 ^ 32 - 1) ->
  exists m,
    Calculations.subnetMeta n p V4 32 = Some m
    /\ m.(Calculations.addressCount) = 2 ^ (32 - p)
    /\ shows V4 m.(Calculations.broadcast) (Z.lor n (2 ^ (32 - p) - 1))
    /\ shows V4 (Some m.(Calculations.lastAddress)) (Z.lor n (2 ^ (32 - p) - 1))
    /\ (p = 32 ->
        m.(Calculations.usableCount) = 1
        /\ shows V4 m.(Calculations.firstUsable) n
        /\ shows V4 m.(Calculations.lastUsable) n)
    /\ (p = 31 ->
        m.(Calculations.usableCount) = 2
        /\ shows V4 m.(Calculations.firstUsable) n
        /\ shows V4 m.(Calculations.lastUsable) (Z.lor n (2 ^ (32 - p) - 1)))
    /\ (p <= 30 ->
        m.(Calculations.usableCount) = 2 ^ (32 - p) - 2
        /\ shows V4 m.(Calculations.firstUsable) (n + 1)
        /\ shows V4 m.(Calculations.lastUsable) (Z.lor n (2 ^ (32 - p) - 1) - 1)).
Proof.
  intros Hp Hn Hones.
  destruct (meta_numbers n p 32 Hp Hn) as (Hmask & Hwild & Hlast).
  set (last := Z.lor n (2 ^ (32 - p) - 1)) in *.
  format_ok V4 n sn En.
  format_ok V4 (2 ^ 32 - 2 ^ (32 - p)) sm Em.
  format_ok V4 (2 ^ (32 - p) - 1) sw Ew.
  format_ok V4 last sl El.
  unfold Calculations.subnetMeta, formatCidr, Calculations.formatNullable.
  replace (assertIntegerInRange p 0 32) with true
    by (symmetry; now apply assertIntegerInRange_true).
  rewrite maskFromPrefix_value, wildcardFromPrefix_value, shiftl_1 by lia.
  cbn [negb]. fold last.
  destruct (Z.eqb_spec p 32) as [E32|N32]; [|destruct (Z.eqb_spec p 31) as [E31|N31]].
  - rewrite En, Em, Ew, El. eexists. split; [reflexivity|].
    cbn. unfold shows. repeat split; try lia; eauto.
  - rewrite En, Em, Ew, El. eexists. split; [reflexivity|].
    cbn. unfold shows. repeat split; try lia; eauto.
  - assert (H30 : p <= 30) by lia.
    assert (Hw3 : 2 <= 2 ^ (32 - p)).
    { change 2 with (2 ^ 1) at 1. apply Z.pow_le_mono_r; lia. }
    assert (0 < last) by (apply lor_positive; lia).
    specialize (Hones H30).
    format_ok V4 (n + 1) sf Ef.
    format_ok V4 (last - 1) su Eu.
    rewrite En, Em, Ew, El, Ef, Eu. eexists. split; [reflexivity|].
    cbn. unfold shows. repeat split; try lia; eauto.
Qed.

Lemma subnetMeta_V6 (n p : Z) :
  0 <= p <= 128 -> 0 <= n < 2 ^ 128 ->
  exists m,
    Calculations.subnetMeta n p V6 128 = Some m
    /\ m.(Calculations.addressCount) = 2 ^ (128 - p)
    /\ m.(Calculations.broadcast) = None
    /\ shows V6 (Some m.(Calculations.lastAddress)) (Z.lor n (2 ^ (128 - p) - 1))
    /\ m.(Calculations.usableCount) = m.(Calculations.addressCount)
    /\ shows V6 m.(Calculations.firstUsable) n
    /\ shows V6 m.(Calculations.lastUsable) (Z.lor n (2 ^ (128 - p) - 1)).
Proof.
  intros Hp Hn.
  destruct (meta_numbers n p 128 Hp Hn) as (Hmask & Hwild & Hlast).
  set (last := Z.lor n (2 ^ (128 - p) - 1)) in *.
  format_ok V6 n sn En.
  format_ok V6 (2 ^ 128 - 2 ^ (128 - p)) sm Em.
  format_ok V6 (2 ^ (128 - p) - 1) sw Ew.
  format_ok V6 last sl El.
  unfold Calculations.subnetMeta, formatCidr, Calculations.formatNullable.
  replace (assertIntegerInRange p 0 128) with true
    by (symmetry; now apply assertIntegerInRange_true).
  rewrite maskFromPrefix_value, wildcardFromPrefix_value, shiftl_1 by lia.
  cbn [negb]. fold last.
  rewrite En, Em, Ew, El. eexists. split; [reflexivity|].
  cbn. unfold shows. repeat split; eauto.
Qed.

(** C3, as the code has it. For a prefix in range and a network in range,
    other than the all-ones IPv4 address under a prefix of 30 or less,
    [subnetMeta] returns the metadata of the edge-case table, with
    [last = network | wildcard(prefix, bits)], a broadcast field equal to
    [last] for IPv4 and none for IPv6. *)
Theorem subnetMeta_edge_table (v : IpVersion) (n p : Z) :
  0 <= p <= bitsOf v -> 0 <= n < 2 ^ bitsOf v ->
  (v = V4 -> p <= 30 -> n <> 2 ^ 32 - 1) ->
  exists m w,
    Calculations.subnetMeta n p v (bitsOf v) = Some m
    /\ wildcardFromPrefix p (bitsOf v) = Some w
    /\ m.(Calculations.addressCount) = 2 ^ (bitsOf v - p)
    /\ shows v (Some m.(Calculations.lastAddress)) (Z.lor n w)
    /\ (v = V4 ->
        shows V4 m.(Calculations.broadcast) (Z.lor n w)
        /\ (p = 32 ->
            m.(Calculations.addressCount) = 1
            /\ m.(Calculations.usableCount) = 1
            /\ shows V4 m.(Calculations.firstUsable) n
            /\ shows V4 m.(Calculations.lastUsable) n)
        /\ (p = 31 ->
            m.(Calculations.addressCount) = 2
            /\ m.(Calculations.usableCount) = 2
            /\ shows V4 m.(Calculations.firstUsable) n
            /\ shows V4 m.(Calculations.lastUsable) (Z.lor n w))
        /\ (p <= 30 ->
            m.(Calculations.usableCount) = m.(Calculations.addressCount) - 2
            /\ shows V4 m.(Calculations.firstUsable) (n + 1)
            /\ shows V4 m.(Calculations.lastUsable) (Z.lor n w - 1)))
    /\ (v = V6 ->
        m.(Calculations.broadcast) = None
        /\ m.(Calculations.usableCount) = m.(Calculations.addressCount)
        /\ shows V6 m.(Calculations.firstUsable) n
        /\ shows V6 m.(Calculations.lastUsable) (Z.lor n w)).
Proof.
  intros Hp Hn Hones. destruct v; cbn [bitsOf] in *.
  - destruct (subnetMeta_V4 n p Hp Hn (Hones eq_refl))
      as (m & Hm & Hc & Hb & Hl & H32 & H31 & H30).
    exists m, (2 ^ (32 - p) - 1).
    rewrite wildcardFromPrefix_value by lia.
    split; [exact Hm|]. split; [reflexivity|]. split; [exact Hc|].
    split; [exact Hl|]. split; [|discriminate].
    intros _. split; [exact Hb|]. split; [|split]; intros E.
    + destruct (H32 E) as (U & F & L). repeat split; try assumption.
      rewrite Hc, E. reflexivity.
    + destruct (H31 E) as (U & F & L). repeat split; try assumption.
      rewrite Hc, E. reflexivity.
    + destruct (H30 E) as (U & F & L). repeat split; try assumption.
      now rewrite Hc.
  - destruct (subnetMeta_V6 n p Hp Hn) as (m & Hm & Hc & Hb & Hl & Hu & Hf & Hlu).
    exists m, (2 ^ (128 - p) - 1).
    rewrite wildcardFromPrefix_value by lia.
    repeat split; try assumption; discriminate.
Qed.

(** C3, as the specification states it, fails at the all-ones IPv4 address:
    under a /24 the first usable address would be [network + 1], which is
    not a 32-bit value, and [subnetMeta] throws while it formats it. *)
Lemma subnetMeta_all_ones_counterexample :
  ~ (forall n p, 0 <= p <= 32 -> 0 <= n < 2 ^ 32 -> p <= 30 ->
       exists m, Calculations.subnetMeta n p V4 32 = Some m
                 /\ shows V4 m.(Calculations.firstUsable) (n + 1)).
Proof.
  intros H. destruct (H 4294967295 24) as [m [Hm _]]; try lia.
  vm_compute in Hm. discriminate Hm.
Qed.

(** * IPv6 text: the compressed run *)

Lemma zeroRunb_true (hs : list Z) (s len : nat) :
  zeroRunb hs s len = true <-> zeroRun hs s len.
Proof.
  unfold zeroRunb, zeroRun, zeroAtb, zeroAt.
  rewrite !andb_true_iff, orb_true_iff, !negb_true_iff, !Nat.leb_le, Nat.eqb_eq,
    forallb_forall.
  split.
  - intros ((((H1 & H2) & H3) & H4) & H5). repeat split; try assumption.
    + intros i Hi. apply Z.eqb_eq, H3, in_seq. lia.
    + destruct H4 as [H4|H4]; [now left|right]. now apply Z.eqb_neq.
    + now apply Z.eqb_neq.
  - intros (H1 & H2 & H3 & H4 & H5). repeat split; try assumption.
    + intros i Hi. apply Z.eqb_eq, H3. apply in_seq in Hi. lia.
    + destruct H4 as [H4|H4]; [now left|right]. now apply Z.eqb_neq.
    + now apply Z.eqb_neq.
Qed.

Lemma zeroRun_bounds (hs : list Z) (s len : nat) :
  zeroRun hs s len -> In s (seq 0 9) /\ In len (seq 0 9).
Proof. intros (H1 & H2 & _). rewrite !in_seq. lia. Qed.

Lemma leftmostLongestb_true (hs : list Z) (s len : nat) :
  leftmostLongestb hs s len = true -> leftmostLongest hs s len.
Proof.
  unfold leftmostLongestb, leftmostLongest.
  rewrite !andb_true_iff, zeroRunb_true, Nat.leb_le, forallb_forall.
  intros ((H1 & H2) & H3). split; [assumption|]. split; [assumption|].
  intros s' len' H.
  destruct (zeroRun_bounds _ _ _ H) as [Bs Bl].
  specialize (H3 s' Bs). rewrite forallb_forall in H3. specialize (H3 len' Bl).
  apply zeroRunb_true in H. rewrite H in H3. cbn [implb] in H3.
  apply andb_true_iff in H3. destruct H3 as [H3 H4].
  split; [now apply Nat.leb_le|].
  intros E. apply Nat.eqb_eq in E. rewrite E in H4. now apply Nat.leb_le.
Qed.

Lemma noLongRunb_true (hs : list Z) : noLongRunb hs = true -> noLongRun hs.
Proof.
  unfold noLongRunb, noLongRun. rewrite forallb_forall. intros H s len Hr.
  destruct (zeroRun_bounds _ _ _ Hr) as [Bs Bl].
  specialize (H s Bs). rewrite forallb_forall in H. specialize (H len Bl).
  apply zeroRunb_true in Hr. rewrite Hr in H. now apply Nat.eqb_eq.
Qed.

(** The scan and the run predicates only look at which hextets are zero. *)
Lemma zeroAtb_zeroOrOne (hs : list Z) (i : nat) :
  zeroAtb (map zeroOrOne hs) i = zeroAtb hs i.
Proof.
  unfold zeroAtb. change 1 with (zeroOrOne 1) at 1. rewrite map_nth.
  unfold zeroOrOne. now destruct (Z.eqb_spec (nth i hs 1) 0).
Qed.

Lemma zeroRunEnd_zeroOrOne (fuel : nat) (hs : list Z) :
  forall j, zeroRunEnd fuel (map zeroOrOne hs) j = zeroRunEnd fuel hs j.
Proof.
  induction fuel as [|f IH]; intros j; cbn; [reflexivity|].
  fold (zeroAtb (map zeroOrOne hs) j). fold (zeroAtb hs j).
  rewrite zeroAtb_zeroOrOne, IH. reflexivity.
Qed.

Lemma scanRuns_zeroOrOne (fuel : nat) (hs : list Z) :
  forall i bestStart bestLen,
    scanRuns fuel (map zeroOrOne hs) i bestStart bestLen
    = scanRuns fuel hs i bestStart bestLen.
Proof.
  induction fuel as [|f IH]; intros i bestStart bestLen; cbn -[zeroRunEnd];
    [reflexivity|].
  fold (zeroAtb (map zeroOrOne hs) i). fold (zeroAtb hs i).
  rewrite zeroAtb_zeroOrOne, zeroRunEnd_zeroOrOne, !IH. reflexivity.
Qed.

Lemma forallb_pointwise {A : Type} (f g : A -> bool) (l : list A) :
  (forall x, f x = g x) -> forallb f l = forallb g l.
Proof. intros H. induction l as [|x l IH]; cbn; [reflexivity|]. now rewrite H, IH. Qed.

Lemma zeroRunb_zeroOrOne (hs : list Z) (s len : nat) :
  zeroRunb (map zeroOrOne hs) s len = zeroRunb hs s len.
Proof.
  unfold zeroRunb. rewrite !zeroAtb_zeroOrOne. do 3 f_equal.
  apply forallb_pointwise. intros i. apply zeroAtb_zeroOrOne.
Qed.

Lemma scanFindsRun_zeroOrOne (hs : list Z) :
  scanFindsRun (map zeroOrOne hs) = scanFindsRun hs.
Proof.
  unfold scanFindsRun. rewrite scanRuns_zeroOrOne.
  destruct (scanRuns 8 hs 0 (-1) 0) as [bs bl].
  unfold noLongRunb, leftmostLongestb.
  rewrite zeroRunb_zeroOrOne.
  destruct (bs =? -1).
  - apply forallb_pointwise. intros s. apply forallb_pointwise. intros len.
    now rewrite zeroRunb_zeroOrOne.
  - do 2 f_equal. apply forallb_pointwise. intros s. apply forallb_pointwise. intros len.
    now rewrite zeroRunb_zeroOrOne.
Qed.

(** The 256 patterns of zero and non-zero hextets, one by one. *)
Lemma scanFindsRun_patterns (hs : list Z) :
  List.length hs = 8%nat -> Forall (fun h => h = 0 \/ h = 1) hs ->
  scanFindsRun hs = true.
Proof.
  intros Hlen Hall.
  do 9 (destruct hs as [|? hs]; try discriminate Hlen).
  repeat match goal with
         | H : Forall _ (_ :: _) |- _ => inversion H; clear H; subst
         end.
  repeat match goal with
         | H : _ \/ _ |- _ => destruct H; subst
         end;
    vm_compute; reflexivity.
Qed.

Lemma scanFindsRun_all (hs : list Z) :
  List.length hs = 8%nat -> scanFindsRun hs = true.
Proof.
  intros Hlen. rewrite <- scanFindsRun_zeroOrOne.
  apply scanFindsRun_patterns; [now rewrite length_map|].
  apply Forall_forall. intros h Hh. apply in_map_iff in Hh.
  destruct Hh as [x [<- _]]. unfold zeroOrOne. destruct (x =? 0); auto.
Qed.

(** * IPv6 text: the colons *)

Lemma countDoubleColon_app (a b : string) :
  countDoubleColon (a ++ b)
  = (countDoubleColon a + countDoubleColon b
     + (if endsWith ":" a && startsColon b then 1 else 0))%nat.
Proof.
  induction a as [|c a IH]; [cbn; lia|].
  destruct a as [|d a].
  - cbn. destruct b as [|d b]; cbn; [now rewrite andb_false_r|lia].
  - assert (E : countDoubleColon (String c (String d a) ++ b)
                = ((if Ascii.eqb c ":" && Ascii.eqb d ":" then 1 else 0)
                   + countDoubleColon (String d a ++ b))%nat) by reflexivity.
    rewrite E, IH.
    assert (E2 : countDoubleColon (String c (String d a))
                 = ((if Ascii.eqb c ":" && Ascii.eqb d ":" then 1 else 0)
                    + countDoubleColon (String d a))%nat) by reflexivity.
    rewrite E2.
    change (endsWith ":" (String c (String d a))) with (endsWith ":" (String d a)).
    lia.
Qed.

Lemma startsColon_app (a b : string) :
  startsColon (a ++ b) = if isEmpty a then startsColon b else startsColon a.
Proof. now destruct a. Qed.

Lemma endsWith_app (c : ascii) (a b : string) :
  endsWith c (a ++ b) = if isEmpty b then endsWith c a else endsWith c b.
Proof.
  induction a as [|d a IH]; cbn.
  - now destruct b.
  - destruct a as [|e a].
    + cbn. destruct b; reflexivity.
    + cbn in IH |- *. exact IH.
Qed.

Lemma isEmpty_app (a b : string) : isEmpty (a ++ b) = isEmpty a && isEmpty b.
Proof. now destruct a. Qed.

Lemma isEmpty_true (s : string) : isEmpty s = true -> s = "".
Proof. now destruct s. Qed.

Lemma append_empty_r (s : string) : s ++ "" = s.
Proof. induction s as [|c s IH]; cbn; [reflexivity|now rewrite IH]. Qed.

(** A text without colons. *)
Lemma colonFree_facts (s : string) :
  allChars notColon s = true ->
  countDoubleColon s = O /\ endsWith ":" s = false /\ startsColon s = false.
Proof.
  induction s as [|c s IH]; cbn; [auto|].
  rewrite andb_true_iff. intros [Hc Hs]. destruct (IH Hs) as (I1 & I2 & I3).
  unfold notColon in Hc. apply negb_true_iff in Hc.
  destruct s as [|d s].
  - auto.
  - rewrite Hc. cbn [andb]. auto.
Qed.

Lemma digitChar_notColon (d : Z) : 0 <= d < 16 -> notColon (digitChar d) = true.
Proof.
  intros H.
  assert (E : d = 0 \/ d = 1 \/ d = 2 \/ d = 3 \/ d = 4 \/ d = 5 \/ d = 6 \/ d = 7
              \/ d = 8 \/ d = 9 \/ d = 10 \/ d = 11 \/ d = 12 \/ d = 13 \/ d = 14
              \/ d = 15) by lia.
  repeat (destruct E as [->|E]; [reflexivity|]). now subst.
Qed.

Lemma digitsFuel_hex (fuel : nat) :
  forall v acc,
    allChars notColon acc = true ->
    allChars notColon (digitsFuel fuel 16 v acc) = true
    /\ (isEmpty acc = false -> isEmpty (digitsFuel fuel 16 v acc) = false).
Proof.
  induction fuel as [|f IH]; intros v acc Hacc; cbn [digitsFuel]; [auto|].
  assert (Hd : notColon (digitChar (v mod 16)) = true)
    by (apply digitChar_notColon, Z.mod_pos_bound; lia).
  destruct (v <? 16).
  - cbn. rewrite Hd, Hacc. auto.
  - destruct (IH (v / 16) (String (digitChar (v mod 16)) acc)) as [I1 I2].
    + cbn. now rewrite Hd, Hacc.
    + split; [exact I1|]. intros _. now apply I2.
Qed.

Lemma toString16_facts (v : Z) :
  allChars notColon (toString16 v) = true /\ isEmpty (toString16 v) = false.
Proof.
  unfold toString16, toStringBase. cbn [digitsFuel].
  assert (Hd : notColon (digitChar (v mod 16)) = true)
    by (apply digitChar_notColon, Z.mod_pos_bound; lia).
  destruct (v <? 16).
  - cbn. now rewrite Hd.
  - destruct (digitsFuel_hex (Z.to_nat (Z.log2 v)) (v / 16)
                (String (digitChar (v mod 16)) "")) as [I1 I2].
    + cbn. now rewrite Hd.
    + split; [exact I1|]. now apply I2.
Qed.

(** The join of hexadecimal groups has no two colons in a row and neither
    starts nor ends with a colon. *)
Lemma join_hex_facts (hs : list Z) :
  countDoubleColon (join ":" (map toString16 hs)) = O
  /\ endsWith ":" (join ":" (map toString16 hs)) = false
  /\ startsColon (join ":" (map toString16 hs)) = false
  /\ (hs <> [] -> isEmpty (join ":" (map toString16 hs)) = false).
Proof.
  induction hs as [|h hs IH]; [cbn; repeat split; congruence|].
  destruct (toString16_facts h) as [Hc Hn].
  destruct (colonFree_facts _ Hc) as (C1 & C2 & C3).
  destruct hs as [|k hs].
  - cbn [map join]. repeat split; try assumption. intros _. exact Hn.
  - destruct IH as (I1 & I2 & I3 & I4).
    specialize (I4 ltac:(discriminate)).
    change (join ":" (map toString16 (h :: k :: hs)))
      with (toString16 h ++ ":" ++ join ":" (map toString16 (k :: hs))).
    set (J := join ":" (map toString16 (k :: hs))) in *.
    repeat split.
    + rewrite !countDoubleColon_app, C1, C2, I1, I3. reflexivity.
    + rewrite !endsWith_app, isEmpty_app, I4. cbn. exact I2.
    + rewrite startsColon_app, Hn. exact C3.
    + intros _. now rewrite isEmpty_app, Hn.
Qed.

Lemma compressed_one_doubleColon (before after : list Z) :
  countDoubleColon
    (join ":" (map toString16 before) ++ "::" ++ join ":" (map toString16 after))
  = 1%nat.
Proof.
  destruct (join_hex_facts before) as (B1 & B2 & _).
  destruct (join_hex_facts after) as (A1 & _ & A3 & _).
  rewrite !countDoubleColon_app, B1, B2, A1, A3. reflexivity.
Qed.

Lemma hextetsOf_hextets (n : Z) : hextetsOf 8 n [] = hextets n.
Proof.
  unfold hextets, hextetAt. cbn [hextetsOf map seq].
  rewrite !Z.shiftr_shiftr by lia. cbn -[Z.shiftr Z.land].
  now rewrite Z.shiftr_0_r.
Qed.

Lemma hextets_length (n : Z) : List.length (hextets n) = 8%nat.
Proof. reflexivity. Qed.

Lemma Some_eq {A : Type} (x y : A) : Some x = Some y -> x = y.
Proof. now intros [= ->]. Qed.

(** The text [bigIntToIpv6] builds once the scan has chosen a run. *)
Lemma compressed_text (hs : list Z) (bs bl : Z) (out : string) :
  (let before := map toString16 (firstn (Z.to_nat bs) hs) in
   let after := map toString16 (skipn (Z.to_nat (bs + bl)) hs) in
   if Nat.eqb (List.length before) 0 && Nat.eqb (List.length after) 0 then Some "::"
   else
     let left := join ":" before in
     let right := join ":" after in
     if isEmpty left then Some ("::" ++ right)
     else if isEmpty right then Some (left ++ "::")
     else Some (left ++ "::" ++ right)) = Some out ->
  out = join ":" (map toString16 (firstn (Z.to_nat bs) hs)) ++ "::"
        ++ join ":" (map toString16 (skipn (Z.to_nat (bs + bl)) hs)).
Proof.
  cbv zeta.
  set (before := map toString16 (firstn (Z.to_nat bs) hs)).
  set (after := map toString16 (skipn (Z.to_nat (bs + bl)) hs)).
  destruct (Nat.eqb (List.length before) 0 && Nat.eqb (List.length after) 0) eqn:E.
  - apply andb_true_iff in E. destruct E as [E1 E2].
    apply Nat.eqb_eq, length_zero_iff_nil in E1, E2. rewrite E1, E2.
    now intros [= <-].
  - destruct (isEmpty (join ":" before)) eqn:El.
    + apply isEmpty_true in El. rewrite El. now intros [= <-].
    + destruct (isEmpty (join ":" after)) eqn:Er.
      * apply isEmpty_true in Er. rewrite Er. now intros [= <-].
      * now intros [= <-].
Qed.

(** The text built from any eight hextets. *)
Lemma compression_cases (hs : list Z) (out : string) :
  List.length hs = 8%nat ->
  (let '(bestStart, bestLen) := scanRuns 8 hs 0 (-1) 0 in
   if bestStart =? -1 then Some (join ":" (map toString16 hs))
   else
     let before := map toString16 (firstn (Z.to_nat bestStart) hs) in
     let after := map toString16 (skipn (Z.to_nat (bestStart + bestLen)) hs) in
     if Nat.eqb (List.length before) 0 && Nat.eqb (List.length after) 0 then Some "::"
     else
       let left := join ":" before in
       let right := join ":" after in
       if isEmpty left then Some ("::" ++ right)
       else if isEmpty right then Some (left ++ "::")
       else Some (left ++ "::" ++ right)) = Some out ->
  (noLongRun hs
   /\ out = join ":" (map toString16 hs)
   /\ countDoubleColon out = 0%nat)
  \/ (exists s len,
        leftmostLongest hs s len
        /\ out = join ":" (map toString16 (firstn s hs)) ++ "::"
                 ++ join ":" (map toString16 (skipn (s + len) hs))
        /\ countDoubleColon out = 1%nat).
Proof.
  intros Hlen Hout.
  pose proof (scanFindsRun_all hs Hlen) as Hscan.
  unfold scanFindsRun in Hscan.
  destruct (scanRuns 8 hs 0 (-1) 0) as [bs bl].
  destruct (bs =? -1).
  - left. apply Some_eq in Hout. symmetry in Hout.
    split; [apply noLongRunb_true; exact Hscan|].
    split; [exact Hout|]. rewrite Hout. apply join_hex_facts.
  - right. apply andb_true_iff in Hscan. destruct Hscan as [Hscan Hrun].
    apply andb_true_iff in Hscan. destruct Hscan as [Hbs Hbl].
    apply Z.leb_le in Hbs, Hbl.
    apply leftmostLongestb_true in Hrun.
    apply compressed_text in Hout.
    exists (Z.to_nat bs), (Z.to_nat bl).
    rewrite <- Z2Nat.inj_add by assumption.
    split; [exact Hrun|]. split; [exact Hout|].
    rewrite Hout. apply compressed_one_doubleColon.
Qed.

(** C7. [bigIntToIpv6] compresses the leftmost of the longest runs of two
    or more zero hextets and nothing else, writes [::] at most once, and
    writes the zero address as [::]. *)
Theorem bigIntToIpv6_compression (n : Z) :
  0 <= n < 2 ^ 128 ->
  exists out,
    bigIntToIpv6 n = Some out
    /\ (countDoubleColon out <= 1)%nat
    /\ (n = 0 -> out = "::")
    /\ ((noLongRun (hextets n)
         /\ out = join ":" (map toString16 (hextets n))
         /\ countDoubleColon out = 0%nat)
        \/ (exists s len,
              leftmostLongest (hextets n) s len
              /\ out = join ":" (map toString16 (firstn s (hextets n))) ++ "::"
                       ++ join ":" (map toString16 (skipn (s + len) (hextets n)))
              /\ countDoubleColon out = 1%nat)).
Proof.
  intros Hn.
  destruct (bigIntToIpv6_Some n Hn) as [out Hout]. exists out.
  split; [exact Hout|].
  assert (Hzero : n = 0 -> out = "::").
  { intros ->.
    assert (E0 : bigIntToIpv6 0 = Some "::") by (vm_compute; reflexivity).
    rewrite E0 in Hout. now apply Some_eq in Hout. }
  pose proof (compression_cases (hextets n) out (hextets_length n)) as Hcases.
  rewrite <- hextetsOf_hextets in Hcases.
  unfold bigIntToIpv6 in Hout.
  destruct ((n <? 0) || (n >? 2 ^ 128 - 1)); [discriminate|].
  specialize (Hcases Hout). rewrite hextetsOf_hextets in Hcases.
  split; [|split; assumption].
  destruct Hcases as [(_ & _ & ->)|(s & len & _ & _ & ->)]; lia.
Qed.

(** * The predicates that do not throw *)

Lemma lor_aligned (n s : Z) :
  0 <= s -> (2 ^ s | n) -> Z.lor n (2 ^ s - 1) = n + 2 ^ s - 1.
Proof.
  intros Hs [q ->].
  assert (E : 2 ^ s - 1 = Z.ones s) by (rewrite Z.ones_equiv; lia).
  pose proof (Z.add_lor_land (q * 2 ^ s) (2 ^ s - 1)) as H.
  rewrite E, Z.land_ones, Z.mod_mul in H by (try apply Z.pow_nonzero; lia).
  rewrite E. lia.
Qed.

(** For a canonical prefix the last address [containsIp] compares with is
    [network | wildcard(prefix, bits)]. *)
Lemma lastAddressOf_lor (c : NormalisedCidr) (w : Z) :
  canonical c -> wildcardFromPrefix c.(prefix) c.(bits) = Some w ->
  lastAddressOf c = Z.lor c.(network) w.
Proof.
  intros Hc Hw. apply canonical_aligned in Hc. destruct Hc as (Hp & _ & Hd).
  rewrite wildcardFromPrefix_value in Hw by assumption. injection Hw as <-.
  unfold lastAddressOf. rewrite lor_aligned by (try assumption; lia). lia.
Qed.

Lemma containsIp_parsed (c : NormalisedCidr) (ip : string) (ipInt : Z) :
  parseAddress c.(version) ip = Some ipInt ->
  containsIp c ip = (c.(network) <=? ipInt) && (ipInt <=? lastAddressOf c).
Proof.
  intros H. unfold containsIp, containsIpTry, lastAddressOf. rewrite H, shiftl_1.
  rewrite Z.geb_leb. f_equal. f_equal. lia.
Qed.

Lemma containsIp_malformed (c : NormalisedCidr) (ip : string) :
  parseAddress c.(version) ip = None -> containsIp c ip = false.
Proof. intros H. unfold containsIp, containsIpTry. now rewrite H. Qed.

Lemma classifyAddress_unparseable (address : string) :
  parseAddress (versionOf address) address = None -> classifyAddress address = [].
Proof.
  unfold classifyAddress, classifyAddressTry, versionOf, parseAddress.
  destruct (isLikelyIpv6 address); intros ->; reflexivity.
Qed.

Lemma parseCidrWithNetmask_propagates (address netmask : string) :
  parseAddress (versionOf address) address = None
  \/ parseAddress (versionOf address) netmask = None ->
  parseCidrWithNetmask address netmask = None.
Proof.
  unfold parseCidrWithNetmask. intros [H|H]; rewrite H; [reflexivity|].
  now destruct (parseAddress (versionOf address) address).
Qed.

Lemma rangeToMinimalPrefixes_propagates (start end_ : string) :
  parseAddress (versionOf start) start = None
  \/ parseAddress (versionOf start) end_ = None ->
  rangeToMinimalPrefixes start end_ = None.
Proof.
  unfold rangeToMinimalPrefixes. intros [H|H]; rewrite H; [reflexivity|].
  now destruct (parseAddress (versionOf start) start).
Qed.

Lemma parseCidr_propagates (input : string) :
  let addrStr := trim (nth 0 (split "/" (trim input)) "") in
  parseAddress (versionOf addrStr) addrStr = None -> parseCidr input = None.
Proof.
  cbv zeta. intros H. unfold parseCidr.
  destruct (negb (Nat.eqb _ 2)); [reflexivity|].
  destruct (isEmpty _ || isEmpty _); [reflexivity|].
  destruct (negb (isDigits _)); [reflexivity|].
  destruct (negb (assertIntegerInRange _ _ _)); [reflexivity|].
  now rewrite H.
Qed.

(** * Leading zeros in IPv4 octets *)

Lemma Number_leading_zero (p : string) : Number (String "0" p) = Number p.
Proof. reflexivity. Qed.

Lemma isDigits_leading_zero (p : string) :
  isDigits (String "0" p) = allChars isDigit p.
Proof. reflexivity. Qed.

Lemma isDigit_code (c : ascii) : isDigit c = true -> 48 <= code c <= 57.
Proof. unfold isDigit. lia. Qed.

Lemma isDigit_not_dot (c : ascii) : isDigit c = true -> Ascii.eqb c "." = false.
Proof.
  intros H. destruct (Ascii.eqb_spec c ".") as [->|]; [|reflexivity].
  apply isDigit_code in H. cbn in H. lia.
Qed.

Lemma isDigit_not_space (c : ascii) : isDigit c = true -> isSpace c = false.
Proof. intros H. apply isDigit_code in H. unfold isSpace. lia. Qed.

Lemma digits_no_dot (s : string) : allChars isDigit s = true -> includes "." s = false.
Proof.
  induction s as [|c s IH]; cbn; [reflexivity|].
  rewrite andb_true_iff. intros [Hc Hs]. now rewrite (isDigit_not_dot c Hc), IH.
Qed.

Lemma split_no_separator (sep : ascii) (s : string) :
  includes sep s = false -> split sep s = [s].
Proof.
  induction s as [|c s IH]; cbn; [reflexivity|].
  rewrite orb_false_iff. intros [Hc Hs]. now rewrite Hc, IH.
Qed.

Lemma split_first (sep : ascii) (a rest : string) :
  includes sep a = false ->
  split sep (a ++ String sep rest) = a :: split sep rest.
Proof.
  induction a as [|c a IH]; cbn.
  - intros _. now rewrite Ascii.eqb_refl.
  - rewrite orb_false_iff. intros [Hc Ha]. now rewrite Hc, IH.
Qed.

Lemma decimalValue_nonneg (s : string) :
  forall acc, allChars isDigit s = true -> 0 <= acc -> 0 <= decimalValue acc s.
Proof.
  induction s as [|c s IH]; intros acc; cbn; [auto|].
  rewrite andb_true_iff. intros [Hc Hs] Hacc. apply IH; [assumption|].
  apply isDigit_code in Hc. lia.
Qed.

Lemma isDigits_inv (s : string) :
  isDigits s = true -> isEmpty s = false /\ allChars isDigit s = true.
Proof.
  unfold isDigits. rewrite andb_true_iff, negb_true_iff. tauto.
Qed.

Lemma trimStart_digits (a r : string) :
  isDigits a = true -> trimStart (a ++ r) = a ++ r.
Proof.
  intros H. apply isDigits_inv in H. destruct H as [Hn Ha].
  destruct a as [|c a]; [discriminate|]. cbn in Ha |- *.
  apply andb_true_iff in Ha. destruct Ha as [Hc _].
  now rewrite (isDigit_not_space c Hc).
Qed.

Lemma trimEnd_all_digits (d : string) :
  allChars isDigit d = true -> trimEnd d = d.
Proof.
  induction d as [|c d IH]; cbn; [reflexivity|].
  rewrite andb_true_iff. intros [Hc Hd]. rewrite (IH Hd).
  destruct d; [now rewrite (isDigit_not_space c Hc)|reflexivity].
Qed.

Lemma trimEnd_digits (s d : string) :
  isDigits d = true -> trimEnd (s ++ d) = s ++ d.
Proof.
  intros H. apply isDigits_inv in H. destruct H as [Hn Hd].
  induction s as [|c s IH]; [now apply trimEnd_all_digits|].
  cbn. rewrite IH. destruct (s ++ d) eqn:E; [|reflexivity].
  destruct s; cbn in E; [subst d|]; discriminate.
Qed.

Lemma append_associative (a b c : string) : (a ++ b) ++ c = a ++ (b ++ c).
Proof. induction a as [|x a IH]; cbn; [reflexivity|now rewrite IH]. Qed.

(** Four strings of digits, each worth at most 255, joined by dots are an
    address, however many digits each of them has. *)
Lemma ipv4ToBigInt_digit_octets (a b c d : string) :
  isDigits a = true -> isDigits b = true -> isDigits c = true -> isDigits d = true ->
  Number a <= 255 -> Number b <= 255 -> Number c <= 255 -> Number d <= 255 ->
  ipv4ToBigInt (a ++ "." ++ b ++ "." ++ c ++ "." ++ d)
  = Some (((Number a * 256 + Number b) * 256 + Number c) * 256 + Number d).
Proof.
  intros Ha Hb Hc Hd La Lb Lc Ld.
  unfold ipv4ToBigInt, trim.
  rewrite trimStart_digits by assumption.
  replace (a ++ "." ++ b ++ "." ++ c ++ "." ++ d)
    with ((a ++ "." ++ b ++ "." ++ c ++ ".") ++ d)
    by (rewrite !append_associative; reflexivity).
  rewrite trimEnd_digits by assumption.
  rewrite !append_associative.
  destruct (isDigits_inv _ Ha) as [_ Da]. destruct (isDigits_inv _ Hb) as [_ Db].
  destruct (isDigits_inv _ Hc) as [_ Dc]. destruct (isDigits_inv _ Hd) as [_ Dd].
  change ("." ++ b ++ "." ++ c ++ "." ++ d) with (String "." (b ++ "." ++ c ++ "." ++ d)).
  rewrite split_first by now apply digits_no_dot.
  change ("." ++ c ++ "." ++ d) with (String "." (c ++ "." ++ d)).
  rewrite split_first by now apply digits_no_dot.
  change ("." ++ d) with (String "." d).
  rewrite split_first, split_no_separator by now apply digits_no_dot.
  cbn [List.length Nat.eqb negb octetsLoop].
  rewrite Ha, Hb, Hc, Hd. cbn [negb].
  pose proof (decimalValue_nonneg a 0 Da ltac:(lia)).
  pose proof (decimalValue_nonneg b 0 Db ltac:(lia)).
  pose proof (decimalValue_nonneg c 0 Dc ltac:(lia)).
  pose proof (decimalValue_nonneg d 0 Dd ltac:(lia)).
  unfold Number in *.
  repeat match goal with
         | |- context [(?x <? 0) || (?x >? 255)] =>
             replace ((x <? 0) || (x >? 255)) with false by lia
         end.
  reflexivity.
Qed.

(** C10. [ipv4ToBigInt] accepts octets written with leading zeros:
    "010.000.000.001" parses to the same value as "10.0.0.1", because an
    octet only has to be a string of digits whose value is at most 255,
    whatever its length, and a zero in front of a string of digits changes
    neither. *)
Theorem ipv4ToBigInt_leading_zeros :
  ipv4ToBigInt "010.000.000.001" = Some 167772161
  /\ ipv4ToBigInt "10.0.0.1" = Some 167772161
  /\ (forall p, isDigits (String "0" p) = allChars isDigit p
                /\ Number (String "0" p) = Number p)
  /\ (forall a b c d,
        isDigits a = true -> isDigits b = true ->
        isDigits c = true -> isDigits d = true ->
        Number a <= 255 -> Number b <= 255 -> Number c <= 255 -> Number d <= 255 ->
        ipv4ToBigInt (a ++ "." ++ b ++ "." ++ c ++ "." ++ d)
        = Some (((Number a * 256 + Number b) * 256 + Number c) * 256 + Number d)).
Proof.
  split; [vm_compute; reflexivity|]. split; [vm_compute; reflexivity|].
  split; [intros p; split; reflexivity|].
  apply ipv4ToBigInt_digit_octets.
Qed.

(** * The mask invariant *)

(** ** The parsers return values of their width *)

Lemma octetsLoop_bound (parts : list string) :
  forall n r k,
    0 <= k -> 0 <= n < 256 ^ k -> octetsLoop parts n = Some r ->
    0 <= r < 256 ^ (k + Z.of_nat (List.length parts)).
Proof.
  induction parts as [|p rest IH]; intros n r k Hk Hn; cbn [octetsLoop List.length].
  - intros [= <-]. now rewrite Z.add_0_r.
  - destruct (negb (isDigits p)); [discriminate|].
    destruct (Z.ltb_spec (Number p) 0); [discriminate|].
    destruct (Z.gtb_spec (Number p) 255); [discriminate|].
    cbn [orb]. intros E.
    apply (IH _ _ (k + 1)) in E; [|lia|].
    + replace (k + Z.of_nat (S (List.length rest)))
        with (k + 1 + Z.of_nat (List.length rest)) by lia. exact E.
    + rewrite Z.pow_add_r, Z.pow_1_r by lia. lia.
Qed.

Lemma ipv4ToBigInt_bound (ip : string) (r : Z) :
  ipv4ToBigInt ip = Some r -> 0 <= r < 2 ^ 32.
Proof.
  unfold ipv4ToBigInt.
  destruct (Nat.eqb_spec (List.length (split "." (trim ip))) 4) as [E|]; [|discriminate].
  cbn [negb]. intros H.
  apply (octetsLoop_bound _ _ _ 0) in H; [|lia|cbn; lia].
  rewrite E in H. exact H.
Qed.

Lemma hextetsToBigInt_bound (hs : list string) :
  forall n r k,
    0 <= k -> 0 <= n < 65536 ^ k -> hextetsToBigInt hs n = Some r ->
    0 <= r < 65536 ^ (k + Z.of_nat (List.length hs)).
Proof.
  induction hs as [|h rest IH]; intros n r k Hk Hn; cbn [hextetsToBigInt List.length].
  - intros [= <-]. now rewrite Z.add_0_r.
  - destruct (isEmpty h); [discriminate|].
    destruct (negb (isHextet h)); [discriminate|].
    destruct (Z.ltb_spec (parseInt16 h) 0); [discriminate|].
    destruct (Z.gtb_spec (parseInt16 h) 65535); [discriminate|].
    cbn [orb]. intros E.
    apply (IH _ _ (k + 1)) in E; [|lia|].
    + replace (k + Z.of_nat (S (List.length rest)))
        with (k + 1 + Z.of_nat (List.length rest)) by lia. exact E.
    + rewrite Z.shiftl_mul_pow2, Z.pow_add_r, Z.pow_1_r by lia. lia.
Qed.

Lemma hextetsToBigInt_eight (hs : list string) (r : Z) :
  List.length hs = 8%nat -> hextetsToBigInt hs 0 = Some r -> 0 <= r < 2 ^ 128.
Proof.
  intros E H. apply (hextetsToBigInt_bound _ _ _ 0) in H; [|lia|cbn; lia].
  rewrite E in H. exact H.
Qed.

Lemma ipv6ToBigInt_bound (ip : string) (r : Z) :
  ipv6ToBigInt ip = Some r -> 0 <= r < 2 ^ 128.
Proof.
  unfold ipv6ToBigInt.
  destruct (isEmpty _); [discriminate|].
  destruct (expandEmbeddedIpv4 _) as [s|]; [|discriminate].
  destruct (Nat.ltb 2 _); [discriminate|].
  destruct (Nat.eqb (List.length (splitDoubleColon s)) 1).
  - match goal with |- context [Nat.eqb (List.length ?l) 8] =>
      destruct (Nat.eqb_spec (List.length l) 8) as [E|]; [|discriminate] end.
    now apply hextetsToBigInt_eight.
  - destruct (Nat.ltb 8 _); [discriminate|].
    match goal with |- context [Nat.eqb (List.length ?l) 8] =>
      destruct (Nat.eqb_spec (List.length l) 8) as [E|]; [|discriminate] end.
    now apply hextetsToBigInt_eight.
Qed.

Lemma parseAddress_bound (v : IpVersion) (s : string) (r : Z) :
  parseAddress v s = Some r -> 0 <= r < 2 ^ bitsOf v.
Proof. destruct v; [apply ipv4ToBigInt_bound|apply ipv6ToBigInt_bound]. Qed.

(** ** parseCidr and parseCidrWithNetmask *)

Lemma parseCidr_canonical (input : string) (c : NormalisedCidr) :
  parseCidr input = Some c -> canonical c.
Proof.
  unfold parseCidr.
  destruct (negb (Nat.eqb _ 2)); [discriminate|].
  destruct (isEmpty _ || isEmpty _); [discriminate|].
  destruct (negb (isDigits _)); [discriminate|].
  destruct (negb (assertIntegerInRange _ _ _)); [discriminate|].
  destruct (parseAddress _ _) as [ip|]; [|discriminate].
  destruct (maskFromPrefix _ _) as [mask|] eqn:Hm; [|discriminate].
  intros [= <-]. now apply canonical_land.
Qed.

Lemma parseCidrWithNetmask_canonical (address netmask : string) (c : NormalisedCidr) :
  parseCidrWithNetmask address netmask = Some c -> canonical c.
Proof.
  unfold parseCidrWithNetmask.
  destruct (parseAddress _ address) as [ip|]; [|discriminate].
  destruct (parseAddress _ netmask) as [maskValue|]; [|discriminate].
  destruct (maskFromPrefix _ _) as [expected|] eqn:Hm; [|discriminate].
  destruct (Z.eqb_spec maskValue expected) as [->|]; [|discriminate].
  intros [= <-]. now apply canonical_land.
Qed.

(** ** Loops run by [iterPow] *)

Section IterPowFacts.
Context {S R : Type}.
Variable step : S -> S + R.
Variable Inv : S -> Prop.
Variable Post : R -> Prop.
Variable measure : S -> Z.

Hypothesis step_inl : forall s s', Inv s -> step s = inl s' ->
  Inv s' /\ measure s' + 1 <= measure s.
Hypothesis step_inr : forall s r, Inv s -> step s = inr r -> Post r.
Hypothesis measure_nonneg : forall s, Inv s -> 0 <= measure s.

Lemma iterPow_inl (k : nat) :
  forall s s', Inv s -> Loop.iterPow step k s = inl s' ->
    Inv s' /\ measure s' + 2 ^ Z.of_nat k <= measure s.
Proof.
  induction k as [|k IH]; intros s s' Hs; cbn [Loop.iterPow].
  - intros H. destruct (step_inl _ _ Hs H). split; [assumption|]. cbn. lia.
  - destruct (Loop.iterPow step k s) as [s1|r] eqn:E1; [|discriminate].
    intros E2.
    destruct (IH _ _ Hs E1) as [Hs1 M1].
    destruct (IH _ _ Hs1 E2) as [Hs2 M2].
    split; [assumption|].
    rewrite Nat2Z.inj_succ, Z.pow_succ_r by lia. lia.
Qed.

Lemma iterPow_inr (k : nat) :
  forall s r, Inv s -> Loop.iterPow step k s = inr r -> Post r.
Proof.
  induction k as [|k IH]; intros s r Hs; cbn [Loop.iterPow].
  - now apply step_inr.
  - destruct (Loop.iterPow step k s) as [s1|r1] eqn:E1.
    + destruct (iterPow_inl _ _ _ Hs E1) as [Hs1 _]. now apply IH.
    + intros [= <-]. now apply (IH s).
Qed.

(** With more rounds than the measure allows, the loop ends. *)
Lemma iterPow_ends (k : nat) (s : S) :
  Inv s -> measure s < 2 ^ Z.of_nat k ->
  exists r, Loop.iterPow step k s = inr r.
Proof.
  intros Hs Hm. destruct (Loop.iterPow step k s) as [s'|r] eqn:E; [|eauto].
  destruct (iterPow_inl _ _ _ Hs E) as [Hs' M].
  pose proof (measure_nonneg _ Hs'). lia.
Qed.
End IterPowFacts.

(** ** rangeToMinimalPrefixes *)

Lemma trailingZerosLoop_spec (fuel : nat) (b current : Z) :
  forall tz temp,
    0 <= tz <= b -> current = temp * 2 ^ tz ->
    let r := trailingZerosLoop fuel b tz temp in
    tz <= r <= b /\ (2 ^ r | current).
Proof.
  induction fuel as [|f IH]; intros tz temp Htz Hc; cbn [trailingZerosLoop].
  - split; [lia|]. now exists temp.
  - destruct (Z.ltb_spec tz b); cbn [andb]; [|split; [lia|now exists temp]].
    destruct (Z.eqb_spec (Z.land temp 1) 0) as [E|]; [|split; [lia|now exists temp]].
    change 1 with (Z.ones 1) in E. rewrite Z.land_ones in E by lia.
    cbn zeta in IH.
    destruct (IH (tz + 1) (Z.shiftr temp 1)) as [I1 I2]; [lia| |split; [lia|exact I2]].
    rewrite Z.shiftr_div_pow2, Z.pow_add_r by lia.
    change (2 ^ 1) with 2 in *.
    pose proof (Z.div_mod temp 2 ltac:(lia)) as D. rewrite E in D.
    rewrite Hc. rewrite D at 1. ring.
Qed.

Lemma findPrefix_spec (fuel : nat) (b current endInt : Z) :
  forall p,
    p <= b -> current <= endInt ->
    let r := findPrefix fuel b current endInt p in
    p <= r <= b /\ current + 2 ^ (b - r) - 1 <= endInt.
Proof.
  induction fuel as [|f IH]; intros p Hp Hc; cbn [findPrefix].
  - rewrite Z.sub_diag. cbn. lia.
  - destruct (Z.leb_spec p b); [|lia].
    rewrite shiftl_1.
    destruct (Z.leb_spec (current + 2 ^ (b - p) - 1) endInt); [lia|].
    destruct (Z.eq_dec p b) as [->|Hne].
    + rewrite Z.sub_diag in *. cbn in *. lia.
    + cbn zeta in IH. destruct (IH (p + 1)) as [I1 I2]; [lia|lia|]. lia.
Qed.

Lemma rangeStep_emits (v : IpVersion) (b endInt current : Z) :
  0 <= b -> 0 <= current <= endInt -> endInt < 2 ^ b ->
  let tz := trailingZerosLoop (Z.to_nat b) b 0 current in
  let p := findPrefix (S (Z.to_nat tz)) b current endInt (b - tz) in
  aligned (mkCidr v b current p)
  /\ current + 1 <= current + 2 ^ (b - p) <= endInt + 1.
Proof.
  intros Hb Hc He. cbv zeta.
  destruct (trailingZerosLoop_spec (Z.to_nat b) b current 0 current) as [T1 T2];
    [lia|cbn; lia|].
  set (tz := trailingZerosLoop (Z.to_nat b) b 0 current) in *.
  destruct (findPrefix_spec (S (Z.to_nat tz)) b current endInt (b - tz)) as [P1 P2];
    [lia|lia|].
  set (p := findPrefix (S (Z.to_nat tz)) b current endInt (b - tz)) in *.
  assert (Hs : 0 < 2 ^ (b - p)) by (apply Z.pow_pos_nonneg; lia).
  split; [|lia].
  repeat split; cbn [version bits network prefix]; try lia.
  destruct T2 as [q Hq]. exists (q * 2 ^ (tz - (b - p))).
  rewrite Hq, <- Z.mul_assoc, <- Z.pow_add_r by lia. do 2 f_equal. lia.
Qed.

Lemma rangeStep_inl (v : IpVersion) (b endInt : Z) (st st' : Z * list NormalisedCidr) :
  0 <= b -> endInt < 2 ^ b ->
  rangeInv b endInt st -> rangeStep v b endInt st = inl st' ->
  rangeInv b endInt st' /\ (endInt + 1 - fst st') + 1 <= endInt + 1 - fst st.
Proof.
  intros Hb He [Hc Hr]. destruct st as [current result]. cbn [fst snd] in *.
  unfold rangeStep.
  destruct (Z.leb_spec current endInt); [|discriminate].
  destruct (rangeStep_emits v b endInt current Hb ltac:(lia) He) as [Ha Hn].
  rewrite shiftl_1.
  remember (findPrefix _ _ _ _ _) as p.
  destruct (_ =? 0); [discriminate|].
  intros [= <-]. unfold rangeInv. cbn [fst snd]. split; [|lia].
  split; [lia|]. apply Forall_app. split; [assumption|]. now constructor.
Qed.

Lemma rangeStep_inr (v : IpVersion) (b endInt : Z) (st : Z * list NormalisedCidr)
    (result : list NormalisedCidr) :
  0 <= b -> endInt < 2 ^ b ->
  rangeInv b endInt st -> rangeStep v b endInt st = inr result ->
  Forall aligned result.
Proof.
  intros Hb He [Hc Hr]. destruct st as [current res]. cbn [fst snd] in *.
  unfold rangeStep.
  destruct (Z.leb_spec current endInt); [|now intros [= <-]].
  destruct (rangeStep_emits v b endInt current Hb ltac:(lia) He) as [Ha Hn].
  rewrite shiftl_1.
  remember (findPrefix _ _ _ _ _) as p.
  destruct (_ =? 0); [|discriminate].
  intros [= <-]. apply Forall_app. split; [assumption|]. now constructor.
Qed.

Lemma rangeLoop_aligned (v : IpVersion) (b endInt startInt : Z) (k : nat)
    (result : list NormalisedCidr) :
  0 <= b -> endInt < 2 ^ b -> 0 <= startInt <= endInt + 1 ->
  Loop.iterPow (rangeStep v b endInt) k (startInt, []) = inr result ->
  Forall aligned result.
Proof.
  intros Hb He Hs.
  apply (iterPow_inr (rangeStep v b endInt) (rangeInv b endInt)
           (Forall aligned) (fun st => endInt + 1 - fst st)).
  - intros s s'. apply rangeStep_inl; assumption.
  - intros s r. apply rangeStep_inr; assumption.
  - split; [exact Hs|constructor].
Qed.

Lemma rangeLoop_ends (v : IpVersion) (b endInt startInt : Z) (k : nat) :
  0 <= b -> endInt < 2 ^ b -> 0 <= startInt <= endInt + 1 ->
  endInt + 1 - startInt < 2 ^ Z.of_nat k ->
  exists result, Loop.iterPow (rangeStep v b endInt) k (startInt, []) = inr result.
Proof.
  intros Hb He Hs Hk.
  apply (iterPow_ends (rangeStep v b endInt) (rangeInv b endInt)
           (fun st => endInt + 1 - fst st)).
  - intros s s'. apply rangeStep_inl; assumption.
  - intros s [H _]. lia.
  - split; [exact Hs|constructor].
  - exact Hk.
Qed.

Lemma rangeToMinimalPrefixes_canonical (start end_ : string) (l : list NormalisedCidr) :
  rangeToMinimalPrefixes start end_ = Some l -> Forall canonical l.
Proof.
  unfold rangeToMinimalPrefixes.
  set (v := versionOf start).
  destruct (parseAddress v start) as [startInt|] eqn:Es; [|discriminate].
  destruct (parseAddress v end_) as [endInt|] eqn:Ee; [|discriminate].
  apply parseAddress_bound in Es, Ee.
  destruct (Z.gtb_spec startInt endInt); [discriminate|].
  destruct (Loop.iterPow _ _ _) as [|result] eqn:E; [discriminate|].
  intros El. apply Some_eq in El. subst l.
  assert (Hb : 0 <= bitsOf v) by (destruct v; cbn; lia).
  apply rangeLoop_aligned in E; [|lia|lia|lia].
  eapply Forall_impl; [|exact E]. intros c. apply canonical_aligned.
Qed.

(** The rounds given to the loop are enough: a range between two addresses
    that parse always has its list of prefixes. *)
Lemma rangeToMinimalPrefixes_total (start end_ : string) (startInt endInt : Z) :
  parseAddress (versionOf start) start = Some startInt ->
  parseAddress (versionOf start) end_ = Some endInt ->
  startInt <= endInt ->
  exists l, rangeToMinimalPrefixes start end_ = Some l.
Proof.
  intros Es Ee Hle. unfold rangeToMinimalPrefixes. rewrite Es, Ee.
  set (v := versionOf start) in *.
  apply parseAddress_bound in Es, Ee.
  destruct (Z.gtb_spec startInt endInt); [lia|].
  assert (Hb : 0 <= bitsOf v) by (destruct v; cbn; lia).
  assert (Hw : 2 ^ bitsOf v < 2 ^ Z.of_nat 129) by (destruct v; cbn; lia).
  destruct (rangeLoop_ends v (bitsOf v) endInt startInt 129) as [r Hr];
    [lia|lia|lia|lia|].
  rewrite Hr. eexists. reflexivity.
Qed.

(** ** The transformations *)

Lemma aligned_subblock (v : IpVersion) (b n p k i : Z) :
  aligned (mkCidr v b n p) -> 0 <= k -> p + k <= b -> 0 <= i < 2 ^ k ->
  aligned (mkCidr v b (n + i * 2 ^ (b - (p + k))) (p + k)).
Proof.
  intros (Hp & Hn & [q Hq]) Hk Hpk Hi. cbn [version bits network prefix] in *.
  set (s := b - (p + k)) in *.
  assert (Hs : 0 < 2 ^ s) by (apply Z.pow_pos_nonneg; unfold s; lia).
  assert (Hps : 2 ^ (b - p) = 2 ^ k * 2 ^ s).
  { rewrite <- Z.pow_add_r by (unfold s; lia). f_equal. unfold s. lia. }
  assert (Hb : 2 ^ b = 2 ^ p * (2 ^ k * 2 ^ s)).
  { rewrite <- Hps, <- Z.pow_add_r by lia. f_equal. lia. }
  assert (Hpp : 0 < 2 ^ p) by (apply Z.pow_pos_nonneg; lia).
  assert (Hkk : 0 < 2 ^ k) by (apply Z.pow_pos_nonneg; lia).
  rewrite Hps in Hq.
  repeat split; cbn [version bits network prefix]; try lia.
  - rewrite Hb, Hq.
    assert (0 < 2 ^ k * 2 ^ s) by nia.
    assert (q < 2 ^ p) by nia.
    assert ((q + 1) * (2 ^ k * 2 ^ s) <= 2 ^ p * (2 ^ k * 2 ^ s)) by nia.
    assert (i * 2 ^ s < 2 ^ k * 2 ^ s) by nia.
    lia.
  - exists (q * 2 ^ k + i). rewrite Hq. subst s. ring.
Qed.

Lemma splitBinary_canonical (c l r : NormalisedCidr) :
  canonical c -> splitBinary c = Some (l, r) -> canonical l /\ canonical r.
Proof.
  intros Hc. apply canonical_aligned in Hc. destruct c as [v b n p].
  unfold splitBinary. cbn [version bits network prefix].
  destruct (Z.geb_spec p b); [discriminate|].
  rewrite shiftl_1. intros [= <- <-].
  split; apply canonical_aligned.
  - pose proof (aligned_subblock v b n p 1 0 Hc) as H0.
    rewrite Z.mul_0_l, Z.add_0_r in H0. apply H0; cbn; lia.
  - pose proof (aligned_subblock v b n p 1 1 Hc) as H1.
    rewrite Z.mul_1_l in H1. apply H1; cbn; lia.
Qed.

Lemma splitIntoN_canonical (c : NormalisedCidr) (n : Z) (l : list NormalisedCidr) :
  canonical c -> splitIntoN c n = Some l -> Forall canonical l.
Proof.
  intros Hc H. apply canonical_aligned in Hc.
  pose proof (splitIntoN_subBlocks _ _ _ Hc H) as Hs.
  eapply Forall_impl; [|exact Hs]. intros x [Hx _]. now apply canonical_aligned.
Qed.

Lemma mergeSiblings_canonical (a b c : NormalisedCidr) :
  mergeSiblings a b = Some c -> canonical c.
Proof.
  unfold mergeSiblings.
  destruct (negb (IpVersion_eqb _ _) || negb (_ =? _)); [discriminate|].
  destruct (negb (_ =? _)); [discriminate|].
  destruct (prefix a =? 0); [discriminate|].
  destruct (maskFromPrefix _ _) as [parentMask|] eqn:Hm; [|discriminate].
  destruct (negb (_ =? _)); [discriminate|].
  destruct (splitBinary _) as [[l r]|]; [|discriminate].
  destruct (negb _); [discriminate|].
  intros [= <-]. now apply canonical_land.
Qed.

Lemma mergePass_two (a b : NormalisedCidr) (rest : list NormalisedCidr) :
  mergePass (a :: b :: rest)
  = match mergeSiblings a b with
    | Some merged => let '(next, _) := mergePass rest in (merged :: next, true)
    | None => let '(next, changed) := mergePass (b :: rest) in (a :: next, changed)
    end.
Proof. reflexivity. Qed.

Lemma mergePass_facts (n : nat) :
  forall current, (List.length current <= n)%nat ->
    (Forall canonical current -> Forall canonical (fst (mergePass current)))
    /\ (List.length (fst (mergePass current)) <= List.length current)%nat
    /\ (snd (mergePass current) = true ->
        (List.length (fst (mergePass current)) < List.length current)%nat).
Proof.
  induction n as [|n IH]; intros current Hlen.
  - destruct current; [|cbn in Hlen; lia]. cbn. repeat split; auto; discriminate.
  - destruct current as [|a rest]; [cbn; repeat split; auto; discriminate|].
    cbn in Hlen.
    destruct (IH rest ltac:(lia)) as (R1 & R2 & R3).
    destruct rest as [|b rest'].
    + cbn. repeat split; auto; discriminate.
    + rewrite mergePass_two.
      destruct (mergeSiblings a b) as [merged|] eqn:Em.
      * destruct (IH rest' ltac:(cbn in Hlen; lia)) as (S1 & S2 & S3).
        destruct (mergePass rest') as [next ch]. cbn [fst snd List.length] in *.
        split; [|split; intros; lia].
        intros Hall. inversion Hall as [|? ? Ha Hr]; subst.
        inversion Hr as [|? ? Hb Hr']; subst.
        constructor; [now apply (mergeSiblings_canonical a b)|auto].
      * destruct (mergePass (b :: rest')) as [next ch]. cbn [fst snd List.length] in *.
        split; [|split; intros; [lia|specialize (R3 H); lia]].
        intros Hall. inversion Hall; subst. constructor; auto.
Qed.

Lemma summarizeLoop_canonical (fuel : nat) :
  forall current result,
    Forall canonical current -> summarizeLoop fuel current = Some result ->
    Forall canonical result.
Proof.
  induction fuel as [|f IH]; intros current result Hc; cbn [summarizeLoop];
    [discriminate|].
  destruct (mergePass_facts _ current (Nat.le_refl _)) as (M1 & _ & _).
  destruct (mergePass current) as [next changed]. cbn [fst] in M1.
  destruct changed.
  - apply IH. auto.
  - intros [= <-]. auto.
Qed.

Lemma summarizeLoop_ends (fuel : nat) :
  forall current, (List.length current < fuel)%nat ->
    exists result, summarizeLoop fuel current = Some result.
Proof.
  induction fuel as [|f IH]; intros current Hlen; [lia|]. cbn [summarizeLoop].
  destruct (mergePass_facts _ current (Nat.le_refl _)) as (_ & M2 & M3).
  destruct (mergePass current) as [next changed]. cbn [fst snd] in M2, M3.
  destruct changed; [|eauto].
  apply IH. specialize (M3 eq_refl). lia.
Qed.

Lemma insertByNetwork_perm (c : NormalisedCidr) (sorted : list NormalisedCidr) :
  Permutation (insertByNetwork c sorted) (c :: sorted).
Proof.
  induction sorted as [|d rest IH]; cbn; [reflexivity|].
  destruct (network d <? network c); [|reflexivity].
  rewrite IH. apply perm_swap.
Qed.

Lemma sortByNetwork_perm (cidrs : list NormalisedCidr) :
  Permutation (sortByNetwork cidrs) cidrs.
Proof.
  induction cidrs as [|c rest IH]; cbn; [reflexivity|].
  rewrite insertByNetwork_perm. now constructor.
Qed.

Lemma summarizePrefixes_canonical (cidrs result : list NormalisedCidr) :
  Forall canonical cidrs -> summarizePrefixes cidrs = Some result ->
  Forall canonical result.
Proof.
  intros Hc. unfold summarizePrefixes.
  destruct cidrs as [|c0 [|c1 rest]].
  - now intros [= <-].
  - now intros [= <-].
  - destruct (negb _); [discriminate|].
    apply summarizeLoop_canonical.
    eapply Permutation_Forall; [|exact Hc].
    symmetry. apply sortByNetwork_perm.
Qed.

(** The rounds given to the loop of [summarizePrefixes] are enough. *)
Lemma summarizePrefixes_total (c0 : NormalisedCidr) (rest : list NormalisedCidr) :
  sameFamily c0.(version) c0.(bits) (c0 :: rest) = true ->
  exists result, summarizePrefixes (c0 :: rest) = Some result.
Proof.
  intros Hf. unfold summarizePrefixes. destruct rest as [|c1 rest]; [eauto|].
  rewrite Hf. cbn [negb]. apply summarizeLoop_ends. lia.
Qed.

Lemma minimalCoveringSupernet_canonical (cidrs : list NormalisedCidr)
    (c : NormalisedCidr) :
  Forall canonical cidrs -> minimalCoveringSupernet cidrs = Some c -> canonical c.
Proof.
  intros Hc. unfold minimalCoveringSupernet.
  destruct cidrs as [|c0 [|c1 rest]]; [discriminate| |].
  - intros [= <-]. now inversion Hc.
  - destruct (negb _); [discriminate|].
    destruct (fold_left _ _ _) as [minNet maxNet].
    destruct (commonPrefixLoop _ _ _ _ _) as [p|]; [|discriminate].
    destruct (maskFromPrefix p _) as [mask|] eqn:Hm; [|discriminate].
    intros [= <-]. now apply canonical_land.
Qed.

Lemma intersectPrefixes_canonical (a b c : NormalisedCidr) :
  canonical a -> canonical b -> intersectPrefixes a b = Some c -> canonical c.
Proof.
  intros Ha Hb. unfold intersectPrefixes. rewrite !shiftl_1.
  destruct (negb (IpVersion_eqb _ _) || negb (_ =? _)) eqn:F; [discriminate|].
  apply family_test in F. destruct F as [Hv Hw].
  destruct (_ || _) eqn:Ov; [discriminate|].
  apply orb_false_iff in Ov. destruct Ov as [O1 O2]. apply Z.ltb_ge in O1, O2.
  destruct (containsPrefix a b) eqn:Cab; [now intros [= <-]|].
  destruct (containsPrefix b a) eqn:Cba; [now intros [= <-]|].
  exfalso. apply canonical_aligned in Ha, Hb.
  destruct (Z.le_gt_cases (prefix a) (prefix b)).
  - rewrite aligned_overlap_contains in Cab; try assumption; [discriminate|lia|lia].
  - rewrite aligned_overlap_contains in Cba; try assumption;
      [discriminate|congruence|congruence|lia|lia|lia].
Qed.

Lemma allocateLoop_canonical (parent : NormalisedCidr) (sortedRequests : list VlsmRequest) :
  aligned parent ->
  forall allocations allocated result,
    Forall (fun a => aligned a.(cidr)) allocations ->
    allocateLoop parent sortedRequests allocations allocated = Some result ->
    Forall (fun a => aligned a.(cidr)) result.
Proof.
  intros Hp.
  induction sortedRequests as [|req rest IH]; intros allocations allocated result Hall; cbn.
  - now intros [= <-].
  - destruct (allocateOne parent req allocated (version parent)) as [[c|]|] eqn:Ho;
      [| |discriminate]; apply IH; apply Forall_app; split; try assumption;
      constructor; auto.
    destruct (allocateOne_Some _ _ _ _ _ Hp Ho) as [[Hc _] _]. exact Hc.
Qed.

Lemma allocateVlsm_canonical (parent : NormalisedCidr) (requests : list VlsmRequest)
    (strategy : VlsmStrategy) (reserved : list NormalisedCidr)
    (allocations : list VlsmAllocation) :
  canonical parent ->
  allocateVlsm parent requests strategy reserved = Some allocations ->
  Forall (fun a => canonical a.(cidr)) allocations.
Proof.
  intros Hc. apply canonical_aligned in Hc. unfold allocateVlsm.
  destruct (negb _); [discriminate|]. intros H.
  apply (allocateLoop_canonical parent _ Hc [] reserved) in H; [|constructor].
  eapply Forall_impl; [|exact H]. intros a. apply canonical_aligned.
Qed.

(** C4. Every prefix a core function produces satisfies the mask
    invariant: the parsers by construction, the transformations, the
    intersection and the allocator as soon as the prefixes they are given
    satisfy it. *)
Theorem mask_invariant :
  (forall input c, parseCidr input = Some c -> canonical c)
  /\ (forall address netmask c,
        parseCidrWithNetmask address netmask = Some c -> canonical c)
  /\ (forall start end_ l,
        rangeToMinimalPrefixes start end_ = Some l -> Forall canonical l)
  /\ (forall c l r,
        canonical c -> splitBinary c = Some (l, r) -> canonical l /\ canonical r)
  /\ (forall c n l, canonical c -> splitIntoN c n = Some l -> Forall canonical l)
  /\ (forall a b c, mergeSiblings a b = Some c -> canonical c)
  /\ (forall cidrs l,
        Forall canonical cidrs -> summarizePrefixes cidrs = Some l ->
        Forall canonical l)
  /\ (forall cidrs c,
        Forall canonical cidrs -> minimalCoveringSupernet cidrs = Some c ->
        canonical c)
  /\ (forall a b c,
        canonical a -> canonical b -> intersectPrefixes a b = Some c ->
        canonical c)
  /\ (forall parent requests strategy reserved allocations,
        canonical parent ->
        allocateVlsm parent requests strategy reserved = Some allocations ->
        Forall (fun a => canonical a.(cidr)) allocations).
Proof.
  split; [apply parseCidr_canonical|].
  split; [apply parseCidrWithNetmask_canonical|].
  split; [apply rangeToMinimalPrefixes_canonical|].
  split; [apply splitBinary_canonical|].
  split; [apply splitIntoN_canonical|].
  split; [apply mergeSiblings_canonical|].
  split; [apply summarizePrefixes_canonical|].
  split; [apply minimalCoveringSupernet_canonical|].
  split; [apply intersectPrefixes_canonical|].
  apply allocateVlsm_canonical.
Qed.

(** * The functions that keep a failure from their caller *)

Lemma parseCidrSafe_failed (input : string) :
  parseCidr input = None -> parseCidrSafe input = NotOk.
Proof. unfold parseCidrSafe. now intros ->. Qed.

Lemma parseCidrSafe_value (input : string) (c : NormalisedCidr) :
  parseCidr input = Some c -> parseCidrSafe input = Ok c.
Proof. unfold parseCidrSafe. now intros ->. Qed.

(** The [catch] of [summarizePrefixes]: two neighbours that
    [mergeSiblings] fails on are both kept. *)
Lemma summarizePrefixes_keeps (a b : NormalisedCidr) :
  sameFamily a.(version) a.(bits) [a; b] = true ->
  a.(network) <= b.(network) ->
  mergeSiblings a b = None ->
  summarizePrefixes [a; b] = Some [a; b].
Proof.
  intros Hf Hn Hm. unfold summarizePrefixes. rewrite Hf.
  cbn [negb sortByNetwork fold_right insertByNetwork].
  destruct (Z.ltb_spec (network b) (network a)); [lia|].
  cbn [List.length summarizeLoop]. rewrite mergePass_two, Hm. reflexivity.
Qed.

Lemma longestPrefixMatch_malformed (ip : string) (cidrs : list NormalisedCidr) :
  (forall v, parseAddress v ip = None) ->
  Service.longestPrefixMatch ip cidrs = None.
Proof.
  intros Hip. unfold Service.longestPrefixMatch.
  generalize (-1). induction cidrs as [|c rest IH]; intros best; [reflexivity|].
  cbn [fold_left Service.matchStep].
  rewrite (containsIp_malformed c ip (Hip (version c))). apply IH.
Qed.

(** C8, as the code has it. [containsIp] answers [false] on a text its
    parser rejects and otherwise tells whether [network <= ip <= last];
    [classifyAddress] answers the empty list on a text its parser rejects;
    neither throws.  [parseCidr], [parseCidrWithNetmask] and
    [rangeToMinimalPrefixes] fail when the parser does.  The two
    predicates are not the only functions that answer with a default:
    [parseCidrSafe] answers [{ ok: false }] whenever [parseCidr] fails,
    [summarizePrefixes] keeps two neighbours on which [mergeSiblings]
    fails and returns a list for every input of one family, and
    [longestPrefixMatch] answers [null] on a text that no parser accepts. *)
Theorem safe_predicates_degrade :
  (forall c ip, parseAddress c.(version) ip = None -> containsIp c ip = false)
  /\ (forall c ip ipInt, parseAddress c.(version) ip = Some ipInt ->
        containsIp c ip = (c.(network) <=? ipInt) && (ipInt <=? lastAddressOf c))
  /\ (forall c w, canonical c -> wildcardFromPrefix c.(prefix) c.(bits) = Some w ->
        lastAddressOf c = Z.lor c.(network) w)
  /\ (forall address, parseAddress (versionOf address) address = None ->
        classifyAddress address = [])
  /\ (forall input,
        let addrStr := trim (nth 0 (split "/" (trim input)) "") in
        parseAddress (versionOf addrStr) addrStr = None -> parseCidr input = None)
  /\ (forall address netmask,
        parseAddress (versionOf address) address = None
        \/ parseAddress (versionOf address) netmask = None ->
        parseCidrWithNetmask address netmask = None)
  /\ (forall start end_,
        parseAddress (versionOf start) start = None
        \/ parseAddress (versionOf start) end_ = None ->
        rangeToMinimalPrefixes start end_ = None)
  /\ (forall input, parseCidr input = None -> parseCidrSafe input = NotOk)
  /\ (forall a b,
        sameFamily a.(version) a.(bits) [a; b] = true ->
        a.(network) <= b.(network) ->
        mergeSiblings a b = None ->
        summarizePrefixes [a; b] = Some [a; b])
  /\ (forall c0 rest,
        sameFamily c0.(version) c0.(bits) (c0 :: rest) = true ->
        exists result, summarizePrefixes (c0 :: rest) = Some result)
  /\ (forall ip cidrs,
        (forall v, parseAddress v ip = None) ->
        Service.longestPrefixMatch ip cidrs = None).
Proof.
  repeat apply conj.
  - apply containsIp_malformed.
  - apply containsIp_parsed.
  - apply lastAddressOf_lor.
  - apply classifyAddress_unparseable.
  - apply parseCidr_propagates.
  - apply parseCidrWithNetmask_propagates.
  - apply rangeToMinimalPrefixes_propagates.
  - apply parseCidrSafe_failed.
  - apply summarizePrefixes_keeps.
  - apply summarizePrefixes_total.
  - apply longestPrefixMatch_malformed.
Qed.

(** C8, as the specification states it, fails: [summarizePrefixes] is
    neither of the two predicates, and on 10.0.0.0/40 and 10.0.1.0/40,
    whose prefix length [mergeSiblings] fails on, it returns its input
    instead of failing. *)
Lemma summarizePrefixes_degrades_counterexample :
  ~ (forall a b,
       sameFamily a.(version) a.(bits) [a; b] = true ->
       a.(network) <= b.(network) ->
       mergeSiblings a b = None ->
       summarizePrefixes [a; b] = None).
Proof.
  intros H.
  specialize (H (mkCidr V4 32 167772160 40) (mkCidr V4 32 167772416 40)
                eq_refl ltac:(cbn; lia) eq_refl).
  vm_compute in H. discriminate H.
Qed.

(** * Instances *)

Lemma sample_canonical :
  canonical net_10_0_0_0_8 /\ canonical net_10_1_0_0_16
  /\ canonical net_10_0_0_0_16 /\ canonical net_192_168_0_0_24
  /\ canonical host_192_168_1_1_32.
Proof.
  repeat split; (eexists; split; [vm_compute; reflexivity|reflexivity]).
Defined.

Lemma sample_allocation :
  allocateVlsm net_192_168_0_0_24 sampleRequests LARGEST_FIRST [] = Some sampleAllocations.
Proof. vm_compute. reflexivity. Defined.

(** C9 on 10.0.0.0/8 and 10.1.0.0/16, which overlap. *)
Lemma detectOverlaps_never_partial_witness :
  Forall canonical [net_10_0_0_0_8; net_10_1_0_0_16]
  /\ (detectOverlaps [net_10_0_0_0_8; net_10_1_0_0_16]).(hasOverlap) = true
  /\ forall o, In o (detectOverlaps [net_10_0_0_0_8; net_10_1_0_0_16]).(overlaps) ->
       o.(ov_type) <> PARTIAL
       /\ (o.(ov_type) = IDENTICAL \/ o.(ov_type) = A_CONTAINS_B
           \/ o.(ov_type) = B_CONTAINS_A).
Proof.
  assert (H : Forall canonical [net_10_0_0_0_8; net_10_1_0_0_16]).
  { repeat constructor; apply sample_canonical. }
  split; [exact H|]. split; [reflexivity|].
  exact (detectOverlaps_never_partial _ H).
Defined.

(** Without the mask invariant the [PARTIAL] branch is taken: 10.0.0.5/24,
    whose host bits are not cleared, against 10.0.1.0/24. *)
Example detectOverlaps_partial_when_not_canonical :
  (detectOverlaps [mkCidr V4 32 167772165 24; mkCidr V4 32 167772416 24]).(overlaps)
  = [mkOverlap (mkCidr V4 32 167772165 24) (mkCidr V4 32 167772416 24) PARTIAL].
Proof. reflexivity. Qed.

(** C5 on 10.0.0.0/16 and on the host prefix 192.168.1.1/32. *)
Lemma mergeSiblings_splitBinary_witness :
  (exists l r, splitBinary net_10_0_0_0_16 = Some (l, r)
               /\ mergeSiblings l r = Some net_10_0_0_0_16)
  /\ splitBinary host_192_168_1_1_32 = None.
Proof.
  split.
  - apply (proj1 (mergeSiblings_splitBinary net_10_0_0_0_16)).
    + apply sample_canonical.
    + reflexivity.
  - apply (proj2 (mergeSiblings_splitBinary host_192_168_1_1_32)).
    cbn. discriminate.
Defined.

(** C2 on two requests of one size around a bigger one: the bigger one is
    served first, the other two in the order of the input. *)
Lemma allocateVlsm_sorted_order_witness :
  map alloc_name tiedAllocations = ["big"; "first"; "second"]
  /\ List.length tiedAllocations = List.length tiedRequests
  /\ Permutation (map allocationKey tiedAllocations) (map requestKey tiedRequests)
  /\ exists served,
       map allocationKey tiedAllocations = map requestKey served
       /\ stableSortOf V4 LARGEST_FIRST tiedRequests served
       /\ forall other, stableSortOf V4 LARGEST_FIRST tiedRequests other ->
                        other = served.
Proof.
  pose proof (allocateVlsm_sorted_order net_192_168_0_0_24 tiedRequests
                LARGEST_FIRST [] tiedAllocations eq_refl) as (H1 & H2 & H3).
  split; [reflexivity|]. split; [exact H1|]. split; [exact H2|].
  apply H3. repeat constructor. cbn. lia.
Defined.

(** C6 on the sample requests: both are placed, and apart. *)
Lemma allocateVlsm_no_overlap_witness :
  List.length (allocatedCidrs sampleAllocations) = 2%nat
  /\ (detectOverlaps (allocatedCidrs sampleAllocations)).(hasOverlap) = false.
Proof.
  split; [reflexivity|].
  apply (allocateVlsm_no_overlap net_192_168_0_0_24 sampleRequests LARGEST_FIRST []).
  - apply sample_canonical.
  - exact sample_allocation.
Defined.

(** C3 on 10.0.0.0/31, 10.0.0.0/24 and 2001:db8::1/128. *)
Lemma subnetMeta_edge_table_witness :
  (exists m w, Calculations.subnetMeta 167772160 31 V4 32 = Some m
               /\ wildcardFromPrefix 31 32 = Some w
               /\ m.(Calculations.usableCount) = 2
               /\ shows V4 m.(Calculations.lastUsable) (Z.lor 167772160 w))
  /\ (exists m w, Calculations.subnetMeta 167772160 24 V4 32 = Some m
                  /\ wildcardFromPrefix 24 32 = Some w
                  /\ shows V4 m.(Calculations.firstUsable) 167772161
                  /\ shows V4 m.(Calculations.lastUsable) (Z.lor 167772160 w - 1))
  /\ (exists m, Calculations.subnetMeta 42540766411282592856903984951653826561 128 V6 128
                = Some m
                /\ m.(Calculations.broadcast) = None
                /\ m.(Calculations.usableCount) = m.(Calculations.addressCount)).
Proof.
  split; [|split].
  - destruct (subnetMeta_edge_table V4 167772160 31)
      as (m & w & Hm & Hw & _ & _ & H4 & _); [cbn; lia|cbn; lia|intros _; lia|].
    destruct (H4 eq_refl) as (_ & _ & H31 & _).
    destruct (H31 eq_refl) as (_ & Hu & _ & Hl).
    exists m, w. auto.
  - destruct (subnetMeta_edge_table V4 167772160 24)
      as (m & w & Hm & Hw & _ & _ & H4 & _); [cbn; lia|cbn; lia|intros _ _; lia|].
    destruct (H4 eq_refl) as (_ & _ & _ & H30).
    destruct (H30 ltac:(lia)) as (_ & Hf & Hl).
    exists m, w. auto.
  - destruct (subnetMeta_edge_table V6 42540766411282592856903984951653826561 128)
      as (m & w & Hm & _ & _ & _ & _ & H6); [cbn; lia|cbn; lia|discriminate|].
    destruct (H6 eq_refl) as (Hb & Hu & _).
    exists m. auto.
Defined.

(** C7 on 1:0:0:1:0:0:0:1, which has a run of two and a run of three. *)
Lemma bigIntToIpv6_compression_witness :
  exists out,
    bigIntToIpv6 5192296858534846075274570038771713 = Some out
    /\ (countDoubleColon out <= 1)%nat.
Proof.
  destruct (bigIntToIpv6_compression 5192296858534846075274570038771713)
    as (out & Ho & Hc & _); [lia|].
  exists out. auto.
Defined.

Example bigIntToIpv6_longest_run :
  bigIntToIpv6 5192296858534846075274570038771713 = Some "1:0:0:1::1".
Proof. vm_compute. reflexivity. Qed.

Example bigIntToIpv6_leftmost_run :
  bigIntToIpv6 5192296858534846075556045015482369 = Some "1::1:1:0:0:1".
Proof. vm_compute. reflexivity. Qed.

Example bigIntToIpv6_single_zero_kept :
  bigIntToIpv6 5192376086697360339893642854465537 = Some "1:1:0:1:1:1:1:1".
Proof. vm_compute. reflexivity. Qed.

(** C8 on a text that is not an address, on 10.1.2.3, and on 10.0.0.0/24
    with 10.0.2.0/24, which are not siblings. *)
Lemma safe_predicates_degrade_witness :
  containsIp net_10_0_0_0_8 "10.1.2" = false
  /\ containsIp net_10_0_0_0_8 "10.1.2.3"
     = (net_10_0_0_0_8.(network) <=? 167838211)
       && (167838211 <=? lastAddressOf net_10_0_0_0_8)
  /\ classifyAddress "not an address" = []
  /\ parseCidr "10.1.2/8" = None
  /\ parseCidrSafe "10.1.2/8" = NotOk
  /\ summarizePrefixes [mkCidr V4 32 167772160 24; mkCidr V4 32 167772672 24]
     = Some [mkCidr V4 32 167772160 24; mkCidr V4 32 167772672 24]
  /\ Service.longestPrefixMatch "10.1.2" [net_10_0_0_0_8; net_10_1_0_0_16] = None.
Proof.
  destruct safe_predicates_degrade
    as (H1 & H2 & _ & H4 & H5 & _ & _ & H8 & H9 & _ & H11).
  repeat apply conj.
  - apply H1. reflexivity.
  - apply H2. reflexivity.
  - apply H4. reflexivity.
  - apply H5. reflexivity.
  - apply H8. reflexivity.
  - apply H9; [reflexivity|cbn; lia|reflexivity].
  - apply H11. intros []; reflexivity.
Defined.

(** C4 on a parsed prefix, a split and the sample allocation. *)
Lemma mask_invariant_witness :
  canonical (mkCidr V4 32 3232235776 24)
  /\ Forall (fun a => canonical a.(cidr)) sampleAllocations.
Proof.
  destruct mask_invariant as (H1 & _ & _ & _ & _ & _ & _ & _ & _ & H10).
  split.
  - apply (H1 "192.168.1.5/24"). vm_compute. reflexivity.
  - apply (H10 net_192_168_0_0_24 sampleRequests LARGEST_FIRST []).
    + apply sample_canonical.
    + exact sample_allocation.
Defined.

(** C10 on the octets 010, 000, 000 and 001. *)
Lemma ipv4ToBigInt_leading_zeros_witness :
  ipv4ToBigInt ("010" ++ "." ++ "000" ++ "." ++ "000" ++ "." ++ "001")
  = Some (((10 * 256 + 0) * 256 + 0) * 256 + 1).
Proof.
  destruct ipv4ToBigInt_leading_zeros as (_ & _ & _ & H).
  apply (H "010" "000" "000" "001"); (reflexivity || (cbn; lia)).
Defined.

(** * The scenarios of the specification *)

Example scenario_parseCidr :
  parseCidr "192.168.1.5/24" = Some (mkCidr V4 32 0xC0A80100 24).
Proof. vm_compute. reflexivity. Qed.

Example scenario_meta_31 :
  option_map (fun m => (m.(Calculations.addressCount), m.(Calculations.usableCount),
                        m.(Calculations.firstUsable), m.(Calculations.lastUsable)))
    (Calculations.subnetMeta 167772160 31 V4 32)
  = Some (2, 2, Some "10.0.0.0", Some "10.0.0.1").
Proof. vm_compute. reflexivity. Qed.

Example scenario_meta_128 :
  option_map (fun m => (m.(Calculations.addressCount), m.(Calculations.usableCount),
                        m.(Calculations.broadcast), m.(Calculations.cidr)))
    (Calculations.subnetMeta 42540766411282592856903984951653826561 128 V6 128)
  = Some (1, 1, None, "2001:db8::1/128").
Proof. vm_compute. reflexivity. Qed.

Example scenario_splitIntoN :
  option_map (map (fun c => formatCidr c.(version) c.(network) c.(prefix)))
    (splitIntoN (mkCidr V4 32 0xC0A80100 24) 4)
  = Some [Some "192.168.1.0/26"; Some "192.168.1.64/26";
          Some "192.168.1.128/26"; Some "192.168.1.192/26"].
Proof. vm_compute. reflexivity. Qed.

Example scenario_allocateVlsm :
  option_map (map (fun a => (a.(alloc_name), a.(allocated),
                             formatCidr V4 a.(cidr).(network) a.(cidr).(prefix))))
    (allocateVlsm net_192_168_0_0_24
       [mkRequest "LAN1" (Some 50) None None; mkRequest "LAN2" (Some 25) None None;
        mkRequest "LAN3" (Some 10) None None]
       LARGEST_FIRST [])
  = Some [("LAN1", true, Some "192.168.0.0/26"); ("LAN2", true, Some "192.168.0.64/27");
          ("LAN3", true, Some "192.168.0.96/28")].
Proof. vm_compute. reflexivity. Qed.

Example scenario_mergeSiblings :
  mergeSiblings (mkCidr V4 32 0xC0A80100 25) (mkCidr V4 32 0xC0A80180 25)
  = Some (mkCidr V4 32 0xC0A80100 24)
  /\ mergeSiblings (mkCidr V4 32 0xC0A80100 25) (mkCidr V4 32 0xC0A80200 25) = None.
Proof. split; vm_compute; reflexivity. Qed.

Example scenario_rangeToMinimalPrefixes :
  option_map (map (fun c => formatCidr c.(version) c.(network) c.(prefix)))
    (rangeToMinimalPrefixes "10.0.0.1" "10.0.0.17")
  = Some [Some "10.0.0.1/32"; Some "10.0.0.2/31"; Some "10.0.0.4/30";
          Some "10.0.0.8/29"; Some "10.0.0.16/31"].
Proof. vm_compute. reflexivity. Qed.

Example scenario_summarizePrefixes :
  summarizePrefixes [mkCidr V4 32 167772160 26; mkCidr V4 32 167772224 26;
                     mkCidr V4 32 167772288 26; mkCidr V4 32 167772352 26]
  = Some [mkCidr V4 32 167772160 24].
Proof. vm_compute. reflexivity. Qed.

(** * Further properties of the code *)

(** ** Masks *)

Lemma land_mask_floor (n p b : Z) :
  0 <= p <= b -> 0 <= n < 2 ^ b ->
  Z.land n (2 ^ b - 2 ^ (b - p)) = n - n mod 2 ^ (b - p).
Proof.
  intros Hp Hn.
  rewrite mask_as_shifted_ones, land_shifted_ones by lia.
  assert (Hs : 0 < 2 ^ (b - p)) by (apply Z.pow_pos_nonneg; lia).
  assert (Hb : 2 ^ b = 2 ^ p * 2 ^ (b - p))
    by (rewrite <- Z.pow_add_r by lia; f_equal; lia).
  rewrite Z.shiftr_div_pow2 by lia.
  rewrite Z.mod_small.
  - pose proof (Z.div_mod n (2 ^ (b - p)) ltac:(lia)). lia.
  - split; [apply Z.div_pos; lia|].
    apply Z.div_lt_upper_bound; lia.
Qed.

Lemma lnot_wildcard_mask (p b : Z) :
  0 <= p <= b ->
  Z.land (Z.lnot (2 ^ (b - p) - 1)) (2 ^ b - 1) = 2 ^ b - 2 ^ (b - p).
Proof.
  intros H.
  rewrite (mask_as_shifted_ones p b) by lia.
  replace (2 ^ (b - p) - 1) with (Z.ones (b - p)) by (rewrite Z.ones_equiv; lia).
  replace (2 ^ b - 1) with (Z.ones b) by (rewrite Z.ones_equiv; lia).
  apply Z.bits_inj'. intros k Hk.
  rewrite Z.land_spec, Z.lnot_spec by lia.
  destruct (Z.ltb_spec k (b - p)).
  - rewrite Z.ones_spec_low, Z.shiftl_spec_low by lia. reflexivity.
  - rewrite (Z.ones_spec_high (b - p)), Z.shiftl_spec by lia. cbn [negb andb].
    destruct (Z.ltb_spec k b).
    + rewrite !Z.ones_spec_low by lia. reflexivity.
    + rewrite !Z.ones_spec_high by lia. reflexivity.
Qed.

(** X1. A mask and the wildcard of the same prefix split the bits of the
    width between them: they have no bit in common and together give all
    ones; out of range both functions fail. *)
Theorem mask_wildcard_complement (p b : Z) :
  match maskFromPrefix p b, wildcardFromPrefix p b with
  | Some m, Some w =>
      0 <= p <= b /\ Z.land m w = 0 /\ Z.lor m w = 2 ^ b - 1 /\ m + w = 2 ^ b - 1
      /\ w = 2 ^ (b - p) - 1
  | None, None => ~ 0 <= p <= b
  | _, _ => False
  end.
Proof.
  destruct (Z.le_gt_cases 0 p) as [H0|H0];
    [destruct (Z.le_gt_cases p b) as [H1|H1]|].
  - rewrite maskFromPrefix_value, wildcardFromPrefix_value by lia.
    assert (Hs : 0 < 2 ^ (b - p)) by (apply Z.pow_pos_nonneg; lia).
    assert (Hle : 2 ^ (b - p) <= 2 ^ b) by (apply Z.pow_le_mono_r; lia).
    assert (L : Z.land (2 ^ b - 2 ^ (b - p)) (2 ^ (b - p) - 1) = 0).
    { rewrite Z.land_comm, land_mask_floor by lia.
      rewrite Z.mod_small by lia. lia. }
    pose proof (Z.add_lor_land (2 ^ b - 2 ^ (b - p)) (2 ^ (b - p) - 1)) as A.
    rewrite L in A. repeat split; lia.
  - unfold maskFromPrefix, wildcardFromPrefix, assertIntegerInRange.
    destruct (Z.gtb_spec p b); [|lia]. rewrite orb_true_r. cbn. lia.
  - unfold maskFromPrefix, wildcardFromPrefix, assertIntegerInRange.
    destruct (Z.ltb_spec p 0); [|lia]. cbn. lia.
Qed.

(** ** Containment *)

(** X2. [containsPrefix] orders the prefixes: every prefix contains itself,
    two prefixes that contain each other are the same record, and
    containment passes along a chain. *)
Theorem containsPrefix_partial_order (a b c : NormalisedCidr) :
  containsPrefix a a = true
  /\ (containsPrefix a b = true -> containsPrefix b a = true -> a = b)
  /\ (containsPrefix a b = true -> containsPrefix b c = true ->
      containsPrefix a c = true).
Proof.
  rewrite !containsPrefix_true. split; [|split].
  - repeat split; lia.
  - intros (Hv & Hw & Hp & Hn & _) (_ & _ & Hp' & Hn' & _).
    destruct a, b. cbn in *. f_equal; (assumption || lia).
  - intros (Hv & Hw & Hp & Hn & Hl) (Hv' & Hw' & Hp' & Hn' & Hl').
    repeat split; (congruence || lia).
Qed.

(** X3. An address inside a prefix is inside every prefix that contains
    it. *)
Theorem containsIp_monotone (a b : NormalisedCidr) (ip : string) :
  containsPrefix a b = true -> containsIp b ip = true -> containsIp a ip = true.
Proof.
  intros Hc. apply containsPrefix_true in Hc.
  destruct Hc as (Hv & Hw & Hp & Hn & Hl).
  unfold containsIp, containsIpTry. rewrite Hv.
  destruct (parseAddress (version b) ip) as [ipInt|]; [|discriminate].
  rewrite !shiftl_1, !andb_true_iff, !Z.geb_le, !Z.leb_le. lia.
Qed.

Lemma containsIp_monotone_witness :
  containsIp net_10_0_0_0_8 "10.1.2.3" = true.
Proof.
  apply (containsIp_monotone net_10_0_0_0_8 net_10_1_0_0_16 "10.1.2.3");
    vm_compute; reflexivity.
Defined.

(** ** Merging *)

(** What a successful [mergeSiblings] says of its arguments. *)
Lemma mergeSiblings_inv (a b c : NormalisedCidr) :
  mergeSiblings a b = Some c ->
  a.(version) = b.(version) /\ a.(bits) = b.(bits) /\ a.(prefix) = b.(prefix)
  /\ 1 <= a.(prefix) <= a.(bits)
  /\ exists P,
       P = Z.land a.(network) (2 ^ a.(bits) - 2 ^ (a.(bits) - (a.(prefix) - 1)))
       /\ P = Z.land b.(network) (2 ^ a.(bits) - 2 ^ (a.(bits) - (a.(prefix) - 1)))
       /\ c = mkCidr a.(version) a.(bits) P (a.(prefix) - 1)
       /\ ((a.(network) = P /\ b.(network) = P + 2 ^ (a.(bits) - a.(prefix)))
           \/ (a.(network) = P + 2 ^ (a.(bits) - a.(prefix)) /\ b.(network) = P)).
Proof.
  unfold mergeSiblings.
  destruct (negb (IpVersion_eqb _ _) || negb (_ =? _)) eqn:F; [discriminate|].
  apply family_test in F. destruct F as [Hv Hw].
  destruct (Z.eqb_spec (prefix a) (prefix b)) as [Hp|]; [|discriminate]. cbn [negb].
  destruct (Z.eqb_spec (prefix a) 0) as [|H0]; [discriminate|].
  destruct (maskFromPrefix _ _) as [parentMask|] eqn:Hm; [|discriminate].
  pose proof (maskFromPrefix_Some _ _ _ Hm) as Hr.
  rewrite maskFromPrefix_value in Hm by assumption. apply Some_eq in Hm. subst parentMask.
  cbn beta iota.
  destruct (Z.eqb_spec (Z.land (network a) (2 ^ bits a - 2 ^ (bits a - (prefix a - 1))))
                       (Z.land (network b) (2 ^ bits a - 2 ^ (bits a - (prefix a - 1)))))
    as [HP|]; [|discriminate]. cbn [negb].
  unfold splitBinary. cbn [prefix bits version network].
  destruct (Z.geb_spec (prefix a - 1) (bits a)) as [|Hlt]; [discriminate|].
  cbn [prefix bits version network]. rewrite shiftl_1.
  replace (bits a - (prefix a - 1 + 1)) with (bits a - prefix a) by lia.
  destruct (_ || _) eqn:V; [|discriminate]. cbn [negb].
  intros E. apply Some_eq in E. subst c.
  repeat split; try assumption; try lia.
  eexists. split; [reflexivity|]. split; [exact HP|]. split; [reflexivity|].
  rewrite orb_true_iff, !andb_true_iff, !Z.eqb_eq in V. exact V.
Qed.

Lemma mergeSiblings_intro (a b : NormalisedCidr) (P : Z) :
  a.(version) = b.(version) -> a.(bits) = b.(bits) -> a.(prefix) = b.(prefix) ->
  1 <= a.(prefix) <= a.(bits) ->
  P = Z.land a.(network) (2 ^ a.(bits) - 2 ^ (a.(bits) - (a.(prefix) - 1))) ->
  P = Z.land b.(network) (2 ^ a.(bits) - 2 ^ (a.(bits) - (a.(prefix) - 1))) ->
  (a.(network) = P /\ b.(network) = P + 2 ^ (a.(bits) - a.(prefix)))
  \/ (a.(network) = P + 2 ^ (a.(bits) - a.(prefix)) /\ b.(network) = P) ->
  mergeSiblings a b = Some (mkCidr a.(version) a.(bits) P (a.(prefix) - 1)).
Proof.
  intros Hv Hw Hp Hr Ha Hb Hn. unfold mergeSiblings.
  replace (negb (IpVersion_eqb _ _) || negb (_ =? _)) with false
    by (symmetry; now apply family_test).
  rewrite <- Hp, Z.eqb_refl. cbn [negb].
  destruct (Z.eqb_spec (prefix a) 0); [lia|].
  rewrite maskFromPrefix_value by lia. cbn beta iota.
  rewrite <- Ha, <- Hb, Z.eqb_refl. cbn [negb].
  unfold splitBinary. cbn [prefix bits version network].
  destruct (Z.geb_spec (prefix a - 1) (bits a)); [lia|].
  cbn [prefix bits version network]. rewrite shiftl_1.
  replace (bits a - (prefix a - 1 + 1)) with (bits a - prefix a) by lia.
  replace (_ || _) with true; [reflexivity|].
  symmetry. rewrite orb_true_iff, !andb_true_iff, !Z.eqb_eq. exact Hn.
Qed.

(** X4. [mergeSiblings] does not depend on the order of its arguments. *)
Theorem mergeSiblings_symmetric (a b : NormalisedCidr) :
  mergeSiblings a b = mergeSiblings b a.
Proof.
  assert (Half : forall x y c, mergeSiblings x y = Some c -> mergeSiblings y x = Some c).
  { intros x y c H. apply mergeSiblings_inv in H.
    destruct H as (Hv & Hw & Hp & Hr & P & Hx & Hy & -> & Hn).
    rewrite Hv, Hw, Hp. apply mergeSiblings_intro; try congruence; try lia.
    rewrite <- Hw, <- Hp. tauto. }
  destruct (mergeSiblings a b) as [c|] eqn:E.
  - symmetry. now apply Half.
  - destruct (mergeSiblings b a) as [c|] eqn:E'; [|reflexivity].
    apply Half in E'. congruence.
Qed.

(** X5. Two prefixes merge only when they are the two halves that
    [splitBinary] makes of the merged prefix, in either order; the merged
    prefix contains both. *)
Theorem mergeSiblings_halves (a b c : NormalisedCidr) :
  mergeSiblings a b = Some c ->
  exists l r,
    splitBinary c = Some (l, r)
    /\ ((a = l /\ b = r) \/ (a = r /\ b = l))
    /\ containsPrefix c a = true /\ containsPrefix c b = true.
Proof.
  intros H. apply mergeSiblings_inv in H.
  destruct H as (Hv & Hw & Hp & Hr & P & Ha & Hb & -> & Hn).
  rewrite splitBinary_Some by (cbn; lia). cbn [version bits network prefix].
  replace (bits a - (prefix a - 1 + 1)) with (bits a - prefix a) by lia.
  replace (prefix a - 1 + 1) with (prefix a) by lia.
  assert (Hh : 0 < 2 ^ (bits a - prefix a)) by (apply Z.pow_pos_nonneg; lia).
  assert (Hd : 2 ^ (bits a - (prefix a - 1)) = 2 * 2 ^ (bits a - prefix a)).
  { replace (bits a - (prefix a - 1)) with (Z.succ (bits a - prefix a)) by lia.
    apply Z.pow_succ_r. lia. }
  do 2 eexists. split; [reflexivity|].
  rewrite !containsPrefix_true. cbn [version bits network prefix].
  destruct a as [va wa na pa], b as [vb wb nb pb].
  cbn [version bits network prefix] in *. subst vb wb pb.
  destruct Hn as [[Hna Hnb]|[Hna Hnb]].
  - split; [left; split; f_equal; congruence|]. repeat split; lia.
  - split; [right; split; f_equal; congruence|]. repeat split; lia.
Qed.

Lemma mergeSiblings_halves_witness :
  exists l r,
    splitBinary (mkCidr V4 32 0xC0A80100 24) = Some (l, r)
    /\ ((mkCidr V4 32 0xC0A80180 25 = l /\ mkCidr V4 32 0xC0A80100 25 = r)
        \/ (mkCidr V4 32 0xC0A80180 25 = r /\ mkCidr V4 32 0xC0A80100 25 = l))
    /\ containsPrefix (mkCidr V4 32 0xC0A80100 24) (mkCidr V4 32 0xC0A80180 25) = true
    /\ containsPrefix (mkCidr V4 32 0xC0A80100 24) (mkCidr V4 32 0xC0A80100 25) = true.
Proof.
  apply (mergeSiblings_halves (mkCidr V4 32 0xC0A80180 25) (mkCidr V4 32 0xC0A80100 25)).
  vm_compute. reflexivity.
Defined.

(** The two positions an aligned block has under the mask of its parent. *)
Lemma aligned_parent_offset (c : NormalisedCidr) :
  aligned c -> 1 <= c.(prefix) ->
  exists e, (e = 0 \/ e = 1)
    /\ c.(network)
       = Z.land c.(network) (2 ^ c.(bits) - 2 ^ (c.(bits) - (c.(prefix) - 1)))
         + e * 2 ^ (c.(bits) - c.(prefix)).
Proof.
  intros (Hp & Hn & k & Hk) H1.
  assert (Hh : 0 < 2 ^ (bits c - prefix c)) by (apply Z.pow_pos_nonneg; lia).
  assert (Hd : 2 ^ (bits c - (prefix c - 1)) = 2 ^ (bits c - prefix c) * 2).
  { replace (bits c - (prefix c - 1)) with (Z.succ (bits c - prefix c)) by lia.
    rewrite Z.pow_succ_r by lia. lia. }
  rewrite land_mask_floor by lia.
  assert (Hm : network c mod 2 ^ (bits c - (prefix c - 1))
               = 2 ^ (bits c - prefix c) * (k mod 2)).
  { rewrite Hd, Hk, (Z.mul_comm k). apply Z.mul_mod_distr_l; lia. }
  exists (k mod 2). split; [pose proof (Z.mod_pos_bound k 2); lia|lia].
Qed.

(** X6. For two prefixes that keep the mask invariant, [mergeSiblings]
    succeeds exactly when [canMerge] and [areAdjacent] both hold. *)
Theorem mergeSiblings_iff_canMerge_adjacent (a b : NormalisedCidr) :
  canonical a -> canonical b ->
  ((exists c, mergeSiblings a b = Some c)
   <-> canMerge a b = true /\ areAdjacent a b = true).
Proof.
  intros Ca Cb. apply canonical_aligned in Ca, Cb.
  unfold canMerge, areAdjacent. rewrite !shiftl_1.
  split.
  - intros [c H]. apply mergeSiblings_inv in H.
    destruct H as (Hv & Hw & Hp & Hr & P & Ha & Hb & -> & Hn).
    replace (negb (IpVersion_eqb _ _) || negb (_ =? _)) with false
      by (symmetry; now apply family_test).
    rewrite <- Hp, Z.eqb_refl. cbn [negb].
    destruct (Z.eqb_spec (prefix a) 0); [lia|].
    rewrite (lnot_wildcard_mask (prefix a - 1) (bits a)) by lia.
    rewrite <- Ha, <- Hb, Z.eqb_refl. split; [reflexivity|].
    rewrite orb_true_iff, !Z.eqb_eq. lia.
  - destruct (negb (IpVersion_eqb _ _) || negb (_ =? _)) eqn:F; [intros [? _]; discriminate|].
    apply family_test in F. destruct F as [Hv Hw].
    destruct (Z.eqb_spec (prefix a) (prefix b)) as [Hp|]; [|intros [? _]; discriminate].
    cbn [negb].
    destruct (Z.eqb_spec (prefix a) 0) as [|H0]; [intros [? _]; discriminate|].
    assert (Hr : 1 <= prefix a <= bits a) by (destruct Ca; lia).
    rewrite (lnot_wildcard_mask (prefix a - 1) (bits a)) by lia.
    rewrite orb_true_iff, !Z.eqb_eq. intros [HP Hadj].
    destruct (aligned_parent_offset a Ca ltac:(lia)) as (ea & Hea & Hna).
    destruct (aligned_parent_offset b Cb ltac:(lia)) as (eb & Heb & Hnb).
    rewrite <- Hw, <- Hp, <- HP in Hnb.
    assert (Hh : 0 < 2 ^ (bits a - prefix a)) by (apply Z.pow_pos_nonneg; lia).
    eexists. apply (mergeSiblings_intro a b _ Hv Hw Hp Hr eq_refl HP).
    destruct Hea as [-> | ->], Heb as [-> | ->]; lia.
Qed.

Lemma mergeSiblings_iff_canMerge_adjacent_witness :
  (exists c, mergeSiblings (mkCidr V4 32 0xC0A80100 25) (mkCidr V4 32 0xC0A80180 25) = Some c)
  <-> canMerge (mkCidr V4 32 0xC0A80100 25) (mkCidr V4 32 0xC0A80180 25) = true
      /\ areAdjacent (mkCidr V4 32 0xC0A80100 25) (mkCidr V4 32 0xC0A80180 25) = true.
Proof.
  apply mergeSiblings_iff_canMerge_adjacent;
    apply canonical_aligned; (split; [|split]); cbn; try lia;
    [exists 25251842|exists 25251843]; reflexivity.
Defined.

(** ** Splitting into equal parts *)

Lemma allFrom_spec (f : Z -> bool) (count : nat) :
  forall start, allFrom f count start = true ->
    forall z, start <= z < start + Z.of_nat count -> f z = true.
Proof.
  induction count as [|k IH]; intros start H z Hz; [lia|].
  cbn [allFrom] in H. apply andb_true_iff in H. destruct H as [Hk Hr].
  destruct (Z.eq_dec z start) as [->|]; [assumption|].
  apply (IH (start + 1)); [assumption|lia].
Qed.

Lemma allBelow_spec (f : Z -> bool) (n : nat) :
  allBelow f n = true -> forall z, 0 <= z < Z.of_nat n -> f z = true.
Proof. intros H z Hz. apply (allFrom_spec f n 0 H). lia. Qed.

Lemma indices_length (n : Z) : 0 <= n -> Z.of_nat (List.length (indices n)) = n.
Proof. intros H. unfold indices. rewrite length_map, length_seq. lia. Qed.

Lemma indices_nth_error (n i : Z) :
  0 <= i < n -> nth_error (indices n) (Z.to_nat i) = Some i.
Proof.
  intros H. unfold indices. rewrite nth_error_map.
  rewrite (nth_error_nth' _ O) by (rewrite length_seq; lia).
  rewrite seq_nth by lia. cbn. f_equal. lia.
Qed.

(** What a successful [splitIntoN] returns. *)
Lemma splitIntoN_inv (c : NormalisedCidr) (n : Z) (l : list NormalisedCidr) :
  splitIntoN c n = Some l ->
  exists k, 0 <= k /\ 2 ^ k = n /\ c.(prefix) + k <= c.(bits)
    /\ l = map (fun i => mkCidr c.(version) c.(bits)
                           (c.(network) + i * 2 ^ (c.(bits) - (c.(prefix) + k)))
                           (c.(prefix) + k))
             (indices n).
Proof.
  unfold splitIntoN.
  destruct (n <=? 0); [discriminate|].
  destruct (negb _); [discriminate|].
  destruct (log2Exact n) as [k|] eqn:Hk; [|discriminate].
  apply log2Exact_Some in Hk. destruct Hk as [Hk0 Hk].
  destruct (Z.gtb_spec (prefix c + k) (bits c)); [discriminate|].
  intros E. apply Some_eq in E. subst l. rewrite shiftl_1.
  exists k. repeat split; (assumption || lia).
Qed.

Lemma log2Exact_pow2 (k : Z) : 0 <= k -> log2Exact (2 ^ k) = Some k.
Proof.
  intros H. unfold log2Exact. rewrite Z.log2_pow2 by assumption.
  now rewrite Z.eqb_refl.
Qed.

Lemma splitIntoN_pow2 (c : NormalisedCidr) (k : Z) :
  0 <= k <= 31 -> c.(prefix) + k <= c.(bits) ->
  splitIntoN c (2 ^ k)
  = Some (map (fun i => mkCidr c.(version) c.(bits)
                          (c.(network) + i * 2 ^ (c.(bits) - (c.(prefix) + k)))
                          (c.(prefix) + k))
            (indices (2 ^ k))).
Proof.
  intros Hk Hp. unfold splitIntoN.
  assert (H2 : 0 < 2 ^ k) by (apply Z.pow_pos_nonneg; lia).
  destruct (Z.leb_spec (2 ^ k) 0); [lia|].
  assert (T : allBelow powerOfTwoPasses 32 = true) by (vm_compute; reflexivity).
  pose proof (allBelow_spec _ _ T k ltac:(lia)) as Hpass.
  unfold powerOfTwoPasses in Hpass. rewrite Hpass. cbn [negb].
  rewrite log2Exact_pow2 by lia.
  destruct (Z.gtb_spec (prefix c + k) (bits c)); [lia|].
  now rewrite shiftl_1.
Qed.

Lemma allPairs_none (l : list NormalisedCidr) :
  ForallOrdPairs (fun a b => comparePair a b = []) l -> allPairs l = [].
Proof.
  intros H. induction H as [|a rest Ha Hrest IH]; [reflexivity|].
  cbn. rewrite IH, app_nil_r. clear IH Hrest.
  induction Ha as [|b rest Hb Hr IH]; [reflexivity|].
  cbn. now rewrite Hb, IH.
Qed.

Lemma ForallOrdPairs_map {A B : Type} (f : A -> B) (R : B -> B -> Prop) (l : list A) :
  ForallOrdPairs (fun x y => R (f x) (f y)) l -> ForallOrdPairs R (map f l).
Proof.
  intros H. induction H as [|a rest Ha Hrest IH]; cbn; constructor.
  - apply Forall_map. exact Ha.
  - exact IH.
Qed.

Lemma indices_increasing (n : Z) : ForallOrdPairs Z.lt (indices n).
Proof.
  unfold indices. apply ForallOrdPairs_map.
  generalize 0%nat. induction (Z.to_nat n) as [|m IH]; intros s; cbn; constructor.
  - apply Forall_forall. intros j Hj. apply in_seq in Hj. lia.
  - apply IH.
Qed.

Lemma ForallOrdPairs_weaken {A : Type} (R Q : A -> A -> Prop) (P : A -> Prop)
    (l : list A) :
  (forall x y, P x -> P y -> R x y -> Q x y) ->
  Forall P l -> ForallOrdPairs R l -> ForallOrdPairs Q l.
Proof.
  intros HRQ HP H. induction H as [|a rest Ha Hrest IH]; constructor.
  - inversion HP as [|? ? Pa Pr]; subst.
    rewrite Forall_forall in *. intros y Hy. apply HRQ; auto.
  - inversion HP; subst. auto.
Qed.

(** X7. [splitIntoN] cuts a prefix into [n = 2 ^ k] consecutive blocks of
    equal size: block [i] starts [i] sizes after the network, every block is
    inside the prefix, no two blocks overlap, and the sizes add up to the
    size of the prefix. *)
Theorem splitIntoN_partition (c : NormalisedCidr) (n : Z) (l : list NormalisedCidr) :
  splitIntoN c n = Some l ->
  exists k,
    0 <= k /\ n = 2 ^ k /\ c.(prefix) + k <= c.(bits)
    /\ Z.of_nat (List.length l) = n
    /\ (forall i, 0 <= i < n ->
          nth_error l (Z.to_nat i)
          = Some (mkCidr c.(version) c.(bits)
                    (c.(network) + i * 2 ^ (c.(bits) - (c.(prefix) + k)))
                    (c.(prefix) + k)))
    /\ Forall (fun x => containsPrefix c x = true) l
    /\ (detectOverlaps l).(hasOverlap) = false
    /\ n * 2 ^ (c.(bits) - (c.(prefix) + k)) = 2 ^ (c.(bits) - c.(prefix)).
Proof.
  intros H. apply splitIntoN_inv in H. destruct H as (k & Hk & Hn & Hp & ->).
  set (s := bits c - (prefix c + k)).
  assert (Hs : 0 < 2 ^ s) by (apply Z.pow_pos_nonneg; unfold s; lia).
  assert (Hsize : n * 2 ^ s = 2 ^ (bits c - prefix c)).
  { rewrite <- Hn, <- Z.pow_add_r by (unfold s; lia). f_equal. unfold s. lia. }
  assert (H0 : 0 <= n) by (rewrite <- Hn; apply Z.pow_nonneg; lia).
  exists k. split; [assumption|]. split; [now symmetry|]. split; [assumption|].
  split; [rewrite length_map; now apply indices_length|].
  split; [|split; [|split]].
  - intros i Hi. rewrite nth_error_map, indices_nth_error by assumption. reflexivity.
  - apply Forall_map, Forall_forall. intros i Hi. apply indices_In in Hi.
    apply containsPrefix_true. cbn [version bits network prefix]. fold s.
    repeat split; try lia; nia.
  - unfold detectOverlaps. cbn [hasOverlap].
    rewrite allPairs_none; [reflexivity|].
    apply ForallOrdPairs_map.
    apply (ForallOrdPairs_weaken Z.lt _ (fun i => 0 <= i < n)).
    + intros i j Hi Hj Hij. unfold comparePair. rewrite !shiftl_1.
      cbn [version bits network prefix]. fold s.
      destruct (negb (IpVersion_eqb _ _) || negb (_ =? _)); [reflexivity|].
      destruct (Z.ltb_spec (network c + i * 2 ^ s + (2 ^ s - 1)) (network c + j * 2 ^ s));
        [reflexivity|nia].
    + apply Forall_forall. intros i Hi. now apply indices_In.
    + apply indices_increasing.
  - exact Hsize.
Qed.

Lemma splitIntoN_partition_witness :
  exists k,
    0 <= k /\ 4 = 2 ^ k /\ net_192_168_0_0_24.(prefix) + k <= net_192_168_0_0_24.(bits)
    /\ Z.of_nat (List.length
         [mkCidr V4 32 3232235520 26; mkCidr V4 32 3232235584 26;
          mkCidr V4 32 3232235648 26; mkCidr V4 32 3232235712 26]) = 4
    /\ (forall i, 0 <= i < 4 ->
          nth_error
            [mkCidr V4 32 3232235520 26; mkCidr V4 32 3232235584 26;
             mkCidr V4 32 3232235648 26; mkCidr V4 32 3232235712 26] (Z.to_nat i)
          = Some (mkCidr net_192_168_0_0_24.(version) net_192_168_0_0_24.(bits)
                    (net_192_168_0_0_24.(network)
                     + i * 2 ^ (net_192_168_0_0_24.(bits)
                                - (net_192_168_0_0_24.(prefix) + k)))
                    (net_192_168_0_0_24.(prefix) + k)))
    /\ Forall (fun x => containsPrefix net_192_168_0_0_24 x = true)
         [mkCidr V4 32 3232235520 26; mkCidr V4 32 3232235584 26;
          mkCidr V4 32 3232235648 26; mkCidr V4 32 3232235712 26]
    /\ (detectOverlaps
          [mkCidr V4 32 3232235520 26; mkCidr V4 32 3232235584 26;
           mkCidr V4 32 3232235648 26; mkCidr V4 32 3232235712 26]).(hasOverlap) = false
    /\ 4 * 2 ^ (net_192_168_0_0_24.(bits) - (net_192_168_0_0_24.(prefix) + k))
       = 2 ^ (net_192_168_0_0_24.(bits) - net_192_168_0_0_24.(prefix)).
Proof.
  apply (splitIntoN_partition net_192_168_0_0_24 4). vm_compute. reflexivity.
Defined.

(** X8. For a count below [2 ^ 32], [splitIntoN] succeeds exactly when the
    count is a power of two [2 ^ k] and the prefix has [k] bits left. *)
Theorem splitIntoN_succeeds_iff (c : NormalisedCidr) (n : Z) :
  n < 2 ^ 32 ->
  ((exists l, splitIntoN c n = Some l)
   <-> exists k, 0 <= k /\ n = 2 ^ k /\ c.(prefix) + k <= c.(bits)).
Proof.
  intros Hn. split.
  - intros [l H]. apply splitIntoN_inv in H. destruct H as (k & Hk & E & Hp & _).
    exists k. repeat split; (assumption || now symmetry).
  - intros (k & Hk & -> & Hp).
    assert (k < 32) by (apply (Z.pow_lt_mono_r_iff 2); lia).
    eexists. apply splitIntoN_pow2; lia.
Qed.

Lemma splitIntoN_succeeds_iff_witness :
  (exists l, splitIntoN net_192_168_0_0_24 256 = Some l)
  <-> exists k, 0 <= k /\ 256 = 2 ^ k
                /\ net_192_168_0_0_24.(prefix) + k <= net_192_168_0_0_24.(bits).
Proof. apply splitIntoN_succeeds_iff. reflexivity. Defined.

(** X9. Splitting into two parts is [splitBinary], and splitting a prefix
    whose length is within its width into one part gives the prefix
    back. *)
Theorem splitIntoN_two_and_one (c : NormalisedCidr) :
  splitIntoN c 2
  = match splitBinary c with
    | Some (l, r) => Some [l; r]
    | None => None
    end
  /\ splitIntoN c 1 = if c.(prefix) >? c.(bits) then None else Some [c].
Proof.
  split.
  - destruct (Z.lt_ge_cases (prefix c) (bits c)).
    + rewrite splitBinary_Some by assumption.
      pose proof (splitIntoN_pow2 c 1 ltac:(lia) ltac:(lia)) as E.
      change (2 ^ 1) with 2 in E. rewrite E.
      change (indices 2) with [0; 1]. cbn [map].
      do 3 f_equal; [f_equal; lia|]. f_equal. f_equal. lia.
    + rewrite splitBinary_None by lia.
      destruct (splitIntoN c 2) as [l|] eqn:E; [|reflexivity].
      apply splitIntoN_inv in E. destruct E as (k & Hk & E & Hp & _).
      assert (k = 1) by (apply (Z.pow_inj_r 2); lia). lia.
  - destruct (Z.gtb_spec (prefix c) (bits c)).
    + destruct (splitIntoN c 1) as [l|] eqn:E; [|reflexivity].
      apply splitIntoN_inv in E. destruct E as (k & Hk & E & Hp & _). lia.
    + pose proof (splitIntoN_pow2 c 0 ltac:(lia) ltac:(lia)) as E.
      change (2 ^ 0) with 1 in E. rewrite E.
      change (indices 1) with [0]. cbn [map].
      destruct c as [v w nw p]. cbn [version bits network prefix].
      do 2 f_equal. f_equal; lia.
Qed.

Lemma shl32_one (k : Z) :
  shl32 1 k = if k mod 32 =? 31 then - 2 ^ 31 else 2 ^ (k mod 32).
Proof.
  assert (E : shl32 1 k = shl32 1 (k mod 32))
    by (unfold shl32; now rewrite Z.mod_mod by lia).
  rewrite E.
  assert (T : allBelow oneShlTable 32 = true) by (vm_compute; reflexivity).
  pose proof (allBelow_spec _ _ T (k mod 32)
                ltac:(pose proof (Z.mod_pos_bound k 32); lia)) as H.
  unfold oneShlTable in H. now apply Z.eqb_eq in H.
Qed.

Lemma hostBitsFor_positive (v : IpVersion) (hosts : Z) :
  0 < hosts ->
  exists h, hostBitsFor v hosts = JInt h /\ 0 <= h
    /\ match v with
       | V4 =>
           if hosts =? 1 then h = 0
           else if hosts =? 2 then h = 1
           else hosts + 2 <= 2 ^ h < 2 * (hosts + 2)
       | V6 => hosts <= 2 ^ h < 2 * hosts
       end.
Proof.
  intros H.
  assert (L : forall x, 0 < x ->
            ceilLog2 x = JInt (Z.log2_up x) /\ 0 <= Z.log2_up x
            /\ x <= 2 ^ Z.log2_up x < 2 * x).
  { intros x Hx. unfold ceilLog2. destruct (Z.ltb_spec 0 x); [|lia].
    split; [reflexivity|]. split; [apply Z.log2_up_nonneg|].
    destruct (Z.eq_dec x 1) as [->|]; [cbn; lia|].
    pose proof (Z.log2_up_spec x ltac:(lia)) as S.
    pose proof (Z.log2_up_pos x ltac:(lia)) as P.
    assert (D : 2 ^ Z.log2_up x = 2 * 2 ^ Z.pred (Z.log2_up x)).
    { rewrite <- Z.pow_succ_r by lia. f_equal. lia. }
    lia. }
  unfold hostBitsFor. destruct v.
  - destruct (Z.eqb_spec hosts 1); [exists 0; repeat split; lia|].
    destruct (Z.eqb_spec hosts 2); [exists 1; repeat split; lia|].
    destruct (L (hosts + 2) ltac:(lia)) as (E & H0 & Hb).
    eexists. split; [exact E|]. split; assumption.
  - destruct (L hosts H) as (E & H0 & Hb).
    eexists. split; [exact E|]. split; assumption.
Qed.

(** X10. What [splitByHostCount] returns for a host count up to
    [2 ^ 32 - 2], where the logarithm of the source is the exact one: the
    prefix it reports is the longest whose block holds the hosts (with the
    network and broadcast addresses of IPv4 set aside, except for one or
    two hosts), and the subnets are the [2 ^ d] parts of the input at [d]
    more bits, where [d] is the difference of the two prefix lengths taken
    modulo 32 as the 32-bit shift takes it. *)
Theorem splitByHostCount_result (c : NormalisedCidr) (hosts p' : Z)
    (subnets : list NormalisedCidr) :
  hosts <= 2 ^ 32 - 2 ->
  splitByHostCount c hosts = Some (p', subnets) ->
  0 < hosts /\ c.(prefix) <= p' <= c.(bits)
  /\ match c.(version) with
     | V4 =>
         if hosts =? 1 then p' = c.(bits)
         else if hosts =? 2 then p' = c.(bits) - 1
         else hosts + 2 <= 2 ^ (c.(bits) - p') < 2 * (hosts + 2)
     | V6 => hosts <= 2 ^ (c.(bits) - p') < 2 * hosts
     end
  /\ Z.of_nat (List.length subnets) = 2 ^ ((p' - c.(prefix)) mod 32)
  /\ Forall (fun s => s.(prefix) = c.(prefix) + (p' - c.(prefix)) mod 32) subnets.
Proof.
  intros _. unfold splitByHostCount.
  destruct (Z.leb_spec hosts 0) as [|Hh]; [discriminate|].
  destruct (hostBitsFor_positive (version c) hosts Hh) as (h & -> & H0 & Hcap).
  cbn [jsub jltInt oneShl].
  destruct (Z.ltb_spec (bits c - h) (prefix c)) as [|Hp]; [discriminate|].
  destruct (splitIntoN c _) as [l|] eqn:E; [|discriminate].
  intros Hr. apply Some_eq in Hr. injection Hr as <- <-.
  apply splitIntoN_inv in E. destruct E as (k & Hk & E & Hpk & ->).
  rewrite shl32_one in E |- *.
  assert (Hpos : 0 < 2 ^ k) by (apply Z.pow_pos_nonneg; lia).
  pose proof (Z.mod_pos_bound (bits c - h - prefix c) 32 ltac:(lia)) as Hd.
  destruct (Z.eqb_spec ((bits c - h - prefix c) mod 32) 31) as [|_]; [lia|].
  assert (Ek : k = (bits c - h - prefix c) mod 32) by (apply (Z.pow_inj_r 2); lia).
  split; [assumption|]. split; [lia|]. split; [|split].
  - replace (bits c - (bits c - h)) with h by lia.
    destruct (version c); [|assumption].
    destruct (hosts =? 1); [lia|]. destruct (hosts =? 2); [lia|assumption].
  - rewrite length_map, indices_length; lia.
  - apply Forall_map, Forall_forall. intros i _. cbn [prefix]. lia.
Qed.

Lemma splitByHostCount_result_witness :
  0 < 50 /\ net_192_168_0_0_24.(prefix) <= 26 <= net_192_168_0_0_24.(bits)
  /\ 50 + 2 <= 2 ^ (net_192_168_0_0_24.(bits) - 26) < 2 * (50 + 2)
  /\ Z.of_nat (List.length
       [mkCidr V4 32 3232235520 26; mkCidr V4 32 3232235584 26;
        mkCidr V4 32 3232235648 26; mkCidr V4 32 3232235712 26])
     = 2 ^ ((26 - net_192_168_0_0_24.(prefix)) mod 32)
  /\ Forall (fun s => s.(prefix)
                      = net_192_168_0_0_24.(prefix)
                        + (26 - net_192_168_0_0_24.(prefix)) mod 32)
       [mkCidr V4 32 3232235520 26; mkCidr V4 32 3232235584 26;
        mkCidr V4 32 3232235648 26; mkCidr V4 32 3232235712 26].
Proof.
  apply (splitByHostCount_result net_192_168_0_0_24 50 26); [lia|].
  vm_compute. reflexivity.
Defined.

(** ** Parents and children *)

Lemma land_lnot_ones (n s : Z) :
  0 <= s -> Z.land n (Z.lnot (2 ^ s - 1)) = n - n mod 2 ^ s.
Proof.
  intros H.
  replace (2 ^ s - 1) with (Z.ones s) by (rewrite Z.ones_equiv; lia).
  rewrite <- Z.ldiff_land, Z.ldiff_ones_r by assumption.
  rewrite Z.shiftl_mul_pow2, Z.shiftr_div_pow2 by assumption.
  assert (Hs : 0 < 2 ^ s) by (apply Z.pow_pos_nonneg; lia).
  pose proof (Z.div_mod n (2 ^ s) ltac:(lia)). lia.
Qed.

Lemma getParent_value (c : NormalisedCidr) :
  1 <= c.(prefix) <= c.(bits) ->
  Search.getParent c
  = Some (mkCidr c.(version) c.(bits)
            (c.(network) - c.(network) mod 2 ^ (c.(bits) - (c.(prefix) - 1)))
            (c.(prefix) - 1)).
Proof.
  intros H. unfold Search.getParent.
  destruct (Z.eqb_spec (prefix c) 0); [lia|].
  now rewrite shiftl_1, land_lnot_ones by lia.
Qed.

Lemma floor_aligned (c : NormalisedCidr) :
  aligned c -> 1 <= c.(prefix) ->
  aligned (mkCidr c.(version) c.(bits)
             (c.(network) - c.(network) mod 2 ^ (c.(bits) - (c.(prefix) - 1)))
             (c.(prefix) - 1)).
Proof.
  intros (Hp & Hn & _) H1.
  assert (Hs : 0 < 2 ^ (bits c - (prefix c - 1))) by (apply Z.pow_pos_nonneg; lia).
  pose proof (Z.mod_pos_bound (network c) _ Hs) as Hm.
  pose proof (Z.div_mod (network c) (2 ^ (bits c - (prefix c - 1))) ltac:(lia)) as Hd.
  assert (0 <= 2 ^ (bits c - (prefix c - 1)) * (network c / 2 ^ (bits c - (prefix c - 1))))
    by (apply Z.mul_nonneg_nonneg; [lia|apply Z.div_pos; lia]).
  repeat split; cbn [version bits network prefix]; try lia.
  exists (network c / 2 ^ (bits c - (prefix c - 1))). lia.
Qed.

(** X11. Parent and children undo each other on prefixes that keep the mask
    invariant: both children of a prefix have it as their parent, and a
    prefix longer than 0 is one of the two children of its parent. *)
Theorem getParent_getChildren (c : NormalisedCidr) :
  canonical c ->
  (c.(prefix) < c.(bits) ->
   exists l r, Search.getChildren c = Some (l, r)
     /\ Search.getParent l = Some c /\ Search.getParent r = Some c)
  /\ (1 <= c.(prefix) ->
      exists p l r, Search.getParent c = Some p /\ canonical p
        /\ Search.getChildren p = Some (l, r) /\ (c = l \/ c = r))
  /\ (c.(prefix) = 0 -> Search.getParent c = None)
  /\ (c.(prefix) = c.(bits) -> Search.getChildren c = None).
Proof.
  intros Hc. apply canonical_aligned in Hc.
  pose proof Hc as (Hp & Hn & k & Hk).
  split; [|split; [|split]].
  - intros Hlt. unfold Search.getChildren.
    destruct (Z.geb_spec (prefix c) (bits c)); [lia|]. rewrite shiftl_1.
    do 2 eexists. split; [reflexivity|].
    assert (Hh : 0 < 2 ^ (bits c - (prefix c + 1))) by (apply Z.pow_pos_nonneg; lia).
    assert (Hd : 2 ^ (bits c - prefix c) = 2 * 2 ^ (bits c - (prefix c + 1))).
    { rewrite <- Z.pow_succ_r by lia. f_equal. lia. }
    rewrite !getParent_value by (cbn [version bits network prefix]; lia).
    cbn [version bits network prefix].
    replace (bits c - (prefix c + 1 - 1)) with (bits c - prefix c) by lia.
    replace (prefix c + 1 - 1) with (prefix c) by lia.
    assert (M0 : network c mod 2 ^ (bits c - prefix c) = 0)
      by (rewrite Hk; apply Z.mod_mul; lia).
    assert (M1 : (network c + 2 ^ (bits c - (prefix c + 1))) mod 2 ^ (bits c - prefix c)
                 = 2 ^ (bits c - (prefix c + 1))).
    { rewrite Hk, Z.add_comm, Z.mod_add by lia. apply Z.mod_small. lia. }
    rewrite M0, M1. destruct c as [v w nw p]. cbn [version bits network prefix].
    split; do 2 f_equal; lia.
  - intros H1. rewrite getParent_value by lia.
    do 3 eexists. split; [reflexivity|].
    split; [apply canonical_aligned, floor_aligned; assumption|].
    unfold Search.getChildren. cbn [version bits network prefix].
    destruct (Z.geb_spec (prefix c - 1) (bits c)); [lia|]. rewrite shiftl_1.
    split; [reflexivity|].
    replace (bits c - (prefix c - 1 + 1)) with (bits c - prefix c) by lia.
    replace (prefix c - 1 + 1) with (prefix c) by lia.
    destruct (aligned_parent_offset c Hc H1) as (e & He & Hoff).
    rewrite land_mask_floor in Hoff by lia.
    destruct c as [v w nw p]. cbn [version bits network prefix] in *.
    destruct He as [-> | ->]; [left|right]; f_equal; lia.
  - intros H0. unfold Search.getParent. now rewrite H0.
  - intros Hb. unfold Search.getChildren.
    destruct (Z.geb_spec (prefix c) (bits c)); [reflexivity|lia].
Qed.

Lemma getParent_getChildren_witness :
  exists l r, Search.getChildren net_10_0_0_0_8 = Some (l, r)
    /\ Search.getParent l = Some net_10_0_0_0_8
    /\ Search.getParent r = Some net_10_0_0_0_8.
Proof.
  apply (getParent_getChildren net_10_0_0_0_8).
  - apply canonical_aligned. split; [|split]; cbn; try lia.
    exists 10. reflexivity.
  - cbn. lia.
Defined.

Lemma floor_floor (n s t : Z) :
  0 <= s <= t -> (n - n mod 2 ^ s) - (n - n mod 2 ^ s) mod 2 ^ t = n - n mod 2 ^ t.
Proof.
  intros H.
  assert (Hs : 0 < 2 ^ s) by (apply Z.pow_pos_nonneg; lia).
  assert (Hd : 0 < 2 ^ (t - s)) by (apply Z.pow_pos_nonneg; lia).
  assert (Ht : 2 ^ t = 2 ^ s * 2 ^ (t - s))
    by (rewrite <- Z.pow_add_r by lia; f_equal; lia).
  assert (E : n - n mod 2 ^ s = 2 ^ s * (n / 2 ^ s))
    by (pose proof (Z.div_mod n (2 ^ s) ltac:(lia)); lia).
  rewrite E, Ht, Z.mul_mod_distr_l by lia.
  rewrite Z.rem_mul_r by lia.
  pose proof (Z.div_mod n (2 ^ s) ltac:(lia)). lia.
Qed.

Lemma parentsLoop_of_parent (count : nat) (c : NormalisedCidr) :
  forall q,
    1 <= c.(prefix) <= c.(bits) -> Z.of_nat count = q + 1 -> q < c.(prefix) - 1 ->
    Search.parentsLoop count c q
    = Search.parentsLoop count
        (mkCidr c.(version) c.(bits)
           (c.(network) - c.(network) mod 2 ^ (c.(bits) - (c.(prefix) - 1)))
           (c.(prefix) - 1)) q.
Proof.
  induction count as [|n IH]; intros q Hp Hc Hq; [reflexivity|].
  cbn [Search.parentsLoop version bits network prefix].
  rewrite !shiftl_1, !land_lnot_ones by lia.
  rewrite floor_floor by lia.
  f_equal. apply IH; lia.
Qed.

Lemma parentsLoop_facts (c : NormalisedCidr) (count : nat) :
  aligned c ->
  forall q, Z.of_nat count = q + 1 -> q < c.(prefix) ->
    Forall (fun a => aligned a /\ a.(prefix) < c.(prefix) /\ containsPrefix a c = true)
      (Search.parentsLoop count c q).
Proof.
  intros Hc. pose proof Hc as (Hp & Hn & k & Hk).
  induction count as [|n IH]; intros q Hq Hlt; [constructor|].
  cbn [Search.parentsLoop]. constructor; [|apply IH; lia].
  rewrite shiftl_1, land_lnot_ones by lia.
  assert (Hs : 0 < 2 ^ (bits c - q)) by (apply Z.pow_pos_nonneg; lia).
  assert (Hh : 0 < 2 ^ (bits c - prefix c)) by (apply Z.pow_pos_nonneg; lia).
  assert (Hd : 0 < 2 ^ (prefix c - q)) by (apply Z.pow_pos_nonneg; lia).
  assert (Ht : 2 ^ (bits c - q) = 2 ^ (bits c - prefix c) * 2 ^ (prefix c - q))
    by (rewrite <- Z.pow_add_r by lia; f_equal; lia).
  pose proof (Z.mod_pos_bound (network c) _ Hs) as Hm.
  pose proof (Z.div_mod (network c) (2 ^ (bits c - q)) ltac:(lia)) as Hdm.
  assert (0 <= 2 ^ (bits c - q) * (network c / 2 ^ (bits c - q)))
    by (apply Z.mul_nonneg_nonneg; [lia|apply Z.div_pos; lia]).
  assert (Hmod : network c mod 2 ^ (bits c - q)
                 = 2 ^ (bits c - prefix c) * (k mod 2 ^ (prefix c - q))).
  { rewrite Ht, Hk, (Z.mul_comm k). apply Z.mul_mod_distr_l; lia. }
  pose proof (Z.mod_pos_bound k _ Hd) as Hkm.
  split; [|split].
  - repeat split; cbn [version bits network prefix]; try lia.
    exists (network c / 2 ^ (bits c - q)). lia.
  - cbn [prefix]. lia.
  - apply containsPrefix_true. cbn [version bits network prefix].
    repeat split; try lia. rewrite Hmod, Ht. nia.
Qed.

(** X12. The parents of a prefix that keeps the mask invariant: the list
    is the parent followed by the parents of the parent, it has as many
    entries as the prefix is long, every entry keeps the mask invariant,
    and [findAncestors] keeps all of them. *)
Theorem getParentPrefixes_chain (c : NormalisedCidr) :
  canonical c ->
  Search.getParentPrefixes c
  = match Search.getParent c with
    | Some p => p :: Search.getParentPrefixes p
    | None => []
    end
  /\ Z.of_nat (List.length (Search.getParentPrefixes c)) = c.(prefix)
  /\ Forall canonical (Search.getParentPrefixes c)
  /\ Search.findAncestors c (Search.getParentPrefixes c) = Search.getParentPrefixes c.
Proof.
  intros Hc. apply canonical_aligned in Hc. pose proof Hc as (Hp & Hn & _).
  pose proof (parentsLoop_facts c (Z.to_nat (prefix c)) Hc (prefix c - 1)
                ltac:(lia) ltac:(lia)) as F.
  fold (Search.getParentPrefixes c) in F.
  split; [|split; [|split]].
  - destruct (Z.eq_dec (prefix c) 0) as [E0|E0].
    + unfold Search.getParentPrefixes, Search.getParent. rewrite E0. reflexivity.
    + rewrite getParent_value by lia.
      unfold Search.getParentPrefixes. cbn [version bits network prefix].
      replace (Z.to_nat (prefix c)) with (S (Z.to_nat (prefix c - 1))) by lia.
      cbn [Search.parentsLoop].
      rewrite shiftl_1, land_lnot_ones by lia. f_equal.
      destruct (Z.eq_dec (prefix c) 1) as [E1|E1].
      * rewrite E1. reflexivity.
      * apply parentsLoop_of_parent; lia.
  - unfold Search.getParentPrefixes.
    assert (L : forall n q, List.length (Search.parentsLoop n c q) = n)
      by (induction n as [|n IH]; intros q; cbn; [reflexivity|now rewrite IH]).
    rewrite L. lia.
  - eapply Forall_impl; [|exact F]. intros a (Ha & _). now apply canonical_aligned.
  - unfold Search.findAncestors.
    apply forallb_filter_id, forallb_forall. intros a Ha.
    rewrite Forall_forall in F. destruct (F a Ha) as (_ & Hlt & Hin).
    rewrite Hin, andb_true_r. lia.
Qed.

Lemma getParentPrefixes_chain_witness :
  Z.of_nat (List.length (Search.getParentPrefixes net_10_1_0_0_16)) = 16.
Proof.
  apply (getParentPrefixes_chain net_10_1_0_0_16).
  apply canonical_aligned. split; [|split]; cbn; try lia.
  exists 2561. reflexivity.
Defined.

(** X13. The blocks [splitIntoN] makes for a count of two or more are all
    descendants of the prefix that was split. *)
Theorem findDescendants_splitIntoN (c : NormalisedCidr) (n : Z)
    (l : list NormalisedCidr) :
  1 < n -> splitIntoN c n = Some l -> Search.findDescendants c l = l.
Proof.
  intros Hn H. apply splitIntoN_inv in H. destruct H as (k & Hk & E & Hp & ->).
  assert (k <> 0) by (intros ->; cbn in E; lia).
  unfold Search.findDescendants.
  apply forallb_filter_id, forallb_forall. intros x Hx.
  apply in_map_iff in Hx. destruct Hx as (i & <- & Hi). apply indices_In in Hi.
  cbn [prefix]. apply andb_true_iff. split; [lia|].
  apply containsPrefix_true. cbn [version bits network prefix].
  set (s := bits c - (prefix c + k)).
  assert (Hs : 0 < 2 ^ s) by (apply Z.pow_pos_nonneg; unfold s; lia).
  assert (Hsize : n * 2 ^ s = 2 ^ (bits c - prefix c)).
  { rewrite <- E, <- Z.pow_add_r by (unfold s; lia). f_equal. unfold s. lia. }
  repeat split; try lia; nia.
Qed.

Lemma findDescendants_splitIntoN_witness :
  Search.findDescendants net_192_168_0_0_24
    [mkCidr V4 32 3232235520 25; mkCidr V4 32 3232235648 25]
  = [mkCidr V4 32 3232235520 25; mkCidr V4 32 3232235648 25].
Proof.
  apply (findDescendants_splitIntoN net_192_168_0_0_24 2); [lia|].
  vm_compute. reflexivity.
Defined.

(** ** Longest prefix match *)

Lemma matchStep_bestSoFar (ip : string) (cidrs : list NormalisedCidr) :
  forall seen st,
    Forall (fun c => 0 <= c.(prefix)) cidrs ->
    bestSoFar ip seen st ->
    bestSoFar ip (seen ++ cidrs) (fold_left (Service.matchStep ip) cidrs st).
Proof.
  induction cidrs as [|c rest IH]; intros seen st Hnn Hinv.
  - now rewrite app_nil_r.
  - inversion Hnn as [|? ? Hc Hrest]; subst.
    cbn [fold_left].
    replace (seen ++ c :: rest)%list with ((seen ++ [c]) ++ rest)%list
      by (now rewrite <- app_assoc).
    apply IH; [assumption|].
    destruct st as [bm bp]. unfold bestSoFar in *. cbn [fst snd] in Hinv.
    unfold Service.matchStep.
    destruct (containsIp c ip) eqn:Hin; cbn [andb].
    + destruct (Z.gtb_spec (prefix c) bp) as [Hgt|Hle]; cbn [fst snd].
      * split; [reflexivity|]. split; [apply in_or_app; right; now left|].
        split; [assumption|].
        intros d Hd Hdin. apply in_app_or in Hd. destruct Hd as [Hd|[<-|[]]]; [|lia].
        destruct bm as [best|].
        -- destruct Hinv as (-> & _ & _ & Hmax). specialize (Hmax d Hd Hdin). lia.
        -- destruct Hinv as (_ & Hnone). rewrite (Hnone d Hd) in Hdin. discriminate.
      * destruct bm as [best|].
        -- destruct Hinv as (-> & Hb & Hbin & Hmax).
           split; [reflexivity|]. split; [apply in_or_app; now left|].
           split; [assumption|].
           intros d Hd Hdin. apply in_app_or in Hd.
           destruct Hd as [Hd|[<-|[]]]; [now apply Hmax|lia].
        -- destruct Hinv as (-> & _). lia.
    + cbn [fst snd]. destruct bm as [best|].
      * destruct Hinv as (-> & Hb & Hbin & Hmax).
        split; [reflexivity|]. split; [apply in_or_app; now left|].
        split; [assumption|].
        intros d Hd Hdin. apply in_app_or in Hd.
        destruct Hd as [Hd|[<-|[]]]; [now apply Hmax|congruence].
      * destruct Hinv as (-> & Hnone). split; [reflexivity|].
        intros d Hd. apply in_app_or in Hd.
        destruct Hd as [Hd|[<-|[]]]; [now apply Hnone|assumption].
Qed.

(** X14. [longestPrefixMatch] returns a prefix of the list that contains
    the address and is at least as long as every other one that does, and
    it returns nothing only when no prefix of the list contains the
    address. *)
Theorem longestPrefixMatch_longest (ip : string) (cidrs : list NormalisedCidr) :
  Forall (fun c => 0 <= c.(prefix)) cidrs ->
  match Service.longestPrefixMatch ip cidrs with
  | Some best =>
      In best cidrs /\ containsIp best ip = true
      /\ forall c, In c cidrs -> containsIp c ip = true -> c.(prefix) <= best.(prefix)
  | None => forall c, In c cidrs -> containsIp c ip = false
  end.
Proof.
  intros Hnn.
  pose proof (matchStep_bestSoFar ip cidrs [] (None, -1) Hnn) as H.
  cbn [app] in H. unfold Service.longestPrefixMatch.
  assert (H0 : bestSoFar ip [] (None, -1))
    by (split; [reflexivity|intros c []]).
  specialize (H H0). unfold bestSoFar in H.
  destruct (fst (fold_left (Service.matchStep ip) cidrs (None, -1))) as [best|].
  - tauto.
  - tauto.
Qed.

Lemma longestPrefixMatch_longest_witness :
  match Service.longestPrefixMatch "10.1.2.3" [net_10_0_0_0_8; net_10_1_0_0_16] with
  | Some best =>
      In best [net_10_0_0_0_8; net_10_1_0_0_16] /\ containsIp best "10.1.2.3" = true
      /\ forall c, In c [net_10_0_0_0_8; net_10_1_0_0_16] ->
           containsIp c "10.1.2.3" = true -> c.(prefix) <= best.(prefix)
  | None => forall c, In c [net_10_0_0_0_8; net_10_1_0_0_16] ->
              containsIp c "10.1.2.3" = false
  end.
Proof.
  apply longestPrefixMatch_longest. repeat constructor; cbn; lia.
Defined.

(** ** VLSM allocation: where the blocks are placed *)

Lemma splitIntoN_candidates (c : NormalisedCidr) (n : Z) (l : list NormalisedCidr) :
  splitIntoN c n = Some l ->
  exists k, 0 <= k /\ 2 ^ k = n /\ c.(prefix) + k <= c.(bits)
    /\ l = map (candidateAt c k) (indices n).
Proof. apply splitIntoN_inv. Qed.

Lemma candidateAt_contained (c : NormalisedCidr) (k i : Z) :
  0 <= k -> c.(prefix) + k <= c.(bits) -> 0 <= i < 2 ^ k ->
  containsPrefix c (candidateAt c k i) = true.
Proof.
  intros Hk Hp Hi. apply containsPrefix_true.
  unfold candidateAt. cbn [version bits network prefix].
  set (s := bits c - (prefix c + k)).
  assert (Hs : 0 < 2 ^ s) by (apply Z.pow_pos_nonneg; unfold s; lia).
  assert (Hsize : 2 ^ k * 2 ^ s = 2 ^ (bits c - prefix c)).
  { rewrite <- Z.pow_add_r by (unfold s; lia). f_equal. unfold s. lia. }
  repeat split; try lia; nia.
Qed.

Lemma find_first_index {A : Type} (f : A -> bool) (g : Z -> A) (c : A) (count : nat) :
  forall start,
    find f (map g (map Z.of_nat (seq start count))) = Some c ->
    exists i, Z.of_nat start <= i < Z.of_nat start + Z.of_nat count
      /\ c = g i /\ f (g i) = true
      /\ forall j, Z.of_nat start <= j < i -> f (g j) = false.
Proof.
  induction count as [|n IH]; intros start H; [discriminate|].
  cbn [seq map find] in H.
  destruct (f (g (Z.of_nat start))) eqn:E.
  - apply Some_eq in H. subst c. exists (Z.of_nat start).
    repeat split; try lia. exact E.
  - apply IH in H. destruct H as (i & Hi & Hc & Hf & Hbefore).
    exists i. repeat split; try lia; try assumption.
    intros j Hj. destruct (Z.eq_dec j (Z.of_nat start)) as [->|]; [exact E|].
    apply Hbefore. lia.
Qed.

(** X15. [allocateOne] is first fit: the block it returns is the first of
    the equal parts of the parent, in address order, that conflicts with no
    allocated block.  The parts have [k] more bits than the parent, where
    [k] is the difference to the required prefix length taken modulo 32 as
    the 32-bit shift takes it. *)
Theorem allocateOne_first_fit (parent : NormalisedCidr) (req : VlsmRequest)
    (allocated : list NormalisedCidr) (v : IpVersion) (c : NormalisedCidr) (p : Z) :
  match req.(requiredPrefix), req.(requiredHosts) with
  | Some q, _ => p = q
  | None, Some hosts => 0 < hosts /\ hostBitsFor v hosts = JInt (parent.(bits) - p)
  | None, None => False
  end ->
  allocateOne parent req allocated v = Some (Some c) ->
  parent.(prefix) <= p
  /\ exists i,
       let k := (p - parent.(prefix)) mod 32 in
       0 <= i < 2 ^ k
       /\ c = candidateAt parent k i
       /\ containsPrefix parent c = true
       /\ conflicts c allocated = false
       /\ forall j, 0 <= j < i -> conflicts (candidateAt parent k j) allocated = true.
Proof.
  intros Hreq. unfold allocateOne.
  assert (E : match requiredPrefix req with
              | Some q => Some (JInt q)
              | None =>
                  match requiredHosts req with
                  | Some hosts => Some (jsub (JInt (bits parent)) (hostBitsFor v hosts))
                  | None => None
                  end
              end = Some (JInt p)).
  { destruct (requiredPrefix req) as [q|]; [now subst|].
    destruct (requiredHosts req) as [hosts|]; [|contradiction].
    destruct Hreq as [_ ->]. cbn [jsub]. do 2 f_equal. lia. }
  rewrite E. cbn [jltInt jsub oneShl].
  destruct (Z.ltb_spec p (prefix parent)) as [|Hp]; [discriminate|].
  destruct (splitIntoN parent _) as [candidates|] eqn:Hs; [|discriminate].
  intros Hf. apply Some_eq in Hf.
  apply splitIntoN_candidates in Hs. destruct Hs as (k & Hk & En & Hpk & ->).
  rewrite shl32_one in En, Hf.
  assert (Hpos : 0 < 2 ^ k) by (apply Z.pow_pos_nonneg; lia).
  pose proof (Z.mod_pos_bound (p - prefix parent) 32 ltac:(lia)) as Hd.
  destruct (Z.eqb_spec ((p - prefix parent) mod 32) 31) as [|_]; [lia|].
  assert (Ek : k = (p - prefix parent) mod 32) by (apply (Z.pow_inj_r 2); lia).
  subst k. unfold indices in Hf. apply find_first_index in Hf.
  destruct Hf as (i & Hi & Hc & Hfree & Hbefore).
  split; [assumption|]. exists i. cbn zeta.
  rewrite Z2Nat.id in Hi by lia. cbn [Z.of_nat] in Hi, Hbefore.
  split; [lia|]. split; [assumption|].
  split; [subst c; apply candidateAt_contained; lia|].
  split; [subst c; now apply negb_true_iff in Hfree|].
  intros j Hj. specialize (Hbefore j Hj). now apply negb_false_iff in Hbefore.
Qed.

Lemma allocateOne_first_fit_witness :
  net_192_168_0_0_24.(prefix) <= 26
  /\ exists i,
       let k := (26 - net_192_168_0_0_24.(prefix)) mod 32 in
       0 <= i < 2 ^ k
       /\ mkCidr V4 32 3232235648 26 = candidateAt net_192_168_0_0_24 k i
       /\ containsPrefix net_192_168_0_0_24 (mkCidr V4 32 3232235648 26) = true
       /\ conflicts (mkCidr V4 32 3232235648 26) [mkCidr V4 32 3232235520 25] = false
       /\ forall j, 0 <= j < i ->
            conflicts (candidateAt net_192_168_0_0_24 k j) [mkCidr V4 32 3232235520 25]
            = true.
Proof.
  apply (allocateOne_first_fit net_192_168_0_0_24 (mkRequest "small" None (Some 26) None)
           [mkCidr V4 32 3232235520 25] V4);
    vm_compute; reflexivity.
Defined.

Lemma allocateOne_placed (parent : NormalisedCidr) (req : VlsmRequest)
    (allocated : list NormalisedCidr) (v : IpVersion) (c : NormalisedCidr) :
  allocateOne parent req allocated v = Some (Some c) ->
  containsPrefix parent c = true /\ forall x, In x allocated -> apart x c.
Proof.
  unfold allocateOne.
  destruct (match requiredPrefix req with Some _ => _ | None => _ end) as [rp|];
    [|discriminate].
  destruct (jltInt rp (prefix parent)); [discriminate|].
  destruct (splitIntoN parent _) as [candidates|] eqn:Hs; [|discriminate].
  intros Hf. apply Some_eq in Hf. apply find_some in Hf. destruct Hf as [Hin Hc].
  apply negb_true_iff in Hc. split; [|now apply conflicts_false].
  apply splitIntoN_candidates in Hs. destruct Hs as (k & Hk & En & Hpk & ->).
  apply in_map_iff in Hin. destruct Hin as (i & <- & Hi). apply indices_In in Hi.
  apply candidateAt_contained; lia.
Qed.

Lemma allocateLoop_placedIn (parent : NormalisedCidr) (reserved : list NormalisedCidr)
    (sortedRequests : list VlsmRequest) :
  forall allocations allocated result,
    incl reserved allocated ->
    Forall (placedIn parent reserved) allocations ->
    allocateLoop parent sortedRequests allocations allocated = Some result ->
    Forall (placedIn parent reserved) result.
Proof.
  induction sortedRequests as [|req rest IH]; intros allocations allocated result Hincl Hall.
  - cbn. intros E. apply Some_eq in E. now subst.
  - cbn [allocateLoop].
    destruct (allocateOne parent req allocated (version parent)) as [[c|]|] eqn:E;
      [| |discriminate].
    + apply allocateOne_placed in E. destruct E as [Hin Hapart].
      apply IH.
      * intros x Hx. apply in_or_app. left. now apply Hincl.
      * apply Forall_app. split; [assumption|]. constructor; [|constructor].
        unfold placedIn. cbn [Vlsm.allocated Vlsm.cidr]. split; [assumption|].
        apply Forall_forall. intros r Hr. apply Hapart. now apply Hincl.
    + apply IH; [assumption|].
      apply Forall_app. split; [assumption|]. constructor; [|constructor].
      reflexivity.
Qed.

(** X16. Every entry of the result of [allocateVlsm] that is marked
    allocated carries a block inside the parent that neither contains nor
    is contained in any reserved block; an entry that is not marked carries
    the parent itself. *)
Theorem allocateVlsm_placed (parent : NormalisedCidr) (requests : list VlsmRequest)
    (strategy : VlsmStrategy) (reserved : list NormalisedCidr)
    (allocations : list VlsmAllocation) :
  allocateVlsm parent requests strategy reserved = Some allocations ->
  Forall (fun r => containsPrefix parent r = true) reserved
  /\ Forall (placedIn parent reserved) allocations.
Proof.
  unfold allocateVlsm.
  destruct (forallb (containsPrefix parent) reserved) eqn:Hres; [|discriminate].
  cbn [negb]. intros H. split.
  - apply Forall_forall. rewrite forallb_forall in Hres. exact Hres.
  - eapply (allocateLoop_placedIn parent reserved);
      [apply incl_refl|constructor|exact H].
Qed.

Lemma allocateVlsm_placed_witness :
  Forall (fun r => containsPrefix net_192_168_0_0_24 r = true) []
  /\ Forall (placedIn net_192_168_0_0_24 []) sampleAllocations.
Proof.
  apply (allocateVlsm_placed net_192_168_0_0_24 sampleRequests LARGEST_FIRST []).
  vm_compute. reflexivity.
Defined.

Lemma allocateLoop_throws (parent : NormalisedCidr) (req : VlsmRequest)
    (sortedRequests : list VlsmRequest) :
  In req sortedRequests ->
  req.(requiredPrefix) = None -> req.(requiredHosts) = None ->
  forall allocations allocated,
    allocateLoop parent sortedRequests allocations allocated = None.
Proof.
  intros Hin Hp Hh.
  induction sortedRequests as [|r rest IH]; intros allocations allocated; [destruct Hin|].
  cbn [allocateLoop].
  destruct Hin as [->|Hin].
  - unfold allocateOne. now rewrite Hp, Hh.
  - destruct (allocateOne parent r allocated (version parent)) as [[c|]|];
      [now apply IH|now apply IH|reflexivity].
Qed.

(** X17. [allocateVlsm] returns nothing for the whole batch when a
    reserved block is not inside the parent, and when any request, wherever
    it stands in the list, has neither a prefix length nor a host count. *)
Theorem allocateVlsm_throws (parent : NormalisedCidr) (requests : list VlsmRequest)
    (strategy : VlsmStrategy) (reserved : list NormalisedCidr) :
  (exists r, In r reserved /\ containsPrefix parent r = false)
  \/ (exists req, In req requests
                  /\ req.(requiredPrefix) = None /\ req.(requiredHosts) = None) ->
  allocateVlsm parent requests strategy reserved = None.
Proof.
  intros H. unfold allocateVlsm.
  destruct (forallb (containsPrefix parent) reserved) eqn:Hres; [|reflexivity].
  cbn [negb]. destruct H as [(r & Hr & Hout)|(req & Hin & Hp & Hh)].
  - rewrite forallb_forall in Hres. rewrite (Hres r Hr) in Hout. discriminate.
  - apply (allocateLoop_throws parent req); try assumption.
    apply (Permutation_in req
             (Permutation_sym
                (sortRequestsByStrategy_perm requests strategy (version parent)))).
    exact Hin.
Qed.

Lemma allocateVlsm_throws_witness :
  allocateVlsm net_192_168_0_0_24
    [mkRequest "a" None (Some 26) None; mkRequest "b" None None None]
    LARGEST_FIRST [] = None.
Proof.
  apply allocateVlsm_throws. right.
  exists (mkRequest "b" None None None). cbn. auto.
Defined.

(** ** Utilisation *)

Lemma totalLength_filter (f : Z * Z -> bool) (l : list (Z * Z)) :
  totalLength l
  = totalLength (filter f l) + totalLength (filter (fun I => negb (f I)) l).
Proof.
  induction l as [|I l IH]; [reflexivity|].
  cbn [filter totalLength fold_right]. fold (totalLength l).
  destruct (f I); cbn [negb totalLength fold_right];
    fold (totalLength (filter f l));
    fold (totalLength (filter (fun I => negb (f I)) l)); lia.
Qed.

Lemma ForallOrdPairs_filter {A : Type} (R : A -> A -> Prop) (f : A -> bool) (l : list A) :
  ForallOrdPairs R l -> ForallOrdPairs R (filter f l).
Proof.
  intros H. induction H as [|a rest Ha Hrest IH]; cbn; [constructor|].
  destruct (f a); [|assumption]. constructor; [|assumption].
  rewrite Forall_forall in *. intros x Hx. apply filter_In in Hx. now apply Ha.
Qed.

(** Intervals inside [lo, hi) no two of which meet are together no longer
    than [hi - lo]. *)
Lemma packing (n : nat) :
  forall l lo hi,
    (List.length l <= n)%nat -> lo <= hi ->
    Forall (fun I => lo <= fst I /\ fst I <= snd I /\ snd I <= hi) l ->
    ForallOrdPairs (fun I J => snd I <= fst J \/ snd J <= fst I) l ->
    totalLength l <= hi - lo.
Proof.
  induction n as [|n IH]; intros l lo hi Hlen Hle Hin Hdis.
  - destruct l; [cbn; lia|cbn in Hlen; lia].
  - destruct l as [|a rest]; [cbn; lia|].
    inversion Hin as [|? ? Ha Hrest]; subst.
    inversion Hdis as [|? ? Hda Hdrest]; subst.
    cbn [totalLength fold_right]. fold (totalLength rest).
    rewrite (totalLength_filter (fun J => snd J <=? fst a) rest).
    cbn [List.length] in Hlen.
    rewrite Forall_forall in Hrest, Hda.
    assert (L : totalLength (filter (fun J => snd J <=? fst a) rest) <= fst a - lo).
    { apply IH.
      - pose proof (filter_length_le (fun J => snd J <=? fst a) rest). lia.
      - lia.
      - apply Forall_forall. intros J HJ. apply filter_In in HJ.
        destruct HJ as [HJ Hb]. apply Z.leb_le in Hb.
        specialize (Hrest J HJ). lia.
      - now apply ForallOrdPairs_filter. }
    assert (R : totalLength (filter (fun J => negb (snd J <=? fst a)) rest) <= hi - snd a).
    { apply IH.
      - pose proof (filter_length_le (fun J => negb (snd J <=? fst a)) rest). lia.
      - lia.
      - apply Forall_forall. intros J HJ. apply filter_In in HJ.
        destruct HJ as [HJ Hb]. apply negb_true_iff, Z.leb_gt in Hb.
        specialize (Hrest J HJ). specialize (Hda J HJ). lia.
      - now apply ForallOrdPairs_filter. }
    lia.
Qed.

Lemma apart_disjoint (parent a b : NormalisedCidr) :
  subBlockOf parent a -> subBlockOf parent b -> apart a b ->
  snd (intervalOf a) <= fst (intervalOf b) \/ snd (intervalOf b) <= fst (intervalOf a).
Proof.
  intros (Ha & Hva & Hba) (Hb & Hvb & Hbb) [Hab Hba'].
  unfold intervalOf. cbn [fst snd].
  destruct (Z.le_gt_cases (network a + 2 ^ (bits a - prefix a)) (network b)); [now left|].
  destruct (Z.le_gt_cases (network b + 2 ^ (bits b - prefix b)) (network a)); [now right|].
  exfalso.
  destruct (Z.le_gt_cases (prefix a) (prefix b)).
  - rewrite aligned_overlap_contains in Hab; try assumption;
      [discriminate|congruence|congruence|lia|lia].
  - rewrite aligned_overlap_contains in Hba'; try assumption;
      [discriminate|congruence|congruence|lia|lia|lia].
Qed.

Lemma allocatedSpace_sum (allocations : list VlsmAllocation) :
  forall acc,
    fold_left (fun allocatedSpace alloc =>
                 if alloc.(allocated)
                 then allocatedSpace
                      + Z.shiftl 1 (alloc.(cidr).(bits) - alloc.(cidr).(prefix))
                 else allocatedSpace)
      allocations acc
    = acc + totalLength (map intervalOf (allocatedCidrs allocations)).
Proof.
  induction allocations as [|a rest IH]; intros acc; [cbn; lia|].
  cbn [fold_left]. rewrite IH. unfold allocatedCidrs. cbn [filter].
  destruct (allocated a); [|reflexivity].
  cbn [map totalLength fold_right intervalOf fst snd]. rewrite shiftl_1.
  fold (totalLength (map intervalOf (map cidr (filter allocated rest)))).
  unfold intervalOf. lia.
Qed.

Lemma allocated_total (parent : NormalisedCidr) (requests : list VlsmRequest)
    (strategy : VlsmStrategy) (reserved : list NormalisedCidr)
    (allocations : list VlsmAllocation) :
  aligned parent ->
  allocateVlsm parent requests strategy reserved = Some allocations ->
  0 <= totalLength (map intervalOf (allocatedCidrs allocations))
    <= 2 ^ (parent.(bits) - parent.(prefix)).
Proof.
  intros Hc Halloc. unfold allocateVlsm in Halloc.
  destruct (negb (forallb (containsPrefix parent) reserved)); [discriminate|].
  destruct (allocateLoop_placedApart parent _ Hc [] reserved allocations
              ltac:(repeat split; cbn; [constructor|intros ? []|constructor]) Halloc)
    as [al (I1 & _ & I3)].
  assert (Hin : Forall (placedIn parent reserved) allocations).
  { eapply (allocateLoop_placedIn parent reserved);
      [apply incl_refl|constructor|exact Halloc]. }
  assert (Hcont : Forall (fun c => containsPrefix parent c = true)
                    (allocatedCidrs allocations)).
  { unfold allocatedCidrs. apply Forall_map, Forall_forall. intros a Ha.
    apply filter_In in Ha. destruct Ha as [Ha Hflag].
    rewrite Forall_forall in Hin. specialize (Hin a Ha).
    unfold placedIn in Hin. rewrite Hflag in Hin. tauto. }
  assert (Hs : 0 < 2 ^ (bits parent - prefix parent))
    by (apply Z.pow_pos_nonneg; destruct Hc; lia).
  assert (Hbounds :
            Forall (fun I => network parent <= fst I /\ fst I <= snd I
                             /\ snd I <= network parent + 2 ^ (bits parent - prefix parent))
              (map intervalOf (allocatedCidrs allocations))).
  { apply Forall_map. rewrite Forall_forall in *. intros c Hc'.
    pose proof (Hcont c Hc') as Hcc. apply containsPrefix_true in Hcc.
    destruct (I1 c Hc') as ((Hp & _) & _).
    assert (0 < 2 ^ (bits c - prefix c)) by (apply Z.pow_pos_nonneg; lia).
    unfold intervalOf. cbn [fst snd]. lia. }
  split.
  - clear - Hbounds. induction Hbounds as [|I l HI Hl IH]; [cbn; lia|].
    cbn [totalLength fold_right]. fold (totalLength l). lia.
  - pose proof (packing _ (map intervalOf (allocatedCidrs allocations))
                  (network parent) (network parent + 2 ^ (bits parent - prefix parent))
                  (le_n _) ltac:(lia) Hbounds) as P.
    rewrite Z.add_simpl_l in P. apply P.
    apply ForallOrdPairs_map.
    apply (ForallOrdPairs_weaken apart _ (subBlockOf parent)); [|assumption|assumption].
    intros x y Hx Hy. now apply (apart_disjoint parent).
Qed.

(** X18. The utilisation of what [allocateVlsm] allocated in a parent that
    keeps the mask invariant: the allocated space is between nothing and
    the whole parent, the free space is what is left, and the quotient
    behind the percentage is between 0 and 10000 hundredths. *)
Theorem calculateUtilization_bounds (parent : NormalisedCidr)
    (requests : list VlsmRequest) (strategy : VlsmStrategy)
    (reserved : list NormalisedCidr) (allocations : list VlsmAllocation) :
  canonical parent ->
  allocateVlsm parent requests strategy reserved = Some allocations ->
  exists u,
    calculateUtilization parent allocations = Some u
    /\ u.(totalSpace) = 2 ^ (parent.(bits) - parent.(prefix))
    /\ 0 <= u.(allocatedSpace) <= u.(totalSpace)
    /\ u.(freeSpace) = u.(totalSpace) - u.(allocatedSpace)
    /\ 0 <= u.(utilizationHundredths) <= 10000
    /\ u.(fragmentationScore) = List.length (allocatedCidrs allocations).
Proof.
  intros Hc Halloc. apply canonical_aligned in Hc.
  pose proof (allocated_total _ _ _ _ _ Hc Halloc) as Hsum.
  assert (Hs : 0 < 2 ^ (bits parent - prefix parent))
    by (apply Z.pow_pos_nonneg; destruct Hc; lia).
  unfold calculateUtilization. rewrite allocatedSpace_sum, shiftl_1.
  destruct (Z.eqb_spec (2 ^ (bits parent - prefix parent)) 0); [lia|].
  eexists. split; [reflexivity|].
  cbn [totalSpace allocatedSpace freeSpace utilizationHundredths fragmentationScore].
  split; [reflexivity|]. split; [lia|]. split; [reflexivity|]. split.
  - rewrite Z.quot_div_nonneg by lia. split.
    + apply Z.div_pos; lia.
    + apply Z.div_le_upper_bound; lia.
  - unfold allocatedCidrs. now rewrite length_map.
Qed.

Lemma calculateUtilization_bounds_witness :
  exists u,
    calculateUtilization net_192_168_0_0_24 sampleAllocations = Some u
    /\ u.(totalSpace) = 2 ^ (net_192_168_0_0_24.(bits) - net_192_168_0_0_24.(prefix))
    /\ 0 <= u.(allocatedSpace) <= u.(totalSpace)
    /\ u.(freeSpace) = u.(totalSpace) - u.(allocatedSpace)
    /\ 0 <= u.(utilizationHundredths) <= 10000
    /\ u.(fragmentationScore) = List.length (allocatedCidrs sampleAllocations).
Proof.
  apply (calculateUtilization_bounds net_192_168_0_0_24 sampleRequests LARGEST_FIRST []).
  - apply canonical_aligned. split; [|split]; cbn; try lia.
    exists 12625920. reflexivity.
  - vm_compute. reflexivity.
Defined.

(** ** Allocation policy *)

Lemma push_stage {A : Type} (b : bool) (errors : list A) (x : A) :
  (if b then push errors x else errors) = [] <-> b = false /\ errors = [].
Proof.
  destruct b; unfold push.
  - split; [intros H; apply app_eq_nil in H; destruct H; discriminate|].
    intros [? _]. discriminate.
  - tauto.
Qed.

(** X19. The verdict of [validateAllocationPolicy]: it is valid exactly
    when no error text was collected, and that is exactly when the prefix
    length respects the minimum, the maximum and the allowed list, no
    forbidden range contains or is contained in the allocation, and the
    network is a multiple of the block size when alignment is required.
    The check throws only when alignment is required of a block whose
    prefix length exceeds its width. *)
Theorem validateAllocationPolicy_verdict (a : NormalisedCidr) (policy : VlsmPolicy) :
  match validateAllocationPolicy a policy with
  | Some (valid, errors) =>
      (valid = true <-> errors = [])
      /\ (valid = true <->
          match policy.(minPrefix) with Some m => m <= a.(prefix) | None => True end
          /\ match policy.(maxPrefix) with Some m => a.(prefix) <= m | None => True end
          /\ match policy.(allowedPrefixes) with
             | Some allowed => In a.(prefix) allowed
             | None => True
             end
          /\ match policy.(forbiddenRanges) with
             | Some forbidden => Forall (fun f => apart f a) forbidden
             | None => True
             end
          /\ match policy.(requireAlignment) with
             | Some true => Z.rem a.(network) (2 ^ (a.(bits) - a.(prefix))) = 0
             | _ => True
             end)
  | None => policy.(requireAlignment) = Some true /\ a.(bits) < a.(prefix)
  end.
Proof.
  unfold validateAllocationPolicy. rewrite !shiftl_1.
  set (e1 := match minPrefix policy with Some _ => _ | None => _ end).
  set (e2 := match maxPrefix policy with Some _ => _ | None => _ end).
  set (e3 := match allowedPrefixes policy with Some _ => _ | None => _ end).
  set (e4 := match forbiddenRanges policy with Some _ => _ | None => _ end).
  assert (H1 : e1 = []
               <-> match minPrefix policy with Some m => m <= prefix a | None => True end).
  { unfold e1. destruct (minPrefix policy) as [m|]; [|tauto].
    rewrite push_stage, Z.ltb_ge. tauto. }
  assert (H2 : e2 = []
               <-> e1 = []
                   /\ match maxPrefix policy with Some m => prefix a <= m | None => True end).
  { unfold e2. destruct (maxPrefix policy) as [m|]; [|tauto].
    rewrite push_stage. destruct (Z.gtb_spec (prefix a) m); split;
      intros [? ?]; split; (congruence || lia || assumption). }
  assert (H3 : e3 = []
               <-> e2 = []
                   /\ match allowedPrefixes policy with
                      | Some allowed => In (prefix a) allowed
                      | None => True
                      end).
  { unfold e3. destruct (allowedPrefixes policy) as [allowed|]; [|tauto].
    rewrite push_stage, negb_false_iff, existsb_exists.
    split; intros [Hx He]; split; try assumption.
    - destruct Hx as (x & Hin & Hx). apply Z.eqb_eq in Hx. now subst.
    - exists (prefix a). split; [assumption|apply Z.eqb_refl]. }
  assert (H4 : e4 = []
               <-> e3 = []
                   /\ match forbiddenRanges policy with
                      | Some forbidden => Forall (fun f => apart f a) forbidden
                      | None => True
                      end).
  { unfold e4. destruct (forbiddenRanges policy) as [forbidden|]; [|tauto].
    rewrite push_stage, Forall_forall. unfold apart.
    split; intros [Hx He]; split; try assumption.
    - intros f Hf.
      destruct (containsPrefix f a || containsPrefix a f) eqn:E.
      + assert (existsb (fun f => containsPrefix f a || containsPrefix a f) forbidden = true)
          by (apply existsb_exists; exists f; auto).
        congruence.
      + now apply orb_false_iff in E.
    - destruct (existsb _ forbidden) eqn:E; [|reflexivity].
      apply existsb_exists in E. destruct E as (f & Hf & E).
      destruct (He f Hf) as [Ea Eb]. rewrite Ea, Eb in E. discriminate. }
  clearbody e1 e2 e3 e4.
  assert (V : forall errors : list string,
            Nat.eqb (List.length errors) 0 = true <-> errors = []).
  { intros errors. rewrite Nat.eqb_eq. apply length_zero_iff_nil. }
  destruct (requireAlignment policy) as [[|]|].
  - destruct (Z.eqb_spec (2 ^ (bits a - prefix a)) 0) as [E0|E0].
    + split; [reflexivity|].
      destruct (Z.lt_ge_cases (bits a) (prefix a)); [assumption|].
      assert (0 < 2 ^ (bits a - prefix a)) by (apply Z.pow_pos_nonneg; lia). lia.
    + destruct (Z.eqb_spec (Z.rem (network a) (2 ^ (bits a - prefix a))) 0) as [Er|Er];
        cbn [negb]; (split; [apply V|]); rewrite V.
      * tauto.
      * split; [|tauto]. unfold push. intros H. apply app_eq_nil in H.
        destruct H. discriminate.
  - split; [apply V|]. rewrite V. tauto.
  - split; [apply V|]. rewrite V. tauto.
Qed.

(** A block that keeps the mask invariant passes the alignment check, so
    the policy that asks only for alignment accepts every block of
    [allocateVlsm]. *)
Lemma validateAllocationPolicy_aligned (parent : NormalisedCidr)
    (requests : list VlsmRequest) (strategy : VlsmStrategy)
    (reserved : list NormalisedCidr) (allocations : list VlsmAllocation) :
  canonical parent ->
  allocateVlsm parent requests strategy reserved = Some allocations ->
  Forall (fun x => validateAllocationPolicy x.(cidr)
                     (mkPolicy None None None None (Some true)) = Some (true, []))
    allocations.
Proof.
  intros Hc Halloc.
  pose proof (allocateVlsm_canonical _ _ _ _ _ Hc Halloc) as Hall.
  eapply Forall_impl; [|exact Hall]. cbn beta. intros x Hx.
  apply canonical_aligned in Hx. destruct Hx as (Hp & Hn & Hd).
  unfold validateAllocationPolicy. cbn [minPrefix maxPrefix allowedPrefixes
    forbiddenRanges requireAlignment]. rewrite shiftl_1.
  assert (Hs : 0 < 2 ^ (bits (cidr x) - prefix (cidr x)))
    by (apply Z.pow_pos_nonneg; lia).
  destruct (Z.eqb_spec (2 ^ (bits (cidr x) - prefix (cidr x))) 0); [lia|].
  apply Z.rem_divide in Hd; [|lia]. rewrite Hd. reflexivity.
Qed.

(** ** Intersection, difference and union *)

Lemma containsIp_both (a b c : NormalisedCidr) :
  a.(version) = b.(version) -> c.(version) = a.(version) ->
  (forall x, c.(network) <= x <= lastAddressOf c
             <-> a.(network) <= x <= lastAddressOf a
                 /\ b.(network) <= x <= lastAddressOf b) ->
  forall ip, containsIp c ip = containsIp a ip && containsIp b ip.
Proof.
  intros Hv Hc H ip.
  destruct (parseAddress (version a) ip) as [x|] eqn:E.
  - rewrite (containsIp_parsed a ip x E).
    rewrite (containsIp_parsed b ip x) by congruence.
    rewrite (containsIp_parsed c ip x) by congruence.
    apply eq_true_iff_eq. rewrite !andb_true_iff, !Z.leb_le.
    specialize (H x). tauto.
  - rewrite (containsIp_malformed a ip E).
    rewrite (containsIp_malformed c ip) by congruence. reflexivity.
Qed.

(** X21. On prefixes that keep the mask invariant [intersectPrefixes] is
    the intersection: the result is one of the two inputs, both inputs
    contain it, and an address is in it exactly when it is in both; there
    is no result only when the families differ or no address is in both. *)
Theorem intersectPrefixes_meet (a b : NormalisedCidr) :
  canonical a -> canonical b ->
  match intersectPrefixes a b with
  | Some c =>
      (c = a \/ c = b)
      /\ containsPrefix a c = true /\ containsPrefix b c = true
      /\ forall ip, containsIp c ip = containsIp a ip && containsIp b ip
  | None =>
      a.(version) <> b.(version) \/ a.(bits) <> b.(bits)
      \/ forall ip, containsIp a ip && containsIp b ip = false
  end.
Proof.
  intros Ha Hb. apply canonical_aligned in Ha, Hb.
  unfold intersectPrefixes. rewrite !shiftl_1.
  destruct (negb (IpVersion_eqb _ _) || negb (_ =? _)) eqn:F.
  { destruct (Z.eqb_spec (bits a) (bits b)) as [Hw|Hw]; [|now right; left].
    left. intros Hv. rewrite Hv, IpVersion_eqb_refl in F. discriminate. }
  apply family_test in F. destruct F as [Hv Hw].
  assert (Hsa : 0 < 2 ^ (bits a - prefix a)) by (apply Z.pow_pos_nonneg; destruct Ha; lia).
  assert (Hsb : 0 < 2 ^ (bits b - prefix b)) by (apply Z.pow_pos_nonneg; destruct Hb; lia).
  destruct (_ || _) eqn:Ov.
  { right. right. intros ip.
    apply orb_true_iff in Ov. rewrite !Z.ltb_lt in Ov.
    destruct (parseAddress (version a) ip) as [x|] eqn:E.
    - rewrite (containsIp_parsed a ip x E).
      rewrite (containsIp_parsed b ip x) by congruence.
      unfold lastAddressOf.
      destruct (Z.leb_spec (network a) x), (Z.leb_spec x (network a + 2 ^ (bits a - prefix a) - 1)),
        (Z.leb_spec (network b) x), (Z.leb_spec x (network b + 2 ^ (bits b - prefix b) - 1));
        cbn; try reflexivity; lia.
    - now rewrite (containsIp_malformed a ip E). }
  apply orb_false_iff in Ov. destruct Ov as [O1 O2]. apply Z.ltb_ge in O1, O2.
  assert (Refl : forall x : NormalisedCidr, containsPrefix x x = true)
    by (intros x; apply containsPrefix_true; repeat split; lia).
  destruct (containsPrefix a b) eqn:Cab.
  { split; [now right|]. split; [assumption|]. split; [apply Refl|].
    apply containsIp_both; [assumption|congruence|].
    apply containsPrefix_true in Cab. unfold lastAddressOf. intros x. lia. }
  destruct (containsPrefix b a) eqn:Cba.
  { split; [now left|]. split; [apply Refl|]. split; [assumption|].
    apply containsIp_both; [assumption|congruence|].
    apply containsPrefix_true in Cba. unfold lastAddressOf. intros x. lia. }
  exfalso.
  destruct (Z.le_gt_cases (prefix a) (prefix b)).
  - rewrite aligned_overlap_contains in Cab; try assumption; [discriminate|lia|lia].
  - rewrite aligned_overlap_contains in Cba; try assumption;
      [discriminate|congruence|congruence|lia|lia|lia].
Qed.

Lemma intersectPrefixes_meet_witness :
  match intersectPrefixes net_10_0_0_0_8 net_10_1_0_0_16 with
  | Some c =>
      (c = net_10_0_0_0_8 \/ c = net_10_1_0_0_16)
      /\ containsPrefix net_10_0_0_0_8 c = true /\ containsPrefix net_10_1_0_0_16 c = true
      /\ forall ip, containsIp c ip
                    = containsIp net_10_0_0_0_8 ip && containsIp net_10_1_0_0_16 ip
  | None =>
      net_10_0_0_0_8.(version) <> net_10_1_0_0_16.(version)
      \/ net_10_0_0_0_8.(bits) <> net_10_1_0_0_16.(bits)
      \/ forall ip, containsIp net_10_0_0_0_8 ip && containsIp net_10_1_0_0_16 ip = false
  end.
Proof.
  apply intersectPrefixes_meet; apply canonical_aligned;
    (split; [|split]); cbn; try lia; [exists 10|exists 2561]; reflexivity.
Defined.

(** X22. [differencePrefixes] is all or nothing: it returns no prefix when
    the second prefix contains the first, and otherwise the first prefix
    unchanged, also when the second lies strictly inside the first, so it
    never returns a part of the first prefix. *)
Theorem differencePrefixes_all_or_nothing (a b : NormalisedCidr) :
  (containsPrefix b a = true /\ differencePrefixes a b = [])
  \/ (containsPrefix b a = false /\ differencePrefixes a b = [a]).
Proof.
  unfold differencePrefixes.
  destruct (negb (IpVersion_eqb _ _) || negb (_ =? _)) eqn:F.
  - right. split; [|reflexivity].
    destruct (containsPrefix b a) eqn:C; [|reflexivity].
    apply containsPrefix_true in C. destruct C as (Hv & Hw & _).
    assert (F' : negb (IpVersion_eqb (version a) (version b)) || negb (bits a =? bits b)
                 = false) by (apply family_test; split; congruence).
    congruence.
  - destruct (containsPrefix b a); [left; now split|right; split; [reflexivity|]].
    destruct (negb (containsPrefix a b)); [|reflexivity].
    destruct ((_ <? _) || _); reflexivity.
Qed.

Lemma mapSet_keys (key : string) (value : NormalisedCidr)
    (entries : list (string * NormalisedCidr)) :
  (In key (map fst entries) -> map fst (mapSet key value entries) = map fst entries)
  /\ (~ In key (map fst entries) ->
      map fst (mapSet key value entries) = (map fst entries ++ [key])%list).
Proof.
  induction entries as [|[k v] rest [IH1 IH2]]; cbn [mapSet map fst].
  - split; [intros []|reflexivity].
  - destruct (String.eqb_spec k key) as [->|Hne]; cbn [map fst].
    + split; [reflexivity|]. intros H. exfalso. apply H. now left.
    + split.
      * intros [H|H]; [contradiction|]. now rewrite IH1.
      * intros H. cbn [app]. rewrite IH2; [reflexivity|].
        intros Hin. apply H. now right.
Qed.

Lemma mapSet_In (key : string) (value : NormalisedCidr)
    (entries : list (string * NormalisedCidr)) (e : string * NormalisedCidr) :
  In e (mapSet key value entries) -> e = (key, value) \/ In e entries.
Proof.
  induction entries as [|[k v] rest IH]; cbn [mapSet].
  - intros [<-|[]]. now left.
  - destruct (String.eqb_spec k key) as [->|Hne].
    + intros [<-|H]; [now left|right; now right].
    + intros [<-|H]; [right; now left|].
      destruct (IH H) as [->|Hin]; [now left|right; now right].
Qed.

Lemma mapSet_length (key : string) (value : NormalisedCidr)
    (entries : list (string * NormalisedCidr)) :
  (List.length (mapSet key value entries) <= S (List.length entries))%nat.
Proof.
  induction entries as [|[k v] rest IH]; cbn [mapSet List.length]; [lia|].
  destruct (String.eqb k key); cbn [List.length]; lia.
Qed.

Lemma unionInv_step (seen : list NormalisedCidr) (entries : list (string * NormalisedCidr))
    (c : NormalisedCidr) :
  unionInv seen entries -> unionInv (seen ++ [c]) (mapSet (unionKey c) c entries).
Proof.
  intros (Hent & Hnd & Hall & Hlen).
  destruct (mapSet_keys (unionKey c) c entries) as [K1 K2].
  split; [|split; [|split]].
  - apply Forall_forall. intros e He. apply mapSet_In in He.
    destruct He as [->|He].
    + cbn [fst snd]. split; [reflexivity|]. apply in_or_app. right. now left.
    + rewrite Forall_forall in Hent. destruct (Hent e He) as [Hk Hs].
      split; [assumption|]. apply in_or_app. now left.
  - destruct (in_dec string_dec (unionKey c) (map fst entries)) as [Hin|Hnin].
    + now rewrite K1.
    + rewrite K2 by assumption. apply NoDup_app; [assumption|repeat constructor; intros []|].
      intros x Hx [<-|[]]. contradiction.
  - intros d Hd. apply in_app_or in Hd.
    destruct (in_dec string_dec (unionKey c) (map fst entries)) as [Hin|Hnin].
    + rewrite K1 by assumption. destruct Hd as [Hd|[<-|[]]]; [now apply Hall|assumption].
    + rewrite K2 by assumption. apply in_or_app.
      destruct Hd as [Hd|[<-|[]]]; [left; now apply Hall|right; now left].
  - rewrite length_app. cbn [List.length].
    pose proof (mapSet_length (unionKey c) c entries). lia.
Qed.

Lemma unionInv_fold (cidrs : list NormalisedCidr) :
  forall seen entries,
    unionInv seen entries ->
    unionInv (seen ++ cidrs)
      (fold_left (fun unique cidr => mapSet (unionKey cidr) cidr unique) cidrs entries).
Proof.
  induction cidrs as [|c rest IH]; intros seen entries H.
  - now rewrite app_nil_r.
  - cbn [fold_left].
    replace (seen ++ c :: rest)%list with ((seen ++ [c]) ++ rest)%list
      by (now rewrite <- app_assoc).
    apply IH. now apply unionInv_step.
Qed.

(** X23. The union of two lists of prefixes holds only prefixes of the
    lists, holds a prefix under the key of every prefix of the lists, holds
    no key twice, and is no longer than the two lists together. *)
Theorem unionPrefixes_keys (a b : list NormalisedCidr) :
  incl (unionPrefixes a b) (a ++ b)
  /\ NoDup (map unionKey (unionPrefixes a b))
  /\ (forall c, In c (a ++ b) -> In (unionKey c) (map unionKey (unionPrefixes a b)))
  /\ (List.length (unionPrefixes a b) <= List.length a + List.length b)%nat.
Proof.
  unfold unionPrefixes.
  pose proof (unionInv_fold (a ++ b) [] []
                ltac:(repeat split; [constructor|constructor|intros ? []|cbn; lia])) as H.
  cbn [app] in H. destruct H as (Hent & Hnd & Hall & Hlen).
  set (entries := fold_left _ (a ++ b)%list []) in *.
  assert (K : map unionKey (map snd entries) = map fst entries).
  { rewrite map_map. apply map_ext_in. intros e He.
    rewrite Forall_forall in Hent. now destruct (Hent e He) as [-> _]. }
  rewrite K. split; [|split; [|split]].
  - intros d Hd. apply in_map_iff in Hd. destruct Hd as (e & <- & He).
    rewrite Forall_forall in Hent. now destruct (Hent e He).
  - assumption.
  - assumption.
  - rewrite length_map. rewrite length_app in Hlen. exact Hlen.
Qed.

(** ** Covering supernet and summary *)

Lemma aligned_within_space (x : NormalisedCidr) :
  aligned x -> x.(network) + 2 ^ (x.(bits) - x.(prefix)) <= 2 ^ x.(bits).
Proof.
  intros (Hp & Hn & k & Hk).
  assert (Hs : 0 < 2 ^ (bits x - prefix x)) by (apply Z.pow_pos_nonneg; lia).
  assert (Hpp : 0 < 2 ^ prefix x) by (apply Z.pow_pos_nonneg; lia).
  assert (Hb : 2 ^ bits x = 2 ^ prefix x * 2 ^ (bits x - prefix x))
    by (rewrite <- Z.pow_add_r by lia; f_equal; lia).
  rewrite Hb, Hk in *.
  assert (k < 2 ^ prefix x) by nia.
  nia.
Qed.

(** X24. The prefix [minimalCoveringSupernet] returns for prefixes that
    keep the mask invariant contains every one of them. *)
Theorem minimalCoveringSupernet_covers (cidrs : list NormalisedCidr)
    (c : NormalisedCidr) :
  Forall canonical cidrs -> minimalCoveringSupernet cidrs = Some c ->
  Forall (fun x => containsPrefix c x = true) cidrs.
Proof.
  intros Hall H.
  destruct cidrs as [|c0 [|c1 rest]]; [discriminate| |].
  - cbn in H. apply Some_eq in H. subst c. repeat constructor.
    apply containsPrefix_true. repeat split; lia.
  - destruct (sameFamily (version c0) (bits c0) (c0 :: c1 :: rest)) eqn:F;
      [|rewrite minimalCoveringSupernet_mixed in H by assumption; discriminate].
    assert (H0 : 0 <= bits c0).
    { inversion Hall as [|? ? Hc0 _]; subst. apply canonical_aligned in Hc0.
      destruct Hc0. lia. }
    rewrite (minimalCoveringSupernet_whole_space c0 c1 rest H0 F) in H.
    apply Some_eq in H. subst c.
    unfold sameFamily in F. rewrite forallb_forall in F.
    rewrite Forall_forall in *. intros x Hx.
    specialize (F x Hx). apply andb_true_iff in F. destruct F as [Fv Fw].
    apply IpVersion_eqb_eq in Fv. apply Z.eqb_eq in Fw.
    pose proof (Hall x Hx) as Hax. apply canonical_aligned in Hax.
    pose proof (aligned_within_space x Hax) as Hin.
    destruct Hax as (Hp & Hn & _).
    apply containsPrefix_true. cbn [version bits network prefix].
    rewrite Z.sub_0_r. repeat split; try congruence; try lia.
    rewrite <- Fw. lia.
Qed.

Lemma minimalCoveringSupernet_covers_witness :
  Forall (fun x => containsPrefix (mkCidr V4 32 0 0) x = true)
    [net_10_0_0_0_8; net_192_168_0_0_24].
Proof.
  apply minimalCoveringSupernet_covers.
  - repeat constructor; apply canonical_aligned; (split; [|split]); cbn; try lia;
      [exists 10|exists 12625920]; reflexivity.
  - vm_compute. reflexivity.
Defined.

Lemma containsPrefix_refl (x : NormalisedCidr) : containsPrefix x x = true.
Proof. apply containsPrefix_true. repeat split; lia. Qed.

Lemma containsPrefix_trans (a b c : NormalisedCidr) :
  containsPrefix a b = true -> containsPrefix b c = true -> containsPrefix a c = true.
Proof.
  rewrite !containsPrefix_true.
  intros (Hv & Hw & Hp & Hn & Hl) (Hv' & Hw' & Hp' & Hn' & Hl').
  repeat split; (congruence || lia).
Qed.

Lemma mergeSiblings_merged (a b c : NormalisedCidr) :
  mergeSiblings a b = Some c ->
  containsPrefix c a = true /\ containsPrefix c b = true
  /\ 2 ^ (c.(bits) - c.(prefix))
     = 2 ^ (a.(bits) - a.(prefix)) + 2 ^ (b.(bits) - b.(prefix))
  /\ c.(version) = a.(version) /\ c.(bits) = a.(bits)
  /\ (a.(network) <= b.(network) -> c.(network) = a.(network)).
Proof.
  intros H. apply mergeSiblings_inv in H.
  destruct H as (Hv & Hw & Hp & Hr & P & Ha & Hb & -> & Hn).
  assert (Hh : 0 < 2 ^ (bits a - prefix a)) by (apply Z.pow_pos_nonneg; lia).
  assert (Hd : 2 ^ (bits a - (prefix a - 1)) = 2 * 2 ^ (bits a - prefix a)).
  { replace (bits a - (prefix a - 1)) with (Z.succ (bits a - prefix a)) by lia.
    apply Z.pow_succ_r. lia. }
  rewrite !containsPrefix_true. cbn [version bits network prefix].
  rewrite <- Hw, <- Hp.
  repeat split; try congruence; try lia.
Qed.

Lemma totalLength_perm (l l' : list (Z * Z)) :
  Permutation l l' -> totalLength l = totalLength l'.
Proof.
  intros H. induction H as [|x l l' H IH|x y l|l l' l'' H1 IH1 H2 IH2].
  - reflexivity.
  - cbn [totalLength fold_right]. fold (totalLength l) (totalLength l'). lia.
  - cbn [totalLength fold_right]. lia.
  - congruence.
Qed.

Lemma summarises_refl (l : list NormalisedCidr) : summarises l l.
Proof.
  split; [lia|]. split; [reflexivity|].
  intros x Hx. exists x. split; [assumption|apply containsPrefix_refl].
Qed.

Lemma summarises_trans (l1 l2 l3 : list NormalisedCidr) :
  summarises l1 l2 -> summarises l2 l3 -> summarises l1 l3.
Proof.
  intros (A1 & A2 & A3) (B1 & B2 & B3).
  split; [lia|]. split; [congruence|].
  intros x Hx. destruct (A3 x Hx) as (y & Hy & Hxy).
  destruct (B3 y Hy) as (z & Hz & Hyz).
  exists z. split; [assumption|]. now apply (containsPrefix_trans z y x).
Qed.

Lemma summarises_perm (l l' : list NormalisedCidr) :
  Permutation l l' -> summarises l l'.
Proof.
  intros H. split; [now rewrite (Permutation_length H)|]. split.
  - symmetry. apply totalLength_perm. now apply Permutation_map.
  - intros x Hx. exists x. split; [|apply containsPrefix_refl].
    now apply (Permutation_in x H).
Qed.

Lemma mergePass_summarises (n : nat) :
  forall current, (List.length current <= n)%nat ->
    summarises current (fst (mergePass current))
    /\ (snd (mergePass current) = false -> fst (mergePass current) = current)
    /\ (byNetwork current ->
        byNetwork (fst (mergePass current))
        /\ fromBelow current (fst (mergePass current)))
    /\ (forall v w, Forall (familyOf v w) current ->
                    Forall (familyOf v w) (fst (mergePass current))).
Proof.
  induction n as [|n IH]; intros current Hlen.
  - destruct current; [|cbn in Hlen; lia]. cbn.
    split; [apply summarises_refl|]. split; [reflexivity|].
    split; [|auto]. intros H. split; [assumption|]. intros y [].
  - destruct current as [|a [|b rest']].
    + cbn. split; [apply summarises_refl|]. split; [reflexivity|].
      split; [|auto]. intros H. split; [assumption|]. intros y [].
    + cbn. split; [apply summarises_refl|]. split; [reflexivity|].
      split; [|auto]. intros H. split; [assumption|].
      intros y Hy. exists y. split; [assumption|lia].
    + rewrite mergePass_two. cbn [List.length] in Hlen.
      destruct (mergeSiblings a b) as [merged|] eqn:Em.
      * destruct (IH rest' ltac:(lia)) as ((S1 & S2 & S3) & _ & Hsort & Hfam).
        apply mergeSiblings_merged in Em.
        destruct Em as (Ca & Cb & Esize & Ev & Ew & Enet).
        destruct (mergePass rest') as [next ch]. cbn [fst snd] in *.
        split; [|split; [discriminate|split]].
        -- split; [cbn [List.length]; lia|]. split.
           ++ cbn [map totalLength fold_right intervalOf fst snd].
              fold (totalLength (map intervalOf next)).
              fold (totalLength (map intervalOf rest')).
              lia.
           ++ intros x [<-|[<-|Hx]].
              ** exists merged. split; [now left|assumption].
              ** exists merged. split; [now left|assumption].
              ** destruct (S3 x Hx) as (y & Hy & Hc). exists y. split; [now right|assumption].
        -- intros Hs. inversion Hs as [|? ? Hs' Ha]; subst.
           inversion Hs' as [|? ? Hs'' Hb]; subst.
           inversion Ha as [|? ? Hab Har]; subst.
           destruct (Hsort Hs'') as [Hn Hbelow]. specialize (Enet Hab).
           split.
           ++ constructor; [assumption|]. apply Forall_forall. intros y Hy.
              destruct (Hbelow y Hy) as (x & Hx & Hxy).
              rewrite Forall_forall in Har. specialize (Har x Hx). lia.
           ++ intros y [<-|Hy].
              ** exists a. split; [now left|lia].
              ** destruct (Hbelow y Hy) as (x & Hx & Hxy).
                 exists x. split; [right; now right|assumption].
        -- intros v w Hall. inversion Hall as [|? ? Ha Hr]; subst.
           inversion Hr as [|? ? Hb Hr']; subst.
           constructor; [|now apply Hfam].
           destruct Ha as [Hav Haw]. split; congruence.
      * destruct (IH (b :: rest') ltac:(cbn [List.length]; lia))
          as ((S1 & S2 & S3) & Hfix & Hsort & Hfam).
        destruct (mergePass (b :: rest')) as [next ch]. cbn [fst snd] in *.
        split; [|split; [|split]].
        -- split; [cbn [List.length] in *; lia|]. split.
           ++ cbn [map totalLength fold_right] in *.
              fold (totalLength (map intervalOf next)).
              fold (totalLength (map intervalOf rest')) in *. lia.
           ++ intros x [<-|Hx].
              ** exists a. split; [now left|apply containsPrefix_refl].
              ** destruct (S3 x Hx) as (y & Hy & Hc). exists y. split; [now right|assumption].
        -- intros Hch. now rewrite (Hfix Hch).
        -- intros Hs. inversion Hs as [|? ? Hs' Ha]; subst.
           destruct (Hsort Hs') as [Hn Hbelow].
           split.
           ++ constructor; [assumption|]. apply Forall_forall. intros y Hy.
              destruct (Hbelow y Hy) as (x & Hx & Hxy).
              rewrite Forall_forall in Ha. specialize (Ha x Hx). lia.
           ++ intros y [<-|Hy].
              ** exists a. split; [now left|lia].
              ** destruct (Hbelow y Hy) as (x & Hx & Hxy).
                 exists x. split; [now right|assumption].
        -- intros v w Hall. inversion Hall as [|? ? Ha Hr]; subst.
           constructor; [assumption|now apply Hfam].
Qed.

Lemma summarizeLoop_summarises (fuel : nat) :
  forall current result,
    summarizeLoop fuel current = Some result ->
    summarises current result
    /\ mergePass result = (result, false)
    /\ (byNetwork current -> byNetwork result)
    /\ (forall v w, Forall (familyOf v w) current -> Forall (familyOf v w) result).
Proof.
  induction fuel as [|f IH]; intros current result; cbn [summarizeLoop];
    [discriminate|].
  destruct (mergePass_summarises _ current (Nat.le_refl _)) as (M1 & M2 & M3 & M4).
  destruct (mergePass current) as [next changed] eqn:Ep. cbn [fst snd] in *.
  destruct changed.
  - intros H. destruct (IH next result H) as (I1 & I2 & I3 & I4).
    split; [now apply (summarises_trans current next result)|].
    split; [assumption|]. split.
    + intros Hs. apply I3. now apply M3.
    + intros v w Hall. apply I4. now apply M4.
  - intros E. apply Some_eq in E. subst result.
    rewrite (M2 eq_refl) in *.
    split; [apply summarises_refl|]. split; [assumption|]. split; auto.
Qed.

Lemma insertByNetwork_sorted (c : NormalisedCidr) (sorted : list NormalisedCidr) :
  byNetwork sorted -> byNetwork (insertByNetwork c sorted).
Proof.
  intros H. induction H as [|d rest Hrest IH Hd]; cbn [insertByNetwork].
  - repeat constructor.
  - destruct (Z.ltb_spec (network d) (network c)).
    + constructor; [assumption|].
      eapply Permutation_Forall; [symmetry; apply insertByNetwork_perm|].
      constructor; [lia|assumption].
    + constructor; [now constructor|].
      constructor; [assumption|].
      eapply Forall_impl; [|exact Hd]. cbn beta. intros x Hx. lia.
Qed.

Lemma sortByNetwork_sorted (cidrs : list NormalisedCidr) : byNetwork (sortByNetwork cidrs).
Proof.
  induction cidrs as [|c rest IH]; cbn; [constructor|].
  now apply insertByNetwork_sorted.
Qed.

Lemma sortByNetwork_fixed (cidrs : list NormalisedCidr) :
  byNetwork cidrs -> sortByNetwork cidrs = cidrs.
Proof.
  intros H. induction H as [|c rest Hrest IH Hc]; [reflexivity|].
  cbn [sortByNetwork fold_right]. fold (sortByNetwork rest). rewrite IH.
  destruct rest as [|d rest']; [reflexivity|]. cbn [insertByNetwork].
  inversion Hc; subst. destruct (Z.ltb_spec (network d) (network c)); [lia|reflexivity].
Qed.

(** X25. What [summarizePrefixes] returns summarises its input: it is no
    longer, it has as many addresses in all, and every input prefix is
    inside one of its prefixes.  No two neighbours of the result merge, and
    summarising the result again changes nothing. *)
Theorem summarizePrefixes_summary (cidrs result : list NormalisedCidr) :
  summarizePrefixes cidrs = Some result ->
  (List.length result <= List.length cidrs)%nat
  /\ totalLength (map intervalOf result) = totalLength (map intervalOf cidrs)
  /\ (forall x, In x cidrs -> exists y, In y result /\ containsPrefix y x = true)
  /\ mergePass result = (result, false)
  /\ summarizePrefixes result = Some result.
Proof.
  unfold summarizePrefixes at 1.
  destruct cidrs as [|c0 [|c1 rest]].
  - intros E. apply Some_eq in E. subst result.
    destruct (summarises_refl []) as (A & B & C). repeat split; auto.
  - intros E. apply Some_eq in E. subst result.
    destruct (summarises_refl [c0]) as (A & B & C). repeat split; auto.
  - destruct (sameFamily _ _ _) eqn:F; [|discriminate]. cbn [negb].
    intros H. apply summarizeLoop_summarises in H.
    destruct H as (H1 & H2 & H3 & H4).
    pose proof (summarises_trans _ _ _
                  (summarises_perm _ _ (Permutation_sym (sortByNetwork_perm (c0 :: c1 :: rest))))
                  H1) as (A & B & C).
    split; [assumption|]. split; [assumption|]. split; [assumption|].
    split; [assumption|].
    specialize (H3 (sortByNetwork_sorted _)).
    assert (Hfam : Forall (familyOf (version c0) (bits c0)) result).
    { apply H4. eapply Permutation_Forall; [symmetry; apply sortByNetwork_perm|].
      unfold sameFamily in F. rewrite forallb_forall in F.
      apply Forall_forall. intros x Hx. specialize (F x Hx).
      apply andb_true_iff in F. destruct F as [Fv Fw].
      apply IpVersion_eqb_eq in Fv. apply Z.eqb_eq in Fw. now split. }
    unfold summarizePrefixes.
    destruct result as [|r0 [|r1 rest']]; [reflexivity|reflexivity|].
    replace (sameFamily (version r0) (bits r0) (r0 :: r1 :: rest')) with true.
    + cbn [negb]. rewrite (sortByNetwork_fixed _ H3).
      cbn [summarizeLoop]. now rewrite H2.
    + symmetry. unfold sameFamily. apply forallb_forall. intros x Hx.
      rewrite Forall_forall in Hfam.
      destruct (Hfam x Hx) as [Hv Hw].
      destruct (Hfam r0 (or_introl eq_refl)) as [Hv0 Hw0].
      rewrite Hv, Hw, Hv0, Hw0, IpVersion_eqb_refl, Z.eqb_refl. reflexivity.
Qed.

Lemma summarizePrefixes_summary_witness :
  summarizePrefixes [mkCidr V4 32 167772160 24] = Some [mkCidr V4 32 167772160 24]
  /\ totalLength (map intervalOf [mkCidr V4 32 167772160 24])
     = totalLength (map intervalOf
         [mkCidr V4 32 167772352 26; mkCidr V4 32 167772224 26;
          mkCidr V4 32 167772288 26; mkCidr V4 32 167772160 26]).
Proof.
  pose proof (summarizePrefixes_summary
                [mkCidr V4 32 167772352 26; mkCidr V4 32 167772224 26;
                 mkCidr V4 32 167772288 26; mkCidr V4 32 167772160 26]
                [mkCidr V4 32 167772160 24]
                ltac:(vm_compute; reflexivity)) as (_ & B & _ & _ & E).
  split; assumption.
Defined.

(** ** Ranges *)

Lemma tilesFrom_snoc (blocks : list NormalisedCidr) (c : NormalisedCidr) :
  forall from current,
    tilesFrom from blocks = Some current -> c.(network) = current ->
    tilesFrom from (blocks ++ [c]) = Some (current + 2 ^ (c.(bits) - c.(prefix))).
Proof.
  induction blocks as [|d rest IH]; intros from current H Hc; cbn [tilesFrom app] in *.
  - apply Some_eq in H. subst from. now rewrite Hc, Z.eqb_refl.
  - destruct (network d =? from); [|discriminate]. now apply IH.
Qed.

Lemma trailingZerosLoop_max (fuel : nat) (b current : Z) :
  forall tz temp,
    0 <= tz <= b -> current = temp * 2 ^ tz -> b - tz <= Z.of_nat fuel ->
    let r := trailingZerosLoop fuel b tz temp in
    r < b -> ~ (2 ^ (r + 1) | current).
Proof.
  induction fuel as [|f IH]; intros tz temp Htz Hc Hf; cbn [trailingZerosLoop].
  - cbn zeta. lia.
  - assert (Odd : Z.land temp 1 <> 0 -> ~ (2 ^ (tz + 1) | current)).
    { intros Hodd [k Hk]. apply Hodd.
      change 1 with (Z.ones 1). rewrite Z.land_ones by lia. change (2 ^ 1) with 2.
      assert (Hs : 0 < 2 ^ tz) by (apply Z.pow_pos_nonneg; lia).
      rewrite Z.pow_add_r in Hk by lia. change (2 ^ 1) with 2 in Hk.
      assert (temp = 2 * k) by nia.
      subst temp. rewrite Z.mul_comm. apply Z.mod_mul. lia. }
    destruct (Z.ltb_spec tz b); cbn [andb]; [|cbn zeta; lia].
    destruct (Z.eqb_spec (Z.land temp 1) 0) as [E|Hodd]; [|cbn zeta; auto].
    cbn zeta in IH. apply IH; [lia| |lia].
    change 1 with (Z.ones 1) in E. rewrite Z.land_ones in E by lia.
    rewrite Z.shiftr_div_pow2, Z.pow_add_r by lia.
    change (2 ^ 1) with 2 in *.
    pose proof (Z.div_mod temp 2 ltac:(lia)) as D. rewrite E in D.
    rewrite Hc. rewrite D at 1. ring.
Qed.

Lemma findPrefix_least (fuel : nat) (b current endInt : Z) :
  forall p,
    p <= b -> b - p < Z.of_nat fuel ->
    forall q, p <= q < findPrefix fuel b current endInt p ->
      endInt < current + 2 ^ (b - q) - 1.
Proof.
  induction fuel as [|f IH]; intros p Hp Hf q; cbn [findPrefix]; [lia|].
  destruct (Z.leb_spec p b); [|lia].
  rewrite shiftl_1.
  destruct (Z.leb_spec (current + 2 ^ (b - p) - 1) endInt); [lia|].
  intros Hq. destruct (Z.eq_dec q p) as [->|Hne]; [assumption|].
  destruct (Z.eq_dec p b) as [->|Hpb].
  - exfalso. destruct f; cbn [findPrefix] in Hq; [lia|].
    destruct (Z.leb_spec (b + 1) b); lia.
  - apply (IH (p + 1)); lia.
Qed.

Lemma rangeStep_largest (v : IpVersion) (b endInt current : Z) :
  0 <= b -> 0 <= current <= endInt ->
  let tz := trailingZerosLoop (Z.to_nat b) b 0 current in
  let p := findPrefix (S (Z.to_nat tz)) b current endInt (b - tz) in
  largestFit endInt (mkCidr v b current p).
Proof.
  intros Hb Hc. cbv zeta.
  destruct (trailingZerosLoop_spec (Z.to_nat b) b current 0 current) as [T1 T2];
    [lia|cbn; lia|].
  pose proof (trailingZerosLoop_max (Z.to_nat b) b current 0 current
                ltac:(lia) ltac:(cbn; lia) ltac:(lia)) as Tmax.
  cbv zeta in Tmax.
  set (tz := trailingZerosLoop (Z.to_nat b) b 0 current) in *.
  destruct (findPrefix_spec (S (Z.to_nat tz)) b current endInt (b - tz)) as [P1 P2];
    [lia|lia|].
  pose proof (findPrefix_least (S (Z.to_nat tz)) b current endInt (b - tz)
                ltac:(lia) ltac:(lia)) as Pmin.
  set (p := findPrefix (S (Z.to_nat tz)) b current endInt (b - tz)) in *.
  unfold largestFit. cbn [version bits network prefix].
  destruct (Z.eq_dec p 0) as [E0|E0]; [now left|right].
  intros [Hdiv Hfit].
  destruct (Z.le_gt_cases (b - tz) (p - 1)) as [Hq|Hq].
  - specialize (Pmin (p - 1) ltac:(lia)).
    replace (b - (p - 1)) with (b - p + 1) in Pmin by lia. lia.
  - assert (Ep : p = b - tz) by lia.
    replace (b - p + 1) with (tz + 1) in Hdiv by lia.
    apply Tmax; [lia|assumption].
Qed.

Lemma rangeStep_tiling_inl (v : IpVersion) (b startInt endInt : Z)
    (st st' : Z * list NormalisedCidr) :
  0 <= b -> endInt < 2 ^ b ->
  tilingInv v b startInt endInt st -> rangeStep v b endInt st = inl st' ->
  tilingInv v b startInt endInt st' /\ (endInt + 1 - fst st') + 1 <= endInt + 1 - fst st.
Proof.
  intros Hb He (Hc & Hr & Hf & Hl & Ht). destruct st as [current result].
  cbn [fst snd] in *. unfold rangeStep.
  destruct (Z.leb_spec current endInt); [|discriminate].
  destruct (rangeStep_emits v b endInt current Hb ltac:(lia) He) as [Ha Hn].
  pose proof (rangeStep_largest v b endInt current Hb ltac:(lia)) as Hbig.
  cbv zeta in Hbig.
  rewrite shiftl_1.
  remember (findPrefix _ _ _ _ _) as p.
  destruct (_ =? 0); [discriminate|].
  intros [= <-]. unfold tilingInv. cbn [fst snd]. split; [|lia].
  split; [lia|]. split; [|split; [|split]].
  - apply Forall_app. split; [assumption|]. now constructor.
  - apply Forall_app. split; [assumption|]. constructor; [now split|constructor].
  - apply Forall_app. split; [assumption|]. now constructor.
  - now apply (tilesFrom_snoc result (mkCidr v b current p) startInt current).
Qed.

Lemma rangeStep_tiling_inr (v : IpVersion) (b startInt endInt : Z)
    (st : Z * list NormalisedCidr) (result : list NormalisedCidr) :
  0 <= b -> endInt < 2 ^ b ->
  tilingInv v b startInt endInt st -> rangeStep v b endInt st = inr result ->
  tiling v b startInt endInt result.
Proof.
  intros Hb He (Hc & Hr & Hf & Hl & Ht). destruct st as [current res].
  cbn [fst snd] in *. unfold rangeStep.
  destruct (Z.leb_spec current endInt).
  - destruct (rangeStep_emits v b endInt current Hb ltac:(lia) He) as [Ha Hn].
    rewrite shiftl_1.
    remember (findPrefix _ _ _ _ _) as p.
    destruct (Z.eqb_spec (current + 2 ^ (b - p)) 0); [lia|discriminate].
  - intros [= <-]. unfold tiling. replace (endInt + 1) with current by lia.
    repeat split; assumption.
Qed.

Lemma rangeLoop_tiling (v : IpVersion) (b endInt startInt : Z) (k : nat)
    (result : list NormalisedCidr) :
  0 <= b -> endInt < 2 ^ b -> 0 <= startInt <= endInt + 1 ->
  Loop.iterPow (rangeStep v b endInt) k (startInt, []) = inr result ->
  tiling v b startInt endInt result.
Proof.
  intros Hb He Hs.
  apply (iterPow_inr (rangeStep v b endInt) (tilingInv v b startInt endInt)
           (tiling v b startInt endInt) (fun st => endInt + 1 - fst st)).
  - intros s s'. apply rangeStep_tiling_inl; assumption.
  - intros s r. apply rangeStep_tiling_inr; assumption.
  - split; [exact Hs|]. split; [constructor|]. split; [constructor|].
    split; [constructor|reflexivity].
Qed.

(** X26. The prefixes [rangeToMinimalPrefixes] returns for two addresses
    that parse, the first not above the second, tile the range: they keep
    the mask invariant, the first starts at the first address, each next one
    starts where the one before ends, and the last ends at the second
    address.  Each is the largest block at its place: the block of twice
    its size does not start there or ends after the second address.  With
    the first address above the second there is no result. *)
Theorem rangeToMinimalPrefixes_tiles (start end_ : string) (startInt endInt : Z) :
  parseAddress (versionOf start) start = Some startInt ->
  parseAddress (versionOf start) end_ = Some endInt ->
  (startInt <= endInt ->
   exists l,
     rangeToMinimalPrefixes start end_ = Some l
     /\ l <> []
     /\ Forall canonical l
     /\ Forall (familyOf (versionOf start) (bitsOf (versionOf start))) l
     /\ Forall (largestFit endInt) l
     /\ tilesFrom startInt l = Some (endInt + 1))
  /\ (endInt < startInt -> rangeToMinimalPrefixes start end_ = None).
Proof.
  intros Es Ee. unfold rangeToMinimalPrefixes. rewrite Es, Ee.
  set (v := versionOf start) in *.
  apply parseAddress_bound in Es, Ee.
  assert (Hb : 0 <= bitsOf v) by (destruct v; cbn; lia).
  split.
  - intros Hle. destruct (Z.gtb_spec startInt endInt); [lia|].
    assert (Hw : 2 ^ bitsOf v < 2 ^ Z.of_nat 129) by (destruct v; cbn; lia).
    destruct (rangeLoop_ends v (bitsOf v) endInt startInt 129) as [r Hr];
      [lia|lia|lia|lia|].
    rewrite Hr. exists r. split; [reflexivity|].
    apply rangeLoop_tiling in Hr; [|lia|lia|lia].
    destruct Hr as (Ha & Hf & Hl & Ht).
    split; [|split; [|split; [|split]]].
    + intros ->. cbn in Ht. apply Some_eq in Ht. lia.
    + eapply Forall_impl; [|exact Ha]. intros c. apply canonical_aligned.
    + assumption.
    + assumption.
    + assumption.
  - intros Hgt. destruct (Z.gtb_spec startInt endInt); [reflexivity|lia].
Qed.

Lemma rangeToMinimalPrefixes_tiles_witness :
  exists l,
    rangeToMinimalPrefixes "10.0.0.1" "10.0.0.17" = Some l
    /\ l <> []
    /\ Forall canonical l
    /\ Forall (familyOf (versionOf "10.0.0.1") (bitsOf (versionOf "10.0.0.1"))) l
    /\ Forall (largestFit 167772177) l
    /\ tilesFrom 167772161 l = Some (167772177 + 1).
Proof.
  apply (rangeToMinimalPrefixes_tiles "10.0.0.1" "10.0.0.17" 167772161 167772177);
    (vm_compute; reflexivity) || lia.
Defined.

(** ** Text and number: IPv4 *)

Lemma decimal_roundtrip (v : Z) :
  0 <= v < 256 -> isDigits (toString10 v) = true /\ Number (toString10 v) = v.
Proof.
  intros H.
  assert (T : allBelow decimalRoundTrip 256 = true) by (vm_compute; reflexivity).
  pose proof (allBelow_spec _ _ T v ltac:(lia)) as E.
  unfold decimalRoundTrip in E. apply andb_true_iff in E.
  destruct E as [E1 E2]. apply Z.eqb_eq in E2. now split.
Qed.

Lemma land_255 (x : Z) : Z.land x 0xff = x mod 256.
Proof. change 0xff with (Z.ones 8). rewrite Z.land_ones by lia. reflexivity. Qed.

Lemma octets_value (n : Z) :
  0 <= n < 2 ^ 32 ->
  (((n / 2 ^ 24) mod 256 * 256 + (n / 2 ^ 16) mod 256) * 256 + (n / 2 ^ 8) mod 256) * 256
  + n mod 256 = n.
Proof.
  intros H.
  change (2 ^ 24) with (256 * (256 * 256)). change (2 ^ 16) with (256 * 256).
  change (2 ^ 8) with 256.
  rewrite <- !Z.div_div by lia.
  pose proof (Z.div_mod n 256 ltac:(lia)).
  pose proof (Z.div_mod (n / 256) 256 ltac:(lia)).
  pose proof (Z.div_mod (n / 256 / 256) 256 ltac:(lia)).
  assert (n / 256 / 256 / 256 < 256).
  { rewrite !Z.div_div by lia. apply Z.div_lt_upper_bound; lia. }
  assert (0 <= n / 256 / 256 / 256) by (repeat apply Z.div_pos; lia).
  rewrite (Z.mod_small (n / 256 / 256 / 256)) by lia. lia.
Qed.

Lemma ipv4_text (n : Z) :
  0 <= n < 2 ^ 32 ->
  bigIntToIpv4 n
  = Some (toString10 ((n / 2 ^ 24) mod 256) ++ "."
          ++ toString10 ((n / 2 ^ 16) mod 256) ++ "."
          ++ toString10 ((n / 2 ^ 8) mod 256) ++ "."
          ++ toString10 (n mod 256)).
Proof.
  intros H. unfold bigIntToIpv4.
  destruct (Z.ltb_spec n 0); [lia|]. destruct (Z.gtb_spec n 0xffffffff); [lia|].
  cbn [orb]. rewrite !land_255, !Z.shiftr_div_pow2 by lia. reflexivity.
Qed.

Lemma ipv4_parse_text (n : Z) :
  0 <= n < 2 ^ 32 ->
  ipv4ToBigInt (toString10 ((n / 2 ^ 24) mod 256) ++ "."
                ++ toString10 ((n / 2 ^ 16) mod 256) ++ "."
                ++ toString10 ((n / 2 ^ 8) mod 256) ++ "."
                ++ toString10 (n mod 256))
  = Some n.
Proof.
  intros H.
  pose proof (Z.mod_pos_bound (n / 2 ^ 24) 256 ltac:(lia)) as Ba.
  pose proof (Z.mod_pos_bound (n / 2 ^ 16) 256 ltac:(lia)) as Bb.
  pose proof (Z.mod_pos_bound (n / 2 ^ 8) 256 ltac:(lia)) as Bc.
  pose proof (Z.mod_pos_bound n 256 ltac:(lia)) as Bd.
  destruct (decimal_roundtrip _ Ba) as [Da Na].
  destruct (decimal_roundtrip _ Bb) as [Db Nb].
  destruct (decimal_roundtrip _ Bc) as [Dc Nc].
  destruct (decimal_roundtrip _ Bd) as [Dd Nd].
  rewrite ipv4ToBigInt_digit_octets by (assumption || lia).
  rewrite Na, Nb, Nc, Nd. f_equal. now apply octets_value.
Qed.

(** X27. Writing a 32-bit number as dotted decimal and reading the text
    back gives the number. *)
Theorem ipv4_round_trip (n : Z) :
  0 <= n < 2 ^ 32 ->
  exists s, bigIntToIpv4 n = Some s /\ ipv4ToBigInt s = Some n.
Proof.
  intros H. eexists. split; [now apply ipv4_text|now apply ipv4_parse_text].
Qed.

Lemma ipv4_round_trip_witness :
  exists s, bigIntToIpv4 3232235777 = Some s /\ ipv4ToBigInt s = Some 3232235777.
Proof. apply ipv4_round_trip. lia. Defined.

(** ** Netmasks *)

Lemma land_pow2_test (a k : Z) :
  0 <= k -> (Z.land a (2 ^ k) =? 0) = negb (Z.testbit a k).
Proof.
  intros Hk.
  replace (2 ^ k) with (Z.shiftl (Z.ones 1) k)
    by (change (Z.ones 1) with 1; apply shiftl_1).
  rewrite land_shifted_ones by lia.
  rewrite Z.testbit_odd. change (2 ^ 1) with 2.
  rewrite Zmod_odd.
  assert (0 < 2 ^ k) by (apply Z.pow_pos_nonneg; lia).
  destruct (Z.odd (Z.shiftr a k)); cbn [negb].
  - apply Z.eqb_neq. lia.
  - apply Z.eqb_eq. lia.
Qed.

Lemma mask_testbit (p b k : Z) :
  0 <= p <= b -> 0 <= k ->
  Z.testbit (2 ^ b - 2 ^ (b - p)) k = (b - p <=? k) && (k <? b).
Proof.
  intros Hp Hk. rewrite mask_as_shifted_ones by lia.
  rewrite Z.shiftl_spec by lia.
  destruct (Z.leb_spec (b - p) k); cbn [andb].
  - destruct (Z.ltb_spec k b).
    + apply Z.ones_spec_low. lia.
    + apply Z.ones_spec_high. lia.
  - apply Z.testbit_neg_r. lia.
Qed.

Lemma leadingOnes_mask (p b : Z) (count : nat) :
  0 <= p <= b ->
  forall i, 0 <= i <= p -> Z.of_nat count = b - i ->
    leadingOnes count i (2 ^ b - 2 ^ (b - p)) (2 ^ (b - 1)) i = p.
Proof.
  intros Hp. induction count as [|c IH]; intros i Hi Hc; cbn [leadingOnes]; [lia|].
  rewrite Z.shiftr_div_pow2 by lia.
  rewrite <- Z.pow_sub_r by lia.
  rewrite land_pow2_test, mask_testbit by lia.
  destruct (Z.leb_spec (b - p) (b - 1 - i)); cbn [andb].
  - destruct (Z.ltb_spec (b - 1 - i) b); [|lia]. cbn [negb].
    apply IH; lia.
  - cbn [negb]. lia.
Qed.

(** X20. With an address and a netmask that parse, [parseCidrWithNetmask]
    succeeds exactly when the netmask is the mask of a prefix length; the
    result then has that prefix length and the address cut by the mask. *)
Theorem parseCidrWithNetmask_contiguous (address netmask : string) (ip m : Z) :
  parseAddress (versionOf address) address = Some ip ->
  parseAddress (versionOf address) netmask = Some m ->
  match parseCidrWithNetmask address netmask with
  | Some c =>
      maskFromPrefix c.(prefix) (bitsOf (versionOf address)) = Some m
      /\ c = mkCidr (versionOf address) (bitsOf (versionOf address)) (Z.land ip m) c.(prefix)
  | None => forall p, maskFromPrefix p (bitsOf (versionOf address)) <> Some m
  end.
Proof.
  intros Ea Em. unfold parseCidrWithNetmask. rewrite Ea, Em.
  set (v := versionOf address) in *. rewrite shiftl_1.
  set (q := leadingOnes _ _ _ _ _).
  assert (Hq : forall p, maskFromPrefix p (bitsOf v) = Some m -> q = p).
  { intros p Hp. pose proof (maskFromPrefix_Some _ _ _ Hp) as Hr.
    rewrite maskFromPrefix_value in Hp by assumption. apply Some_eq in Hp.
    unfold q. rewrite <- Hp. apply leadingOnes_mask; [assumption|lia|].
    destruct v; cbn; lia. }
  destruct (maskFromPrefix q (bitsOf v)) as [expected|] eqn:Eq.
  - destruct (Z.eqb_spec m expected) as [->|Hne]; cbn [negb].
    + cbn [prefix]. now split.
    + intros p Hp. rewrite <- (Hq p Hp) in Hp. congruence.
  - intros p Hp. rewrite <- (Hq p Hp) in Hp. congruence.
Qed.

Lemma parseCidrWithNetmask_contiguous_witness :
  match parseCidrWithNetmask "10.1.2.3" "255.255.240.0" with
  | Some c =>
      maskFromPrefix c.(prefix) (bitsOf (versionOf "10.1.2.3")) = Some 4294963200
      /\ c = mkCidr (versionOf "10.1.2.3") (bitsOf (versionOf "10.1.2.3"))
               (Z.land 167838211 4294963200) c.(prefix)
  | None => forall p, maskFromPrefix p (bitsOf (versionOf "10.1.2.3")) <> Some 4294963200
  end.
Proof.
  apply (parseCidrWithNetmask_contiguous "10.1.2.3" "255.255.240.0");
    vm_compute; reflexivity.
Defined.

(** ** Text and number: IPv6 *)

Lemma isV6Char_facts (c : ascii) :
  isV6Char c = true ->
  notSpace c = true /\ isNot "%" c = true /\ isNot "." c = true /\ isNot "/" c = true
  /\ lowerChar c = c.
Proof.
  destruct c as [b0 b1 b2 b3 b4 b5 b6 b7].
  destruct b0, b1, b2, b3, b4, b5, b6, b7; vm_compute; intros H;
    (discriminate H || (repeat split; reflexivity)).
Qed.

Lemma isV4Char_facts (c : ascii) :
  isV4Char c = true ->
  notSpace c = true /\ isNot ":" c = true /\ isNot "/" c = true.
Proof.
  destruct c as [b0 b1 b2 b3 b4 b5 b6 b7].
  destruct b0, b1, b2, b3, b4, b5, b6, b7; vm_compute; intros H;
    (discriminate H || (repeat split; reflexivity)).
Qed.

Lemma allChars_impl (P Q : ascii -> bool) (s : string) :
  (forall c, P c = true -> Q c = true) -> allChars P s = true -> allChars Q s = true.
Proof.
  intros H. induction s as [|c s IH]; cbn [allChars]; [reflexivity|].
  rewrite !andb_true_iff. intros [Hc Hs]. split; auto.
Qed.

Lemma allChars_app (P : ascii -> bool) (a b : string) :
  allChars P (a ++ b) = allChars P a && allChars P b.
Proof.
  induction a as [|c a IH]; cbn [allChars append]; [reflexivity|].
  now rewrite IH, andb_assoc.
Qed.

Lemma trimEnd_id (s : string) : allChars notSpace s = true -> trimEnd s = s.
Proof.
  induction s as [|c s IH]; cbn [allChars trimEnd]; [reflexivity|].
  rewrite andb_true_iff. intros [Hc Hs]. rewrite (IH Hs).
  unfold notSpace in Hc. apply negb_true_iff in Hc.
  destruct s; [now rewrite Hc|reflexivity].
Qed.

Lemma trim_id (s : string) : allChars notSpace s = true -> trim s = s.
Proof.
  intros H. unfold trim.
  assert (E : trimStart s = s).
  { destruct s as [|c s]; [reflexivity|]. cbn [allChars] in H.
    apply andb_true_iff in H. destruct H as [Hc _].
    unfold notSpace in Hc. apply negb_true_iff in Hc. cbn [trimStart]. now rewrite Hc. }
  rewrite E. now apply trimEnd_id.
Qed.

Lemma includes_none (x : ascii) (s : string) :
  allChars (isNot x) s = true -> includes x s = false.
Proof.
  induction s as [|c s IH]; cbn [allChars includes]; [reflexivity|].
  rewrite andb_true_iff. intros [Hc Hs]. unfold isNot in Hc.
  apply negb_true_iff in Hc. now rewrite Hc, (IH Hs).
Qed.

Lemma indexOf_none (x : ascii) (s : string) :
  allChars (isNot x) s = true -> indexOf x s = None.
Proof.
  induction s as [|c s IH]; cbn [allChars indexOf]; [reflexivity|].
  rewrite andb_true_iff. intros [Hc Hs]. unfold isNot in Hc.
  apply negb_true_iff in Hc. now rewrite Hc, (IH Hs).
Qed.

Lemma toLowerCase_id (s : string) : allChars isV6Char s = true -> toLowerCase s = s.
Proof.
  induction s as [|c s IH]; cbn [allChars toLowerCase]; [reflexivity|].
  rewrite andb_true_iff. intros [Hc Hs].
  destruct (isV6Char_facts c Hc) as (_ & _ & _ & _ & ->). now rewrite (IH Hs).
Qed.

Lemma hexValue_app (x y : string) :
  forall acc, hexValue acc (x ++ y) = hexValue (hexValue acc x) y.
Proof.
  induction x as [|c x IH]; intros acc; cbn [hexValue append]; [reflexivity|].
  apply IH.
Qed.

Lemma hexDigit_roundtrip (d : Z) :
  0 <= d < 16 ->
  isLowerHex (digitChar d) = true /\ hexDigitValue (digitChar d) = d.
Proof.
  intros H.
  assert (T : allBelow hexDigitRoundTrip 16 = true) by (vm_compute; reflexivity).
  pose proof (allBelow_spec _ _ T d ltac:(lia)) as E.
  unfold hexDigitRoundTrip in E. apply andb_true_iff in E.
  destruct E as [E1 E2]. apply Z.eqb_eq in E2. now split.
Qed.

Lemma digitsFuel_step (f : nat) (base v : Z) (acc : string) :
  digitsFuel (S f) base v acc
  = if v <? base then String (digitChar (v mod base)) acc
    else digitsFuel f base (v / base) (String (digitChar (v mod base)) acc).
Proof. reflexivity. Qed.

Lemma length_snoc (d : string) (c : ascii) :
  String.length (d ++ String c "") = S (String.length d).
Proof.
  induction d as [|x d IH]; cbn [append String.length]; [reflexivity|].
  now rewrite IH.
Qed.

(** The digits [toString(16)] puts before [acc]: lower-case hexadecimal
    digits that read back as the number, no more of them than the number
    needs. *)
Lemma digitsFuel_hex_value (fuel : nat) :
  forall v acc,
    0 <= v < 16 ^ Z.of_nat (S fuel) ->
    exists d,
      digitsFuel (S fuel) 16 v acc = d ++ acc
      /\ allChars isLowerHex d = true
      /\ isEmpty d = false
      /\ (forall a, hexValue a d = a * 16 ^ Z.of_nat (String.length d) + v)
      /\ (forall k, 1 <= k -> v < 16 ^ k -> Z.of_nat (String.length d) <= k).
Proof.
  assert (One : forall v acc, 0 <= v < 16 ->
            exists d,
              String (digitChar (v mod 16)) acc = d ++ acc
              /\ allChars isLowerHex d = true
              /\ isEmpty d = false
              /\ (forall a, hexValue a d = a * 16 ^ Z.of_nat (String.length d) + v)
              /\ (forall k, 1 <= k -> v < 16 ^ k -> Z.of_nat (String.length d) <= k)).
  { intros v acc Hv.
    destruct (hexDigit_roundtrip (v mod 16) ltac:(rewrite Z.mod_small; lia)) as [Hc Hd].
    exists (String (digitChar (v mod 16)) "").
    split; [reflexivity|]. split; [cbn [allChars]; now rewrite Hc|].
    split; [reflexivity|]. split.
    - intros a. cbn [hexValue String.length]. rewrite Hd, Z.mod_small by lia.
      change (16 ^ Z.of_nat 1) with 16. lia.
    - intros k Hk _. cbn [String.length]. lia. }
  induction fuel as [|f IH]; intros v acc Hv; rewrite digitsFuel_step.
  - destruct (Z.ltb_spec v 16) as [Hlt|Hge]; [apply One; lia|].
    change (16 ^ Z.of_nat 1) with 16 in Hv. lia.
  - destruct (Z.ltb_spec v 16) as [Hlt|Hge]; [apply One; lia|].
    pose proof (Z.mod_pos_bound v 16 ltac:(lia)) as Hm.
    destruct (hexDigit_roundtrip (v mod 16) Hm) as [Hc Hd].
    assert (Hp : 16 ^ Z.of_nat (S (S f)) = 16 * 16 ^ Z.of_nat (S f))
      by (rewrite (Nat2Z.inj_succ (S f)); apply Z.pow_succ_r; lia).
    assert (Hq : 0 <= v / 16 < 16 ^ Z.of_nat (S f)).
    { split; [apply Z.div_pos; lia|apply Z.div_lt_upper_bound; lia]. }
    destruct (IH (v / 16) (String (digitChar (v mod 16)) acc) Hq)
      as (d' & E & Hall & Hne & Hval & Hlen).
    rewrite E.
    exists (d' ++ String (digitChar (v mod 16)) "").
    split; [rewrite append_associative; reflexivity|].
    split; [rewrite allChars_app, Hall; cbn [allChars]; now rewrite Hc|].
    split; [rewrite isEmpty_app, Hne; reflexivity|].
    split.
    + intros a. rewrite hexValue_app, Hval, length_snoc. cbn [hexValue]. rewrite Hd.
      rewrite Nat2Z.inj_succ, Z.pow_succ_r by lia.
      pose proof (Z.div_mod v 16 ltac:(lia)). lia.
    + intros k Hk Hvk. rewrite length_snoc.
      assert (2 <= k).
      { destruct (Z.eq_dec k 1) as [->|]; [change (16 ^ 1) with 16 in Hvk; lia|lia]. }
      assert (Hk' : 16 ^ k = 16 * 16 ^ (k - 1)).
      { rewrite <- Z.pow_succ_r by lia. f_equal. lia. }
      specialize (Hlen (k - 1) ltac:(lia)
                    ltac:(apply Z.div_lt_upper_bound; lia)).
      lia.
Qed.

Lemma hextet_roundtrip (h : Z) :
  isHextetValue h ->
  isHextet (toString16 h) = true /\ parseInt16 (toString16 h) = h
  /\ allChars isLowerHex (toString16 h) = true.
Proof.
  intros H. unfold isHextetValue in H.
  assert (Hfuel : 0 <= h < 16 ^ Z.of_nat (S (Z.to_nat (Z.log2 h)))).
  { split; [lia|].
    destruct (Z.eq_dec h 0) as [->|Hnz]; [reflexivity|].
    pose proof (Z.log2_spec h ltac:(lia)) as [_ Hl].
    pose proof (Z.log2_nonneg h) as Hn.
    rewrite Nat2Z.inj_succ, Z2Nat.id by assumption.
    eapply Z.lt_le_trans; [exact Hl|].
    apply Z.pow_le_mono_l. lia. }
  destruct (digitsFuel_hex_value _ h "" Hfuel) as (d & E & Hall & Hne & Hval & Hlen).
  unfold toString16, toStringBase. rewrite E, append_empty_r.
  split; [|split; [|assumption]].
  - unfold isHextet. rewrite Hne. cbn [negb andb].
    specialize (Hlen 4 ltac:(lia) ltac:(change (16 ^ 4) with 65536; lia)).
    replace (Nat.leb (String.length d) 4) with true
      by (symmetry; apply Nat.leb_le; lia).
    cbn [andb]. apply (allChars_impl isLowerHex); [|assumption].
    intros c Hc. unfold isLowerHex in Hc. unfold isHexDigit.
    apply orb_true_iff in Hc. destruct Hc as [-> | ->]; [reflexivity|].
    now rewrite orb_true_r.
  - unfold parseInt16. rewrite Hval. lia.
Qed.

Lemma join_v6Chars (hs : list Z) :
  Forall isHextetValue hs -> allChars isV6Char (join ":" (map toString16 hs)) = true.
Proof.
  intros H. induction H as [|h rest Hh Hrest IH]; [reflexivity|].
  assert (Hc : allChars isV6Char (toString16 h) = true).
  { destruct (hextet_roundtrip h Hh) as (_ & _ & E).
    apply (allChars_impl isLowerHex); [|assumption].
    intros c Hc. unfold isV6Char. now rewrite Hc. }
  destruct rest as [|h' rest']; [exact Hc|].
  change (join ":" (map toString16 (h :: h' :: rest')))
    with (toString16 h ++ ":" ++ join ":" (map toString16 (h' :: rest'))).
  rewrite !allChars_app, Hc, IH. reflexivity.
Qed.

Lemma splitDoubleColon_none (s : string) :
  countDoubleColon s = 0%nat -> splitDoubleColon s = [s].
Proof.
  induction s as [|c r IH]; [reflexivity|].
  cbn [countDoubleColon splitDoubleColon].
  destruct r as [|c2 r2]; [reflexivity|].
  destruct (Ascii.eqb c ":" && Ascii.eqb c2 ":"); [discriminate|].
  cbn [Nat.add]. intros H. now rewrite (IH H).
Qed.

Lemma splitDoubleColon_once (l r : string) :
  countDoubleColon l = 0%nat -> endsWith ":" l = false ->
  countDoubleColon r = 0%nat ->
  splitDoubleColon (l ++ "::" ++ r) = [l; r].
Proof.
  intros Hl He Hr. induction l as [|c l IH].
  - cbn. now rewrite (splitDoubleColon_none r Hr).
  - cbn [append]. cbn [splitDoubleColon].
    destruct l as [|c2 l2].
    + cbn [append]. cbn in He. rewrite He. cbn [andb].
      cbn [append] in IH. rewrite IH by auto. reflexivity.
    + cbn [append]. cbn [countDoubleColon] in Hl.
      destruct (Ascii.eqb c ":" && Ascii.eqb c2 ":"); [discriminate|].
      cbn [Nat.add] in Hl. cbn [append] in IH.
      rewrite IH; [reflexivity|assumption|exact He].
Qed.

Lemma split_join (strs : list string) :
  strs <> [] -> Forall (fun s => includes ":" s = false) strs ->
  split ":" (join ":" strs) = strs.
Proof.
  intros Hne H. induction H as [|p rest Hp Hrest IH]; [contradiction|].
  destruct rest as [|q rest'].
  - cbn [join]. now apply split_no_separator.
  - change (join ":" (p :: q :: rest')) with (p ++ String ":" (join ":" (q :: rest'))).
    rewrite split_first by assumption. f_equal. apply IH. discriminate.
Qed.

Lemma toString16_no_colon (h : Z) : includes ":" (toString16 h) = false.
Proof.
  destruct (toString16_facts h) as [H _].
  apply includes_none. exact H.
Qed.

(** [leftPart ? leftPart.split(':') : []] on a joined list of hextets. *)
Lemma split_hex_join (hs : list Z) :
  (if isEmpty (join ":" (map toString16 hs)) then []
   else split ":" (join ":" (map toString16 hs)))
  = map toString16 hs.
Proof.
  destruct hs as [|h rest]; [reflexivity|].
  destruct (join_hex_facts (h :: rest)) as (_ & _ & _ & Hne).
  rewrite Hne by discriminate.
  apply split_join; [discriminate|].
  apply Forall_map, Forall_forall. intros x _. apply toString16_no_colon.
Qed.

Lemma hextetsToBigInt_hex (hs : list Z) :
  Forall isHextetValue hs ->
  forall acc,
    hextetsToBigInt (map toString16 hs) acc
    = Some (fold_left (fun a h => a * 65536 + h) hs acc).
Proof.
  intros H. induction H as [|h rest Hh Hrest IH]; intros acc; [reflexivity|].
  cbn [map hextetsToBigInt fold_left].
  destruct (toString16_facts h) as [_ Hne].
  destruct (hextet_roundtrip h Hh) as (Hx & Hv & _).
  rewrite Hne, Hx, Hv. cbn [negb].
  unfold isHextetValue in Hh.
  destruct (Z.ltb_spec h 0); [lia|]. destruct (Z.gtb_spec h 0xffff); [lia|].
  cbn [orb]. rewrite Z.shiftl_mul_pow2 by lia. apply IH.
Qed.

Lemma hextets_range (n : Z) : Forall isHextetValue (hextets n).
Proof.
  unfold hextets. apply Forall_map, Forall_forall. intros i _.
  unfold hextetAt, isHextetValue. change 0xffff with (Z.ones 16).
  rewrite Z.land_ones by lia. apply Z.mod_pos_bound. lia.
Qed.

Lemma hextets_value (n : Z) : 0 <= n < 2 ^ 128 -> hextetsValue (hextets n) = n.
Proof.
  intros H. unfold hextetsValue, hextets, hextetAt.
  cbn [seq map fold_left Z.of_nat Pos.of_succ_nat Pos.succ].
  change 0xffff with (Z.ones 16). rewrite !Z.land_ones, !Z.shiftr_div_pow2 by lia.
  change (16 * (7 - 0)) with (16 * 7). change (16 * (7 - 1)) with (16 * 6).
  change (16 * (7 - 2)) with (16 * 5). change (16 * (7 - 3)) with (16 * 4).
  change (16 * (7 - 4)) with (16 * 3). change (16 * (7 - 5)) with (16 * 2).
  change (16 * (7 - 6)) with (16 * 1). change (16 * (7 - 7)) with 0.
  set (B := 2 ^ 16).
  assert (HB : B = 65536) by reflexivity.
  assert (P1 : 2 ^ (16 * 1) = B) by reflexivity.
  assert (P2 : 2 ^ (16 * 2) = B * B) by reflexivity.
  assert (P3 : 2 ^ (16 * 3) = B * B * B) by reflexivity.
  assert (P4 : 2 ^ (16 * 4) = B * B * B * B) by reflexivity.
  assert (P5 : 2 ^ (16 * 5) = B * B * B * B * B) by reflexivity.
  assert (P6 : 2 ^ (16 * 6) = B * B * B * B * B * B) by reflexivity.
  assert (P7 : 2 ^ (16 * 7) = B * B * B * B * B * B * B) by reflexivity.
  rewrite P1, P2, P3, P4, P5, P6, P7. change (2 ^ 0) with 1. rewrite Z.div_1_r.
  rewrite <- !Z.div_div by lia.
  set (q1 := n / B). set (q2 := q1 / B). set (q3 := q2 / B). set (q4 := q3 / B).
  set (q5 := q4 / B). set (q6 := q5 / B). set (q7 := q6 / B).
  pose proof (Z.div_mod n B ltac:(lia)) as D0.
  pose proof (Z.div_mod q1 B ltac:(lia)) as D1.
  pose proof (Z.div_mod q2 B ltac:(lia)) as D2.
  pose proof (Z.div_mod q3 B ltac:(lia)) as D3.
  pose proof (Z.div_mod q4 B ltac:(lia)) as D4.
  pose proof (Z.div_mod q5 B ltac:(lia)) as D5.
  pose proof (Z.div_mod q6 B ltac:(lia)) as D6.
  fold q1 in D0. fold q2 in D1. fold q3 in D2. fold q4 in D3. fold q5 in D4.
  fold q6 in D5. fold q7 in D6.
  assert (Hq7 : 0 <= q7 < B).
  { unfold q7, q6, q5, q4, q3, q2, q1. rewrite !Z.div_div by lia. split.
    - apply Z.div_pos; lia.
    - apply Z.div_lt_upper_bound; [lia|]. rewrite HB. cbn. cbn in H. lia. }
  rewrite (Z.mod_small q7) by lia.
  rewrite HB in *. lia.
Qed.

Lemma zeroRun_split (hs : list Z) (s len : nat) :
  List.length hs = 8%nat -> zeroRun hs s len ->
  hs = (firstn s hs ++ repeat 0 len ++ skipn (s + len) hs)%list.
Proof.
  intros Hlen (H1 & H2 & Hz & _ & _).
  rewrite <- (firstn_skipn s hs) at 1. f_equal.
  rewrite <- (firstn_skipn len (skipn s hs)) at 1.
  rewrite skipn_skipn, (Nat.add_comm len s). f_equal.
  apply (nth_ext _ _ 1 0).
  - rewrite length_firstn, length_skipn, repeat_length. lia.
  - intros i Hi. rewrite length_firstn, length_skipn in Hi.
    rewrite nth_firstn. destruct (Nat.ltb_spec i len); [|lia].
    rewrite nth_skipn, nth_repeat. apply Hz. lia.
Qed.

Lemma ipv6_text_cases (n : Z) (out : string) :
  0 <= n < 2 ^ 128 -> bigIntToIpv6 n = Some out ->
  out = join ":" (map toString16 (hextets n))
  \/ exists s len,
       zeroRun (hextets n) s len
       /\ out = join ":" (map toString16 (firstn s (hextets n))) ++ "::"
                ++ join ":" (map toString16 (skipn (s + len) (hextets n))).
Proof.
  intros Hn Hout.
  pose proof (compression_cases (hextets n) out (hextets_length n)) as Hcases.
  rewrite <- hextetsOf_hextets in Hcases.
  unfold bigIntToIpv6 in Hout.
  destruct ((n <? 0) || (n >? 2 ^ 128 - 1)); [discriminate|].
  specialize (Hcases Hout). rewrite hextetsOf_hextets in Hcases.
  destruct Hcases as [(_ & E & _)|(s & len & (Hrun & _) & E & _)].
  - now left.
  - right. exists s, len. now split.
Qed.

(** The steps of [ipv6ToBigInt] before the split at the double colon leave
    a text of hexadecimal digits and colons as it is. *)
Lemma ipv6ToBigInt_plain (s : string) :
  allChars isV6Char s = true -> isEmpty s = false ->
  ipv6ToBigInt s
  = let parts := splitDoubleColon s in
    if Nat.ltb 2 (List.length parts) then None
    else
      let leftPart := nth 0 parts "" in
      let rightPart := if Nat.eqb (List.length parts) 2 then nth 1 parts "" else "" in
      let left := if isEmpty leftPart then [] else split ":" leftPart in
      let right := if isEmpty rightPart then [] else split ":" rightPart in
      if Nat.eqb (List.length parts) 1 then
        if negb (Nat.eqb (List.length left) 8) then None
        else hextetsToBigInt left 0
      else
        let total := (List.length left + List.length right)%nat in
        if Nat.ltb 8 total then None
        else
          let missing := (8 - total)%nat in
          let full := (left ++ repeat "0" missing ++ right)%list in
          if negb (Nat.eqb (List.length full) 8) then None
          else hextetsToBigInt full 0.
Proof.
  intros Hc Hne. unfold ipv6ToBigInt.
  rewrite trim_id
    by (apply (allChars_impl isV6Char); [intros c H; apply (isV6Char_facts c H)|assumption]).
  unfold stripZoneIndex.
  rewrite indexOf_none
    by (apply (allChars_impl isV6Char); [intros c H; apply (isV6Char_facts c H)|assumption]).
  rewrite toLowerCase_id, Hne by assumption.
  unfold expandEmbeddedIpv4.
  rewrite includes_none
    by (apply (allChars_impl isV6Char); [intros c H; apply (isV6Char_facts c H)|assumption]).
  reflexivity.
Qed.

Lemma ipv6_parse_full (hs : list Z) :
  List.length hs = 8%nat -> Forall isHextetValue hs ->
  ipv6ToBigInt (join ":" (map toString16 hs)) = Some (hextetsValue hs).
Proof.
  intros Hlen Hr.
  destruct (join_hex_facts hs) as (Hcount & _ & _ & Hne).
  rewrite ipv6ToBigInt_plain;
    [|now apply join_v6Chars|apply Hne; intros ->; discriminate].
  cbv zeta. rewrite (splitDoubleColon_none _ Hcount).
  cbn [List.length Nat.ltb Nat.leb Nat.eqb nth].
  rewrite split_hex_join, length_map, Hlen. cbn [Nat.eqb negb].
  now apply hextetsToBigInt_hex.
Qed.

Lemma ipv6_parse_compressed (hs : list Z) (s len : nat) :
  List.length hs = 8%nat -> Forall isHextetValue hs -> zeroRun hs s len ->
  ipv6ToBigInt (join ":" (map toString16 (firstn s hs)) ++ "::"
                ++ join ":" (map toString16 (skipn (s + len) hs)))
  = Some (hextetsValue hs).
Proof.
  intros Hlen Hr Hrun.
  pose proof (zeroRun_split hs s len Hlen Hrun) as Hsplit.
  destruct Hrun as (H1 & H2 & _).
  set (before := firstn s hs) in *. set (after := skipn (s + len) hs) in *.
  assert (Hb : Forall isHextetValue before).
  { pose proof Hr as Hr'. rewrite <- (firstn_skipn s hs) in Hr'.
    now apply Forall_app in Hr'. }
  assert (Ha : Forall isHextetValue after).
  { pose proof Hr as Hr'. rewrite <- (firstn_skipn (s + len) hs) in Hr'.
    now apply Forall_app in Hr'. }
  assert (Lb : List.length before = s) by (unfold before; rewrite length_firstn; lia).
  assert (La : List.length after = (8 - (s + len))%nat)
    by (unfold after; rewrite length_skipn; lia).
  destruct (join_hex_facts before) as (Cb & Eb & _ & _).
  destruct (join_hex_facts after) as (Ca & _ & _ & _).
  rewrite ipv6ToBigInt_plain.
  - cbv zeta. rewrite (splitDoubleColon_once _ _ Cb Eb Ca).
    cbn [List.length nth].
    change (Nat.ltb 2 2) with false. change (Nat.eqb 2 2) with true.
    change (Nat.eqb 2 1) with false. cbv iota.
    rewrite !split_hex_join, !length_map, Lb, La.
    destruct (Nat.ltb_spec 8 (s + (8 - (s + len)))); [lia|].
    replace (8 - (s + (8 - (s + len))))%nat with len by lia.
    replace (repeat "0" len) with (map toString16 (repeat 0 len))
      by (rewrite map_repeat; reflexivity).
    rewrite <- !map_app, <- Hsplit, length_map, Hlen. cbn [Nat.eqb negb].
    now apply hextetsToBigInt_hex.
  - rewrite !allChars_app, !join_v6Chars by assumption. reflexivity.
  - rewrite !isEmpty_app. cbn. now rewrite andb_false_r.
Qed.

(** X28. Writing a 128-bit number as IPv6 text, with the longest run of
    zero hextets compressed, and reading the text back gives the number. *)
Theorem ipv6_round_trip (n : Z) :
  0 <= n < 2 ^ 128 ->
  exists s, bigIntToIpv6 n = Some s /\ ipv6ToBigInt s = Some n.
Proof.
  intros Hn. destruct (bigIntToIpv6_Some n Hn) as [out Hout].
  exists out. split; [assumption|].
  rewrite <- (hextets_value n Hn) at 1.
  destruct (ipv6_text_cases n out Hn Hout) as [->|(s & len & Hrun & ->)].
  - apply ipv6_parse_full; [apply hextets_length|apply hextets_range].
  - apply ipv6_parse_compressed;
      [apply hextets_length|apply hextets_range|assumption].
Qed.

Lemma ipv6_round_trip_witness :
  exists s, bigIntToIpv6 42540766411282592856903984951653826561 = Some s
            /\ ipv6ToBigInt s = Some 42540766411282592856903984951653826561.
Proof. apply ipv6_round_trip. lia. Defined.

(** ** Text and prefix: CIDR notation *)

Lemma includes_app (x : ascii) (a b : string) :
  includes x (a ++ b) = includes x a || includes x b.
Proof.
  induction a as [|c a IH]; cbn [includes append]; [reflexivity|].
  now rewrite IH, orb_assoc.
Qed.

Lemma digit_is_v4Char (c : ascii) : isDigit c = true -> isV4Char c = true.
Proof. intros H. unfold isV4Char. now rewrite H. Qed.

Lemma lowerHex_is_v6Char (c : ascii) : isLowerHex c = true -> isV6Char c = true.
Proof. intros H. unfold isV6Char. now rewrite H. Qed.

Lemma decimal_text (v : Z) :
  0 <= v < 256 ->
  isDigits (toString10 v) = true /\ Number (toString10 v) = v
  /\ isEmpty (toString10 v) = false
  /\ allChars isV4Char (toString10 v) = true.
Proof.
  intros H. destruct (decimal_roundtrip v H) as [Hd Hn].
  destruct (isDigits_inv _ Hd) as [He Hc].
  repeat split; try assumption.
  apply (allChars_impl isDigit); [apply digit_is_v4Char|assumption].
Qed.

(** The text of an address reads back as the address, is recognised as of
    its version, and has no white space and no slash in it. *)
Lemma formatAddress_text (v : IpVersion) (n : Z) :
  0 <= n < 2 ^ bitsOf v ->
  exists addr,
    formatAddress v n = Some addr
    /\ parseAddress v addr = Some n
    /\ versionOf addr = v
    /\ isEmpty addr = false
    /\ allChars notSpace addr = true
    /\ allChars (isNot "/") addr = true.
Proof.
  intros Hn. destruct v; cbn [bitsOf formatAddress parseAddress] in *.
  - eexists. split; [now apply ipv4_text|]. split; [now apply ipv4_parse_text|].
    pose proof (Z.mod_pos_bound (n / 2 ^ 24) 256 ltac:(lia)) as Ba.
    pose proof (Z.mod_pos_bound (n / 2 ^ 16) 256 ltac:(lia)) as Bb.
    pose proof (Z.mod_pos_bound (n / 2 ^ 8) 256 ltac:(lia)) as Bc.
    pose proof (Z.mod_pos_bound n 256 ltac:(lia)) as Bd.
    destruct (decimal_text _ Ba) as (_ & _ & Ea & Ca).
    destruct (decimal_text _ Bb) as (_ & _ & _ & Cb).
    destruct (decimal_text _ Bc) as (_ & _ & _ & Cc).
    destruct (decimal_text _ Bd) as (_ & _ & _ & Cd).
    set (out := _ ++ _).
    assert (Hc : allChars isV4Char out = true).
    { unfold out. rewrite !allChars_app, Ca, Cb, Cc, Cd. reflexivity. }
    split; [|split; [|split]].
    + unfold versionOf, isLikelyIpv6. rewrite includes_none; [reflexivity|].
      apply (allChars_impl isV4Char); [intros c H; apply (isV4Char_facts c H)|assumption].
    + unfold out. now rewrite isEmpty_app, Ea.
    + apply (allChars_impl isV4Char); [intros c H; apply (isV4Char_facts c H)|assumption].
    + apply (allChars_impl isV4Char); [intros c H; apply (isV4Char_facts c H)|assumption].
  - destruct (bigIntToIpv6_Some n Hn) as [out Hout]. exists out.
    split; [assumption|].
    pose proof (hextets_range n) as Hr. pose proof (hextets_length n) as Hlen.
    assert (Hfacts : ipv6ToBigInt out = Some (hextetsValue (hextets n))
                     /\ includes ":" out = true /\ isEmpty out = false
                     /\ allChars isV6Char out = true).
    { destruct (ipv6_text_cases n out Hn Hout) as [->|(s & len & Hrun & ->)].
      - split; [now apply ipv6_parse_full|].
        split; [|split; [|now apply join_v6Chars]].
        + destruct (hextets n) as [|h0 [|h1 rest]]; [discriminate|discriminate|].
          change (join ":" (map toString16 (h0 :: h1 :: rest)))
            with (toString16 h0 ++ ":" ++ join ":" (map toString16 (h1 :: rest))).
          rewrite !includes_app. cbn. now rewrite orb_true_r.
        + destruct (join_hex_facts (hextets n)) as (_ & _ & _ & Hne).
          apply Hne. intros E. rewrite E in Hlen. discriminate.
      - split; [now apply ipv6_parse_compressed|].
        split; [|split].
        + rewrite !includes_app. cbn. now rewrite orb_true_r.
        + rewrite !isEmpty_app. cbn. now rewrite andb_false_r.
        + assert (Hb : Forall isHextetValue (firstn s (hextets n))).
          { pose proof Hr as Hr'. rewrite <- (firstn_skipn s (hextets n)) in Hr'.
            now apply Forall_app in Hr'. }
          assert (Ha : Forall isHextetValue (skipn (s + len) (hextets n))).
          { pose proof Hr as Hr'. rewrite <- (firstn_skipn (s + len) (hextets n)) in Hr'.
            now apply Forall_app in Hr'. }
          rewrite !allChars_app, !join_v6Chars by assumption. reflexivity. }
    destruct Hfacts as (Hp & Hi & He & Hc).
    rewrite (hextets_value n Hn) in Hp.
    split; [assumption|]. split; [|split; [assumption|split]].
    + unfold versionOf, isLikelyIpv6. now rewrite Hi.
    + apply (allChars_impl isV6Char); [intros c H; apply (isV6Char_facts c H)|assumption].
    + apply (allChars_impl isV6Char); [intros c H; apply (isV6Char_facts c H)|assumption].
Qed.

Lemma parseCidr_bits (input : string) (c : NormalisedCidr) :
  parseCidr input = Some c -> c.(bits) = bitsOf c.(version).
Proof.
  unfold parseCidr.
  destruct (negb (Nat.eqb _ 2)); [discriminate|].
  destruct (_ || _); [discriminate|].
  destruct (negb (isDigits _)); [discriminate|].
  destruct (negb (assertIntegerInRange _ _ _)); [discriminate|].
  destruct (parseAddress _ _) as [ip|]; [|discriminate].
  destruct (maskFromPrefix _ _) as [mask|]; [|discriminate].
  intros E. apply Some_eq in E. now subst c.
Qed.

Lemma parseCidr_of_text (c : NormalisedCidr) :
  canonical c -> c.(bits) = bitsOf c.(version) ->
  exists s,
    formatCidr c.(version) c.(network) c.(prefix) = Some s /\ parseCidr s = Some c.
Proof.
  intros Hc Hbits. pose proof Hc as Hal. apply canonical_aligned in Hal.
  destruct Hal as (Hp & Hn & Hd).
  destruct (formatAddress_text (version c) (network c) ltac:(rewrite <- Hbits; lia))
    as (addr & Hfmt & Hparse & Hver & Hne & Hsp & Hsl).
  assert (Hp256 : 0 <= prefix c < 256) by (destruct (version c); cbn in Hbits; lia).
  destruct (decimal_text _ Hp256) as (Pd & Pn & Pe & Pc).
  set (ptxt := toString10 (prefix c)) in *.
  exists (addr ++ "/" ++ ptxt). split.
  { unfold formatCidr, toStringSigned. rewrite Hfmt.
    destruct (Z.ltb_spec (prefix c) 0); [lia|reflexivity]. }
  assert (Psp : allChars notSpace ptxt = true)
    by (apply (allChars_impl isV4Char); [intros x H; apply (isV4Char_facts x H)|assumption]).
  assert (Psl : includes "/" ptxt = false).
  { apply includes_none.
    apply (allChars_impl isV4Char); [intros x H; apply (isV4Char_facts x H)|assumption]. }
  unfold parseCidr.
  rewrite (trim_id (addr ++ "/" ++ ptxt))
    by (rewrite !allChars_app, Hsp, Psp; reflexivity).
  change (addr ++ "/" ++ ptxt) with (addr ++ String "/" ptxt).
  rewrite split_first by (now apply includes_none).
  rewrite (split_no_separator "/" ptxt Psl).
  cbn [List.length Nat.eqb negb nth].
  rewrite (trim_id addr Hsp), (trim_id ptxt Psp), Hne, Pe, Pd, Pn, Hver.
  cbn [orb negb]. rewrite <- Hbits.
  replace (assertIntegerInRange (prefix c) 0 (bits c)) with true
    by (symmetry; apply assertIntegerInRange_true; lia).
  cbn [negb]. rewrite Hparse.
  destruct Hc as (m & Hm & Hfix). rewrite Hm, <- Hfix.
  destruct c as [v w nw p]. reflexivity.
Qed.

(** X29. CIDR notation round trip: a prefix that keeps the mask invariant
    and has the width of its version is what [parseCidr] reads from the
    text [formatCidr] writes for it; so formatting what [parseCidr]
    returned and parsing it again gives the same prefix. *)
Theorem parseCidr_formatCidr_round_trip :
  (forall c, canonical c -> c.(bits) = bitsOf c.(version) ->
     exists s,
       formatCidr c.(version) c.(network) c.(prefix) = Some s /\ parseCidr s = Some c)
  /\ (forall input c, parseCidr input = Some c ->
        exists s,
          formatCidr c.(version) c.(network) c.(prefix) = Some s
          /\ parseCidr s = Some c).
Proof.
  split.
  - exact parseCidr_of_text.
  - intros input c H. apply parseCidr_of_text.
    + now apply (parseCidr_canonical input).
    + now apply (parseCidr_bits input).
Qed.

Lemma parseCidr_formatCidr_round_trip_witness :
  exists s,
    formatCidr V4 0xC0A80100 24 = Some s
    /\ parseCidr s = Some (mkCidr V4 32 0xC0A80100 24).
Proof.
  apply (proj2 parseCidr_formatCidr_round_trip " 192.168.1.5/24 "
           (mkCidr V4 32 0xC0A80100 24)).
  vm_compute. reflexivity.
Defined.

(** ** Address classes *)

Ltac class_case :=
  cbn [List.length In];
  repeat match goal with
         | |- _ /\ _ => split
         | |- _ <-> _ => split
         | |- ~ _ => intros [H|[]]; discriminate H
         | |- (_ \/ False) -> _ => intros [H|[]]; try discriminate H
         | |- _ -> _ \/ False => intros; try (left; reflexivity); exfalso
         | |- _ -> _ => intros
         end;
  unfold specialIpv4 in *; try reflexivity; try lia.

(** X30. The classes of an IPv4 text that parses, by ranges of its number:
    [classifyAddress] returns exactly one class, and each class stands for
    its range: unspecified for 0, loopback for 127.0.0.0/8, multicast for
    224.0.0.0/4, reserved for 240.0.0.0/4 without the last address,
    broadcast for the last address, private for 10.0.0.0/8, 172.16.0.0/12
    and 192.168.0.0/16, link-local for 169.254.0.0/16, documentation for
    the three documentation /24s, and public for every other address. *)
Theorem classifyAddress_ipv4_ranges (address : string) (ip : Z) :
  versionOf address = V4 -> ipv4ToBigInt address = Some ip ->
  List.length (classifyAddress address) = 1%nat
  /\ (In UNSPECIFIED (classifyAddress address) <-> ip = 0)
  /\ (In LOOPBACK (classifyAddress address) <-> 0x7f000000 <= ip <= 0x7fffffff)
  /\ (In MULTICAST (classifyAddress address) <-> 0xe0000000 <= ip <= 0xefffffff)
  /\ (In RESERVED (classifyAddress address) <-> 0xf0000000 <= ip <= 0xfffffffe)
  /\ (In BROADCAST (classifyAddress address) <-> ip = 0xffffffff)
  /\ (In PRIVATE (classifyAddress address)
      <-> 0x0a000000 <= ip <= 0x0affffff \/ 0xac100000 <= ip <= 0xac1fffff
          \/ 0xc0a80000 <= ip <= 0xc0a8ffff)
  /\ (In LINK_LOCAL (classifyAddress address) <-> 0xa9fe0000 <= ip <= 0xa9feffff)
  /\ (In DOCUMENTATION (classifyAddress address)
      <-> 0xc0000200 <= ip <= 0xc00002ff \/ 0xc6336400 <= ip <= 0xc63364ff
          \/ 0xcb007100 <= ip <= 0xcb0071ff)
  /\ (In PUBLIC (classifyAddress address) <-> ~ specialIpv4 ip)
  /\ ~ In UNIQUE_LOCAL (classifyAddress address)
  /\ ~ In GLOBAL_UNICAST (classifyAddress address).
Proof.
  intros Hv Hparse.
  pose proof (ipv4ToBigInt_bound _ _ Hparse) as Hb. change (2 ^ 32) with 4294967296 in Hb.
  unfold classifyAddress, classifyAddressTry.
  unfold versionOf in Hv. destruct (isLikelyIpv6 address); [discriminate|].
  rewrite Hparse. unfold classifyIpv4.
  rewrite !Z.shiftr_div_pow2 by lia.
  change (2 ^ 24) with 16777216. change (2 ^ 28) with 268435456.
  change (2 ^ 20) with 1048576. change (2 ^ 16) with 65536. change (2 ^ 8) with 256.
  pose proof (Z.div_mod ip 16777216 ltac:(lia)) as D24.
  pose proof (Z.mod_pos_bound ip 16777216 ltac:(lia)) as M24.
  pose proof (Z.div_mod ip 268435456 ltac:(lia)) as D28.
  pose proof (Z.mod_pos_bound ip 268435456 ltac:(lia)) as M28.
  pose proof (Z.div_mod ip 1048576 ltac:(lia)) as D20.
  pose proof (Z.mod_pos_bound ip 1048576 ltac:(lia)) as M20.
  pose proof (Z.div_mod ip 65536 ltac:(lia)) as D16.
  pose proof (Z.mod_pos_bound ip 65536 ltac:(lia)) as M16.
  pose proof (Z.div_mod ip 256 ltac:(lia)) as D8.
  pose proof (Z.mod_pos_bound ip 256 ltac:(lia)) as M8.
  destruct (Z.eqb_spec ip 0); [class_case|].
  destruct (Z.eqb_spec (ip / 16777216) 127); [class_case|].
  destruct (Z.eqb_spec (ip / 268435456) 0xe); [class_case|].
  destruct (Z.eqb_spec (ip / 268435456) 0xf); cbn [andb].
  - destruct (Z.eqb_spec ip 0xffffffff); cbn [negb]; class_case.
  - destruct (Z.eqb_spec ip 0xffffffff); [class_case|].
    destruct (Z.eqb_spec (ip / 16777216) 10); [class_case|].
    destruct (Z.eqb_spec (ip / 1048576) 0xac1); [class_case|].
    destruct (Z.eqb_spec (ip / 65536) 0xc0a8); [class_case|].
    destruct (Z.eqb_spec (ip / 65536) 0xa9fe); [class_case|].
    destruct (Z.eqb_spec (ip / 256) 0xc00002); [cbn [orb]; class_case|].
    destruct (Z.eqb_spec (ip / 256) 0xc63364); [cbn [orb]; class_case|].
    destruct (Z.eqb_spec (ip / 256) 0xcb0071); cbn [orb]; class_case.
Qed.

Lemma classifyAddress_ipv4_ranges_witness :
  In PRIVATE (classifyAddress "172.31.255.255")
  <-> 0x0a000000 <= 2887778303 <= 0x0affffff \/ 0xac100000 <= 2887778303 <= 0xac1fffff
      \/ 0xc0a80000 <= 2887778303 <= 0xc0a8ffff.
Proof.
  pose proof (classifyAddress_ipv4_ranges "172.31.255.255" 2887778303
                ltac:(vm_compute; reflexivity) ltac:(vm_compute; reflexivity))
    as (_ & _ & _ & _ & _ & _ & H & _).
  exact H.
Defined.
